(** * Room session and message relay of the chat server (server.js)

    A shallow embedding of the relay engine of [server.js]: the message
    store helpers ([storeMessage], [getRecentMessages]), the in-memory
    participant registry ([addParticipant], [removeParticipant],
    [listParticipants]) and the Socket.IO handlers ([join-room],
    [chat-message]/[message], [typing], [stop-typing], [end-session],
    [file], [disconnecting]).

    Modelling conventions.
    - A JavaScript string is a [string]; one [ascii] stands for one code
      unit, so the strings covered are those over code units 0..255.
    - An optional payload field, or a nullable field of [socket.data], is an
      [option string]: [None] is [undefined]/[null].  JavaScript truthiness
      of such a value is [truthy]: present and not the empty string.
    - The first argument of a listener whose parameter has a default
      ([= {}]) is a [Js.arg]: the default stands in for [undefined] only,
      [null] reaches the parameter pattern or the body as it is.
    - The object [rooms] is used as a map from room id to a [Set] of names.
      Its own properties are a [gmap string (list string)], a [Set] being
      the list of its members in insertion order (what [Array.from]
      enumerates); a key it does not own is read from [Object.prototype],
      whose members are listed in [Js.object_prototype_members].  Calling
      [add] or [delete] on such a member throws; a helper of the registry
      returns the message of the exception ([inl]) or the new registry
      ([inr]).
    - [socket.rooms] is the list of the rooms of a connection in the order
      they were joined, the connection's own id first.
    - The table [messages] is the list of its rows in rowid (insertion)
      order.
    - What the handlers read from the platform ([Math.random], [uuidv4],
      [Date.now], a failure of the storage layer) is passed in as an [env];
      a failing storage layer makes the statements of [storeMessage] and of
      [getRecentMessages] throw.
    - A handler is a computation in a small state-and-exception monad over
      the [world]; every write to the registry or to the store, every [emit]
      and every acknowledgment is appended to the world's effect log in
      program order.  An exception that no [try] of the listener catches
      ends the handling of the event.

    Besides the relay engine the development embeds
    - the upload endpoint of [server.js] (the [filename] callback of
      [multer.diskStorage] and the handler of [POST /upload]); Node's
      [path.extname] and [path.basename] are passed in as functions;
    - the three migration scripts ([migrate-add-roomid.js],
      [migrate-add-type.js], [migrate-add-username.js]) as one function of
      the column name, over a database that is the column list of
      [messages], or nothing when the table is missing; the database
      directory exists and a statement fails for SQLite's own reasons only;
    - the page script [public/app.js]: its variables and the parts of the
      document it writes form a [page], its listeners are functions from
      page to page.  The listeners of the create button, of the end-session
      button and of the key events (typing notices and their timer, focus)
      are not embedded. *)

From Stdlib Require Import ZArith Ascii String List Sorting.Sorted.
From stdpp Require Import base option list gmap strings sorting pretty.

Local Open Scope string_scope.
Local Open Scope list_scope.

(** ** JavaScript string primitives *)

Module Js.

(** [x] is truthy: neither [undefined]/[null] nor the empty string. *)
Definition truthy (x : option string) : bool :=
  match x with
  | Some s => negb (String.eqb s "")
  | None => false
  end.

(** [a || b] on nullable strings. *)
Definition or (a b : option string) : option string :=
  if truthy a then a else b.

(** [a || 'lit']: the right operand is a string literal. *)
Definition or_lit (a : option string) (lit : string) : string :=
  match a with
  | Some s => if String.eqb s "" then lit else s
  | None => lit
  end.

(** [x || null]. *)
Definition or_null (a : option string) : option string :=
  if truthy a then a else None.

Fixpoint take (n : nat) (s : string) : string :=
  match n, s with
  | S n', String c s' => String c (take n' s')
  | _, _ => ""
  end.

Fixpoint drop (n : nat) (s : string) : string :=
  match n, s with
  | S n', String _ s' => drop n' s'
  | _, _ => s
  end.

(** [s.slice(a, b)] for literal indices [0 <= a <= b]. *)
Definition slice (a b : nat) (s : string) : string :=
  take (b - a) (drop a s).

(** White space removed by [trim], within code units 0..255: TAB, LF, VT,
    FF, CR, SPACE and NO-BREAK SPACE. *)
Definition is_ws (c : ascii) : bool :=
  match N_of_ascii c with
  | 9 | 10 | 11 | 12 | 13 | 32 | 160 => true
  | _ => false
  end%N.

Fixpoint trimStart (s : string) : string :=
  match s with
  | "" => ""
  | String c s' => if is_ws c then trimStart s' else s
  end.

Fixpoint trimEnd (s : string) : string :=
  match s with
  | "" => ""
  | String c s' =>
      match trimEnd s' with
      | "" => if is_ws c then "" else String c ""
      | t => String c t
      end
  end.

Definition trim (s : string) : string := trimEnd (trimStart s).

(** [toUpperCase] on the letters a..z; the server applies it to the
    base-36 digits of a number only. *)
Definition upper_ascii (c : ascii) : ascii :=
  let n := N_of_ascii c in
  if ((97 <=? n) && (n <=? 122))%N then ascii_of_N (n - 32) else c.

Fixpoint toUpperCase (s : string) : string :=
  match s with
  | "" => ""
  | String c s' => String (upper_ascii c) (toUpperCase s')
  end.

(** A digit of an upper-cased base-36 numeral. *)
Definition is_base36_upper (c : ascii) : bool :=
  let n := N_of_ascii c in
  (((48 <=? n) && (n <=? 57)) || ((65 <=? n) && (n <=? 90)))%N.

Fixpoint all_chars (p : ascii → bool) (s : string) : bool :=
  match s with
  | "" => true
  | String c s' => p c && all_chars p s'
  end.

(** A digit of a base-36 numeral as [Number.prototype.toString(36)]
    prints it. *)
Definition is_base36_lower (c : ascii) : bool :=
  let n := N_of_ascii c in
  (((48 <=? n) && (n <=? 57)) || ((97 <=? n) && (n <=? 122)))%N.

(** The shape of [x.toString(36)] for a number [0 <= x < 1]: the numeral
    [0], or [0.] followed by at least one base-36 digit. *)
Definition unit_fraction36 (s : string) : bool :=
  match s with
  | "0" => true
  | String "0" (String "." (String c ds)) =>
      is_base36_lower c && all_chars is_base36_lower ds
  | _ => false
  end.

(** [arr.join(sep)] on an array of strings. *)
Fixpoint join (sep : string) (l : list string) : string :=
  match l with
  | [] => ""
  | [x] => x
  | x :: l' => x +:+ sep +:+ join sep l'
  end.

(** [arr.join(sep)] on an array whose entries may be [undefined] or [null]:
    such an entry is printed as the empty string. *)
Definition join_nullable (sep : string) (l : list (option string))
    : string :=
  join sep (default "" <$> l).

(** The first argument a listener is called with: nothing ([undefined]),
    [null], or an object. *)
Inductive arg (A : Type) :=
| Undefined
| Null
| Obj (a : A).
Global Arguments Undefined {A}.
Global Arguments Null {A}.
Global Arguments Obj {A} a.

(** The value of a parameter declared [x = dflt]: the default replaces
    [undefined] and nothing else; [None] stands for the value [null]. *)
Definition default_param {A} (dflt : A) (x : arg A) : option A :=
  match x with
  | Undefined => Some dflt
  | Null => None
  | Obj a => Some a
  end.

(** A member of [Object.prototype]: a function, with its [length], or,
    under [__proto__], the prototype object itself. *)
Inductive member :=
| Function (length : nat)
| Prototype.

(** The members of [Object.prototype]: what a plain object such as [{}]
    answers for a key it does not own. *)
Definition object_prototype_members : list (string * member) :=
  [("constructor", Function 1);
   ("hasOwnProperty", Function 1);
   ("isPrototypeOf", Function 1);
   ("propertyIsEnumerable", Function 1);
   ("toLocaleString", Function 0);
   ("toString", Function 0);
   ("valueOf", Function 0);
   ("__defineGetter__", Function 2);
   ("__defineSetter__", Function 2);
   ("__lookupGetter__", Function 1);
   ("__lookupSetter__", Function 1);
   ("__proto__", Prototype)].

Definition object_prototype (key : string) : option member :=
  snd <$> List.find (λ kv : string * member, String.eqb kv.1 key)
                    object_prototype_members.

(** [Array.from(x)] for such a member: it is not iterable, so the result
    has [x.length] entries, all of them [undefined]; the prototype object
    has no [length]. *)
Definition array_from (m : member) : list (option string) :=
  match m with
  | Function n => replicate n None
  | Prototype => []
  end.

End Js.

(** ** The participant registry: [const rooms = {}] *)

Module Registry.

(** [set.add(x)] on a [Set] kept as its members in insertion order. *)
Definition set_add (x : string) (s : list string) : list string :=
  if bool_decide (x ∈ s) then s else s ++ [x].

(** [set.delete(x)]. *)
Definition set_delete (x : string) (s : list string) : list string :=
  filter (λ y, y ≠ x) s.

(** What [rooms[roomId]] evaluates to: a [Set] the object owns under that
    key, else the member of [Object.prototype] of that name, else
    [undefined]. *)
Inductive entry :=
| Members (s : list string)
| Inherited (m : Js.member)
| Missing.

(** The registry: the own properties of [rooms] that hold a [Set].  The
    only other value the code ever stores in [rooms] is, by
    [rooms[roomId] = rooms[roomId] || new Set()], the inherited member
    already found under that key; reading the key gives the same value
    before and after, so such a property is not recorded. *)
Definition lookup (rooms : gmap string (list string)) (roomId : string)
    : entry :=
  match rooms !! roomId with
  | Some s => Members s
  | None =>
      match Js.object_prototype roomId with
      | Some m => Inherited m
      | None => Missing
      end
  end.

(** [function addParticipant(roomId, username)]:
    [rooms[roomId] = rooms[roomId] || new Set(); rooms[roomId].add(username)].
    An inherited member is truthy and has no [add]: the call throws a
    [TypeError] ([inl] carries its message). *)
Definition addParticipant (rooms : gmap string (list string))
    (roomId username : string) : string + gmap string (list string) :=
  match lookup rooms roomId with
  | Members s => inr (<[roomId := set_add username s]> rooms)
  | Missing => inr (<[roomId := set_add username []]> rooms)
  | Inherited _ => inl "rooms[roomId].add is not a function"
  end.

(** [function removeParticipant(roomId, username)]: return when
    [rooms[roomId]] is falsy; delete the name; delete the room's entry when
    its set has become empty.  [username] is [None] when the caller passes
    [null]: [Set.delete(null)] removes nothing, the size test is made all
    the same.  An inherited member is truthy and has no [delete]: the call
    throws. *)
Definition removeParticipant_nullable (rooms : gmap string (list string))
    (roomId : string) (username : option string)
    : string + gmap string (list string) :=
  match lookup rooms roomId with
  | Missing => inr rooms
  | Inherited _ => inl "rooms[roomId].delete is not a function"
  | Members s =>
      let s' := match username with
                | Some n => set_delete n s
                | None => s
                end in
      if (length s' =? 0)%nat then inr (delete roomId rooms)
      else inr (<[roomId := s']> rooms)
  end.

(** [removeParticipant(roomId, username)] with a string for [username]. *)
Definition removeParticipant (rooms : gmap string (list string))
    (roomId username : string) : string + gmap string (list string) :=
  removeParticipant_nullable rooms roomId (Some username).

(** [function listParticipants(roomId)]:
    [rooms[roomId] ? Array.from(rooms[roomId]) : []].  An entry of the
    result is [None] when it is [undefined]. *)
Definition listParticipants (rooms : gmap string (list string))
    (roomId : string) : list (option string) :=
  match lookup rooms roomId with
  | Members s => Some <$> s
  | Inherited m => Js.array_from m
  | Missing => []
  end.

(** [rooms[roomId]] is an inherited member: the object owns no [Set]
    under that key and the key names a member of [Object.prototype]. *)
Definition inherited (rooms : gmap string (list string)) (roomId : string)
    : bool :=
  match lookup rooms roomId with
  | Inherited _ => true
  | _ => false
  end.

(** The registry after [addParticipant] has returned. *)
Definition added (rooms : gmap string (list string))
    (roomId username : string) : gmap string (list string) :=
  <[roomId := set_add username (default [] (rooms !! roomId))]> rooms.

(** The registry after [removeParticipant] has returned, for a name and
    for a name that may be [null]. *)
Definition removed (rooms : gmap string (list string))
    (roomId username : string) : gmap string (list string) :=
  match rooms !! roomId with
  | None => rooms
  | Some s =>
      let s' := set_delete username s in
      if (length s' =? 0)%nat then delete roomId rooms
      else <[roomId := s']> rooms
  end.

Definition removed_nullable (rooms : gmap string (list string))
    (roomId : string) (username : option string)
    : gmap string (list string) :=
  match username with
  | Some n => removed rooms roomId n
  | None =>
      match rooms !! roomId with
      | Some [] => delete roomId rooms
      | _ => rooms
      end
  end.

(** The names of the [Set] the registry holds for [roomId], none when it
    holds no [Set] there. *)
Definition names (rooms : gmap string (list string)) (roomId : string)
    : list string :=
  match rooms !! roomId with
  | Some s => s
  | None => []
  end.

(** One call on the registry. *)
Inductive op :=
| Add (roomId username : string)
| Remove (roomId username : string).

(** The registry after one call; a call that throws leaves it as it
    was. *)
Definition apply (rooms : gmap string (list string)) (o : op)
    : gmap string (list string) :=
  match o with
  | Add r n =>
      match addParticipant rooms r n with
      | inr rooms' => rooms'
      | inl _ => rooms
      end
  | Remove r n =>
      match removeParticipant rooms r n with
      | inr rooms' => rooms'
      | inl _ => rooms
      end
  end.

(** The registry after a sequence of calls, oldest first. *)
Definition run (ops : list op) (rooms : gmap string (list string))
    : gmap string (list string) :=
  fold_left apply ops rooms.

(** [username] has joined [roomId] in [ops] and has not left it since:
    some call [Add roomId username] is followed by no
    [Remove roomId username]. *)
Definition joined_not_left (ops : list op) (roomId username : string)
    : Prop :=
  ∃ before after,
    ops = before ++ Add roomId username :: after
    ∧ Remove roomId username ∉ after.

(** No room is present with an empty participant set. *)
Definition no_empty_room (rooms : gmap string (list string)) : Prop :=
  ∀ r, rooms !! r ≠ Some [].

(** Every participant set lists a name once. *)
Definition sets_nodup (rooms : gmap string (list string)) : Prop :=
  ∀ r s, rooms !! r = Some s → NoDup s.

End Registry.

(** ** The message store: table [messages] *)

Module Store.

(** A row of [messages]; also the message object the handlers build. *)
Record row := {
  id : string;
  room_id : string;
  username : string;
  content : string;
  type : string;
  filename : option string;
  mime : option string;
  created_at : Z
}.

Global Instance row_eq_dec : EqDecision row.
Proof. solve_decision. Defined.

(** The constraint of [id TEXT PRIMARY KEY] (and of the unique index
    [idx_messages_id]): no two rows share an id. *)
Definition store_wf (db : list row) : Prop := NoDup (id <$> db).

(** The row [storeMessage(msg)] binds to the INSERT statement:
    [type: msg.type || 'text'], [filename: msg.filename || null],
    [mime: msg.mime || null], [created_at: msg.created_at || Date.now()];
    [now] is the value [Date.now()] has inside [storeMessage]. *)
Definition bound_row (msg : row) (now : Z) : row :=
  {| id := id msg;
     room_id := room_id msg;
     username := username msg;
     content := content msg;
     type := if String.eqb (type msg) "" then "text" else type msg;
     filename := Js.or_null (filename msg);
     mime := Js.or_null (mime msg);
     created_at := if (created_at msg =? 0)%Z then now else created_at msg |}.

(** [function storeMessage(msg)]: [stmt.run] throws when the storage layer
    fails ([fault] carries its message) or when the id is already a key of
    the table; otherwise the row is appended. *)
Definition storeMessage (db : list row) (msg : row) (now : Z)
    (fault : option string) : string + list row :=
  let r := bound_row msg now in
  match fault with
  | Some e => inl e
  | None =>
      if bool_decide (id r ∈ id <$> db)
      then inl "UNIQUE constraint failed: messages.id"
      else inr (db ++ [r])
  end.

(** Insertion of a row into the entries of one room of the index
    [idx_messages_room_created ON messages(room_id, created_at DESC)]:
    entries are kept by [created_at] descending and, for equal
    [created_at], by rowid ascending; the row inserted has the largest
    rowid so far, so it goes behind every entry that is not older. *)
Fixpoint index_insert (r : row) (idx : list row) : list row :=
  match idx with
  | [] => [r]
  | x :: idx' =>
      if (created_at x <? created_at r)%Z then r :: idx
      else x :: index_insert r idx'
  end.

(** The entries of [roomId] in the index, in index order. *)
Definition room_index (db : list row) (roomId : string) : list row :=
  fold_left (λ idx r, index_insert r idx)
            (filter (λ r, room_id r = roomId) db) [].

(** [SELECT ... FROM messages WHERE room_id = ? ORDER BY created_at DESC
    LIMIT ?]: a forward scan of the room's index entries, cut at
    [limit]. *)
Definition select_recent (db : list row) (roomId : string) (limit : nat)
    : list row :=
  take limit (room_index db roomId).

(** [function getRecentMessages(roomId, limit = 50)]:
    [rows = stmt.all(roomId, limit); return rows.reverse()].
    [limit] is a row count; [None] is an omitted argument. *)
Definition getRecentMessages (db : list row) (roomId : string)
    (limit : option nat) : list row :=
  let limit := default 50%nat limit in
  let rows := select_recent db roomId limit in
  reverse rows.

(** [a] is listed no later than [b] in newest-first order. *)
Definition newer_or_equal : relation row :=
  λ a b, (created_at b ≤ created_at a)%Z.

(** [a] is listed no later than [b] in oldest-first order. *)
Definition older_or_equal : relation row :=
  λ a b, (created_at a ≤ created_at b)%Z.

(** What the SQL text alone asks of the rows a
    [... WHERE room_id = ? ORDER BY created_at DESC] returns before the
    cut: the rows of the room, newest first, rows of equal [created_at] in
    any order. *)
Definition newest_first (db : list row) (roomId : string)
    (rows : list row) : Prop :=
  rows ≡ₚ filter (λ r, room_id r = roomId) db
  ∧ StronglySorted newer_or_equal rows.

(** [a] comes before [b] in the sequence [l]. *)
Definition listed_before (l : list row) (a b : row) : Prop :=
  [a; b] `sublist_of` l.

(** [a] was inserted before [b]: it has the smaller rowid. *)
Definition inserted_before (db : list row) (a b : row) : Prop :=
  listed_before db a b.

(** Rows of equal [created_at] are in [idx] in the order they have in
    [rows]. *)
Definition ties_in_order (rows idx : list row) : Prop :=
  ∀ a b, created_at a = created_at b →
         listed_before rows a b → listed_before idx a b.

End Store.

(** ** The session router: [io.on('connection', (socket) => ...)] *)

Module Relay.

(** Per-connection state: [socket.data] and [socket.rooms], a [Set] kept
    as its members in insertion order. *)
Record socket := {
  data_username : option string;
  data_roomId : option string;
  socket_rooms : list string
}.

(** Outbound events with their payloads; [participants] is what
    [listParticipants] returned. *)
Inductive event :=
| Joined (roomId : string) (participants : list (option string))
| UserJoined (username : string) (participants : list (option string))
| ChatMessage (id username text : string) (timestamp : Z) (type : string)
              (filename mime : option string)
| FileShared (id username url : string) (filename : option string) (ts : Z)
| Typing (username : string)
| StopTyping (username : string)
| Participants (participants : list (option string))
| UserLeft (username : option string) (participants : list (option string))
| ErrorMessage (message : string).

(** The argument of an acknowledgment callback. *)
Inductive ack_reply :=
| AckOk (id : string)
| AckError (error : string).

(** What a handler does to the shared resources and to the transport. *)
Inductive effect :=
| RegistryAdd (roomId username : string)
| RegistryRemove (roomId : string) (username : option string)
| StoreWrite (r : Store.row)
| Emit (to : gset string) (e : event)
| Ack (sid : string) (a : ack_reply).

Record world := {
  db : list Store.row;
  rooms : gmap string (list string);
  sockets : gmap string socket;
  log : list effect
}.

Definition initial : world :=
  {| db := []; rooms := ∅; sockets := ∅; log := [] |}.

(** Values the platform hands to one run of a handler. *)
Record env := {
  random36 : string;           (* Math.random().toString(36) *)
  uuid : string;               (* uuidv4() *)
  now : Z;                     (* Date.now() in the handler *)
  store_now : Z;               (* Date.now() in storeMessage *)
  store_fault : option string  (* message of a storage-layer failure *)
}.

Definition with_db (f : list Store.row → list Store.row) (w : world) :=
  {| db := f (db w); rooms := rooms w; sockets := sockets w; log := log w |}.
Definition with_rooms
    (f : gmap string (list string) → gmap string (list string))
    (w : world) :=
  {| db := db w; rooms := f (rooms w); sockets := sockets w; log := log w |}.
Definition with_sockets
    (f : gmap string socket → gmap string socket) (w : world) :=
  {| db := db w; rooms := rooms w; sockets := f (sockets w); log := log w |}.
Definition with_log (f : list effect → list effect) (w : world) :=
  {| db := db w; rooms := rooms w; sockets := sockets w; log := f (log w) |}.

(** *** The handler monad: state, plus exceptions carrying their message *)

Inductive outcome (A : Type) :=
| Normal (a : A)
| Thrown (err : string).
Global Arguments Normal {A} a.
Global Arguments Thrown {A} err.

Definition M (A : Type) : Type := world → outcome A * world.

Global Instance M_ret : MRet M := λ A a w, (Normal a, w).
Global Instance M_bind : MBind M := λ A B k m w,
  match m w with
  | (Normal a, w') => k a w'
  | (Thrown err, w') => (Thrown err, w')
  end.

Definition throw {A} (err : string) : M A := λ w, (Thrown err, w).

(** [try { body } catch (err) { handler }]. *)
Definition try_catch {A} (body : M A) (handler : string → M A) : M A :=
  λ w, match body w with
       | (Normal a, w') => (Normal a, w')
       | (Thrown err, w') => handler err w'
       end.

Definition gets {A} (f : world → A) : M A := λ w, (Normal (f w), w).
Definition modify (f : world → world) : M unit := λ w, (Normal tt, f w).
Definition perform (e : effect) : M unit := modify (with_log (λ l, l ++ [e])).

Fixpoint forEach {A} (l : list A) (f : A → M unit) : M unit :=
  match l with
  | [] => mret tt
  | x :: l' => f x ;; forEach l' f
  end.

(** *** Transport primitives *)

(** The connections currently in the transport-level room [room]. *)
Definition members (socks : gmap string socket) (room : string)
    : gset string :=
  dom (filter (λ kv : string * socket, room ∈ socket_rooms kv.2) socks).

Definition fresh_socket (sid : string) : socket :=
  {| data_username := None; data_roomId := None; socket_rooms := [sid] |}.

(** [socket.join(room)]. *)
Definition socket_join (sid room : string) : M unit :=
  modify (with_sockets (alter (λ s,
    {| data_username := data_username s; data_roomId := data_roomId s;
       socket_rooms := Registry.set_add room (socket_rooms s) |}) sid)).

(** [socket.leave(room)]. *)
Definition socket_leave (sid room : string) : M unit :=
  modify (with_sockets (alter (λ s,
    {| data_username := data_username s; data_roomId := data_roomId s;
       socket_rooms := Registry.set_delete room (socket_rooms s) |}) sid)).

(** [socket.data.roomId = roomId; socket.data.username = name]. *)
Definition set_data (sid roomId name : string) : M unit :=
  modify (with_sockets (alter (λ s,
    {| data_username := Some name; data_roomId := Some roomId;
       socket_rooms := socket_rooms s |}) sid)).

Definition username_of (socks : gmap string socket) (sid : string)
    : option string :=
  match socks !! sid with Some s => data_username s | None => None end.

Definition roomId_of (socks : gmap string socket) (sid : string)
    : option string :=
  match socks !! sid with Some s => data_roomId s | None => None end.

(** [socket.data.username]. *)
Definition get_username (sid : string) : M (option string) :=
  gets (λ w, username_of (sockets w) sid).

(** [socket.data.roomId]. *)
Definition get_roomId (sid : string) : M (option string) :=
  gets (λ w, roomId_of (sockets w) sid).

(** [socket.rooms], in the order [for (const r of socket.rooms)] visits
    it. *)
Definition get_rooms (sid : string) : M (list string) :=
  gets (λ w, from_option socket_rooms [] (sockets w !! sid)).

(** [socket.emit(ev, payload)]: to the requesting connection only. *)
Definition socket_emit (sid : string) (e : event) : M unit :=
  perform (Emit {[sid]} e).

(** [socket.to(room).emit(ev, payload)]: to the others in the room. *)
Definition socket_to_emit (sid room : string) (e : event) : M unit :=
  socks ← gets sockets ;
  perform (Emit (members socks room ∖ {[sid]}) e).

(** [io.to(room).emit(ev, payload)]: to the entire room. *)
Definition io_to_emit (room : string) (e : event) : M unit :=
  socks ← gets sockets ;
  perform (Emit (members socks room) e).

(** [if (typeof ack === 'function') ack(reply)]. *)
Definition ack_if_function (sid : string) (ack : bool) (a : ack_reply)
    : M unit :=
  if ack then perform (Ack sid a) else mret tt.

(** *** The helpers of server.js, run on the world *)

Definition storeMessage (msg : Store.row) (e : env) : M unit :=
  d ← gets db ;
  match Store.storeMessage d msg (store_now e) (store_fault e) with
  | inl err => throw err
  | inr d' =>
      modify (with_db (λ _, d')) ;;
      perform (StoreWrite (Store.bound_row msg (store_now e)))
  end.

(** [getRecentMessages(roomId, limit)]: the query throws when the storage
    layer fails. *)
Definition getRecentMessages (roomId : string) (limit : option nat)
    (e : env) : M (list Store.row) :=
  match store_fault e with
  | Some err => throw err
  | None => gets (λ w, Store.getRecentMessages (db w) roomId limit)
  end.

Definition addParticipant (roomId username : string) : M unit :=
  reg ← gets rooms ;
  match Registry.addParticipant reg roomId username with
  | inl err => throw err
  | inr reg' =>
      modify (with_rooms (λ _, reg')) ;;
      perform (RegistryAdd roomId username)
  end.

Definition removeParticipant (roomId : string) (username : option string)
    : M unit :=
  reg ← gets rooms ;
  match Registry.removeParticipant_nullable reg roomId username with
  | inl err => throw err
  | inr reg' =>
      modify (with_rooms (λ _, reg')) ;;
      perform (RegistryRemove roomId username)
  end.

Definition listParticipants (roomId : string) : M (list (option string)) :=
  gets (λ w, Registry.listParticipants (rooms w) roomId).

(** *** Inbound payloads *)

Record join_payload := {
  join_roomId : option string;
  join_username : option string
}.

Record send_payload := {
  send_roomId : option string;
  send_text : option string;
  send_username : option string;
  send_type : option string;
  send_filename : option string;
  send_mime : option string
}.

Record room_payload := { room_roomId : option string }.

Record leave_payload := {
  leave_roomId : option string;
  leave_username : option string
}.

Record file_payload := {
  file_roomId : option string;
  file_username : option string;
  file_url : option string;
  file_filename : option string;
  file_mime : option string
}.

(** The empty object [{}] at each payload type. *)
Definition no_send : send_payload :=
  {| send_roomId := None; send_text := None; send_username := None;
     send_type := None; send_filename := None; send_mime := None |}.
Definition no_room : room_payload := {| room_roomId := None |}.
Definition no_leave : leave_payload :=
  {| leave_roomId := None; leave_username := None |}.
Definition no_file : file_payload :=
  {| file_roomId := None; file_username := None; file_url := None;
     file_filename := None; file_mime := None |}.

(** *** The handlers *)

(** The envelope both history replay and live broadcast use. *)
Definition chat_message_of (m : Store.row) : event :=
  ChatMessage (Store.id m) (Store.username m) (Store.content m)
              (Store.created_at m) (Store.type m)
              (Store.filename m) (Store.mime m).

(** [const messageData = { id: 'msg-' + uuidv4(), room_id: roomId,
    username, content: text, type: msg.type || 'text',
    filename: msg.filename || null, mime: msg.mime || null,
    created_at: Date.now() }]. *)
Definition messageData (roomId username text : string) (msg : send_payload)
    (e : env) : Store.row :=
  {| Store.id := "msg-" +:+ uuid e;
     Store.room_id := roomId;
     Store.username := username;
     Store.content := text;
     Store.type := Js.or_lit (send_type msg) "text";
     Store.filename := Js.or_null (send_filename msg);
     Store.mime := Js.or_null (send_mime msg);
     Store.created_at := now e |}.

(** [const fileData = { id: 'file-' + uuidv4(), room_id: roomId, username,
    content: fileMsg.url, type: 'file', filename: fileMsg.filename || null,
    mime: fileMsg.mime || null, created_at: Date.now() }]. *)
Definition fileData (roomId username url : string) (fileMsg : file_payload)
    (e : env) : Store.row :=
  {| Store.id := "file-" +:+ uuid e;
     Store.room_id := roomId;
     Store.username := username;
     Store.content := url;
     Store.type := "file";
     Store.filename := Js.or_null (file_filename fileMsg);
     Store.mime := Js.or_null (file_mime fileMsg);
     Store.created_at := now e |}.

(** ['room-' + Math.random().toString(36).slice(2, 9).toUpperCase()]. *)
Definition mint_room_id (e : env) : string :=
  "room-" +:+ Js.toUpperCase (Js.slice 2 9 (random36 e)).

(** [(username && String(username).slice(0, 48)) || 'Anonymous']. *)
Definition sanitize_username (username : option string) : string :=
  Js.or_lit
    (if Js.truthy username then Js.slice 0 48 <$> username else username)
    "Anonymous".

(** [socket.on('join-room', ({ roomId, username }) => { try {...} catch
    ... })].  The parameter is destructured before the [try]: an event
    without a payload ([None]) throws out of the listener.  A [null]
    payload does the same, with [null] for [undefined] in the message of
    the [TypeError]. *)
Definition on_join_room (sid : string) (payload : option join_payload)
    (e : env) : M unit :=
  match payload with
  | None =>
      throw ("Cannot destructure property 'roomId' of 'undefined' "
             +:+ "as it is undefined.")
  | Some p =>
      try_catch
        (let roomId := Js.or_lit (join_roomId p) (mint_room_id e) in
         let name := sanitize_username (join_username p) in
         socket_join sid roomId ;;
         set_data sid roomId name ;;
         addParticipant roomId name ;;
         participants ← listParticipants roomId ;
         socket_emit sid (Joined roomId participants) ;;
         socket_to_emit sid roomId (UserJoined name participants) ;;
         history ← getRecentMessages roomId (Some 50%nat) e ;
         if (0 <? length history)%nat
         then forEach history (λ m, socket_emit sid (chat_message_of m))
         else mret tt)
        (λ err,
           socket_emit sid (ErrorMessage ("join-room failed: " +:+ err)))
  end.

(** [function handleIncomingMessage(socket, msg = {}, ack)].  The inner
    [try] yields [true] when [storeMessage] returned; its [catch] ends
    with [return], rendered as [false]: nothing after it runs. *)
Definition handleIncomingMessage (sid : string) (msg : send_payload)
    (ack : bool) (e : env) : M unit :=
  try_catch
    (data_room ← get_roomId sid ;
     data_name ← get_username sid ;
     let roomId := Js.or (send_roomId msg) data_room in
     let text := Js.trim (Js.or_lit (send_text msg) "") in
     let username :=
       Js.or_lit (Js.or (send_username msg) data_name) "Anonymous" in
     if negb (Js.truthy roomId) || String.eqb text ""
     then ack_if_function sid ack (AckError "Invalid payload")
     else
       let roomId := default "" roomId in
       let messageData := messageData roomId username text msg e in
       stored ←
         try_catch
           (storeMessage messageData e ;; mret true)
           (λ dbErr,
              ack_if_function sid ack (AckError dbErr) ;;
              socket_emit sid (ErrorMessage ("Store failed: " +:+ dbErr)) ;;
              mret false) ;
       if stored : bool
       then
         io_to_emit roomId (chat_message_of messageData) ;;
         ack_if_function sid ack (AckOk (Store.id messageData))
       else mret tt)
    (λ err,
       ack_if_function sid ack (AckError err) ;;
       socket_emit sid (ErrorMessage ("Send failed: " +:+ err))).

(** [socket.on('chat-message', (payload, ack) =>
    handleIncomingMessage(socket, payload || {}, ack))]; the listener of
    ['message'] is the same. *)
Definition on_chat_message (sid : string) (payload : option send_payload)
    (ack : bool) (e : env) : M unit :=
  handleIncomingMessage sid (default no_send payload) ack e.

(** The [TypeError] of a parameter pattern [{ roomId, ... } = {}] that is
    given [null]: the default does not apply and [null] cannot be
    destructured. *)
Definition cannot_destructure_null : string :=
  "Cannot destructure property 'roomId' of 'object null' as it is null.".

(** [socket.on('typing', ({ roomId } = {}) => ...)]. *)
Definition on_typing (sid : string) (payload : Js.arg room_payload)
    : M unit :=
  match Js.default_param no_room payload with
  | None => throw cannot_destructure_null
  | Some p =>
      data_room ← get_roomId sid ;
      data_name ← get_username sid ;
      let r := Js.or (room_roomId p) data_room in
      let username := Js.or_lit data_name "Someone" in
      if Js.truthy r
      then socket_to_emit sid (default "" r) (Typing username)
      else mret tt
  end.

(** [socket.on('stop-typing', ({ roomId } = {}) => ...)]. *)
Definition on_stop_typing (sid : string) (payload : Js.arg room_payload)
    : M unit :=
  match Js.default_param no_room payload with
  | None => throw cannot_destructure_null
  | Some p =>
      data_room ← get_roomId sid ;
      data_name ← get_username sid ;
      let r := Js.or (room_roomId p) data_room in
      let username := Js.or_lit data_name "Someone" in
      if Js.truthy r
      then socket_to_emit sid (default "" r) (StopTyping username)
      else mret tt
  end.

(** [socket.on('end-session', ({ roomId, username } = {}) => ...)]: a
    [null] payload throws in the parameter pattern, before the [try]; the
    [catch] only writes to the console. *)
Definition on_end_session (sid : string) (payload : Js.arg leave_payload)
    : M unit :=
  match Js.default_param no_leave payload with
  | None => throw cannot_destructure_null
  | Some p =>
      try_catch
        (data_room ← get_roomId sid ;
         data_name ← get_username sid ;
         let r := Js.or (leave_roomId p) data_room in
         let name := Js.or (leave_username p) data_name in
         if Js.truthy r && Js.truthy name
         then
           let r := default "" r in
           socket_leave sid r ;;
           removeParticipant r name ;;
           participants ← listParticipants r ;
           io_to_emit r (Participants participants) ;;
           io_to_emit r (UserLeft name participants)
         else mret tt)
        (λ _, mret tt)
  end.

(** [socket.on('file', (fileMsg = {}) => ...)]: with [null] for
    [fileMsg] the first statement of the [try], which reads
    [fileMsg.roomId], throws. *)
Definition on_file (sid : string) (payload : Js.arg file_payload)
    (e : env) : M unit :=
  try_catch
    (match Js.default_param no_file payload with
     | None => throw "Cannot read properties of null (reading 'roomId')"
     | Some fileMsg =>
         data_room ← get_roomId sid ;
         data_name ← get_username sid ;
         let roomId := Js.or (file_roomId fileMsg) data_room in
         let username :=
           Js.or_lit (Js.or (file_username fileMsg) data_name)
                     "Anonymous" in
         if negb (Js.truthy roomId) || negb (Js.truthy (file_url fileMsg))
         then socket_emit sid (ErrorMessage "Invalid file payload")
         else
           let roomId := default "" roomId in
           let url := default "" (file_url fileMsg) in
           let fileData := fileData roomId username url fileMsg e in
           storeMessage fileData e ;;
           io_to_emit roomId
             (FileShared (Store.id fileData) (Store.username fileData) url
                         (file_filename fileMsg)
                         (Store.created_at fileData))
     end)
    (λ err,
       socket_emit sid (ErrorMessage ("File send failed: " +:+ err))).

(** [socket.on('disconnecting', () => ...)]: every room of the socket but
    its own, in the order of [socket.rooms]; nothing catches what
    [removeParticipant] throws. *)
Definition on_disconnecting (sid : string) : M unit :=
  name ← get_username sid ;
  socket_rooms ← get_rooms sid ;
  forEach socket_rooms (λ r,
    if bool_decide (r = sid) then mret tt
    else
      removeParticipant r name ;;
      participants ← listParticipants r ;
      socket_to_emit sid r (UserLeft name participants)).

(** [io.on('connection', (socket) => { socket.data.username = null;
    socket.data.roomId = null; ... })]. *)
Definition on_connection (sid : string) : M unit :=
  modify (with_sockets (insert sid (fresh_socket sid))).

(** *** Inbound events and the event loop *)

(** An inbound event with its first argument.  The listeners of
    [join-room], [chat-message] and [message] treat [undefined] and [null]
    alike ([None]); those whose parameter has a default tell them apart. *)
Inductive inbound :=
| Connection
| JoinRoom (payload : option join_payload)
| ChatMessageIn (payload : option send_payload) (ack : bool)
| MessageIn (payload : option send_payload) (ack : bool)
| TypingIn (payload : Js.arg room_payload)
| StopTypingIn (payload : Js.arg room_payload)
| EndSession (payload : Js.arg leave_payload)
| FileIn (payload : Js.arg file_payload)
| Disconnect.

(** The listener run for an event of connection [sid]; after
    [disconnecting] has returned the transport drops the connection.  An
    exception that escapes a listener ends the handling of the event: what
    would have followed does not run. *)
Definition handle (sid : string) (ev : inbound) (e : env) : M unit :=
  match ev with
  | Connection => on_connection sid
  | JoinRoom p => on_join_room sid p e
  | ChatMessageIn p ack => on_chat_message sid p ack e
  | MessageIn p ack => on_chat_message sid p ack e
  | TypingIn p => on_typing sid p
  | StopTypingIn p => on_stop_typing sid p
  | EndSession p => on_end_session sid p
  | FileIn p => on_file sid p e
  | Disconnect =>
      on_disconnecting sid ;; modify (with_sockets (delete sid))
  end.

(** One event of the single processing stream: the world the listener
    leaves behind, whether it returned or threw. *)
Definition step (w : world) (x : string * inbound * env) : world :=
  let '(sid, ev, e) := x in (handle sid ev e w).2.

Definition run (evs : list (string * inbound * env)) (w : world) : world :=
  fold_left step evs w.

(** The effects a computation adds to the log of [w]. *)
Definition effects_of {A} (m : M A) (w : world) : list effect :=
  drop (length (log w)) (log (m w).2).

(** What connection [sid] receives from a sequence of effects. *)
Definition inbox (sid : string) (l : list effect) : list event :=
  omap (λ x, match x with
             | Emit to e => if bool_decide (sid ∈ to) then Some e else None
             | _ => None
             end) l.

(** The rows a sequence of effects writes to the store. *)
Definition writes (l : list effect) : list Store.row :=
  omap (λ x, match x with StoreWrite r => Some r | _ => None end) l.

(** The values [handleIncomingMessage] resolves for connection [sid] in
    world [w]: [msg.roomId || socket.data.roomId],
    [(msg.text || '').toString().trim()],
    [msg.username || socket.data.username || 'Anonymous'], and the
    [messageData] built from them. *)
Definition send_room (w : world) (sid : string) (msg : send_payload)
    : option string :=
  Js.or (send_roomId msg) (roomId_of (sockets w) sid).

Definition send_trimmed (msg : send_payload) : string :=
  Js.trim (Js.or_lit (send_text msg) "").

Definition send_name (w : world) (sid : string) (msg : send_payload)
    : string :=
  Js.or_lit (Js.or (send_username msg) (username_of (sockets w) sid))
            "Anonymous".

Definition send_message (w : world) (sid : string) (msg : send_payload)
    (e : env) : Store.row :=
  messageData (default "" (send_room w sid msg)) (send_name w sid msg)
              (send_trimmed msg) msg e.

(** The values the [end-session] listener resolves:
    [roomId || socket.data.roomId] and [username || socket.data.username]. *)
Definition leave_room (w : world) (sid : string) (p : leave_payload)
    : option string :=
  Js.or (leave_roomId p) (roomId_of (sockets w) sid).

Definition leave_name (w : world) (sid : string) (p : leave_payload)
    : option string :=
  Js.or (leave_username p) (username_of (sockets w) sid).

(** The value [created_at] has in the row [storeMessage] writes when the
    handler read [now e] and [storeMessage] read [store_now e]. *)
Definition server_clock (e : env) : Z :=
  if (now e =? 0)%Z then store_now e else now e.

(** The connection table after [socket.join(roomId)] and the two writes
    to [socket.data] of the [join-room] listener. *)
Definition joined_sockets (sid roomId name : string)
    (socks : gmap string socket) : gmap string socket :=
  alter (λ s, {| data_username := Some name; data_roomId := Some roomId;
                 socket_rooms := socket_rooms s |}) sid
    (alter (λ s, {| data_username := data_username s;
                    data_roomId := data_roomId s;
                    socket_rooms :=
                      Registry.set_add roomId (socket_rooms s) |})
           sid socks).

(** The connection table after [socket.leave(roomId)]. *)
Definition left_sockets (sid roomId : string)
    (socks : gmap string socket) : gmap string socket :=
  alter (λ s, {| data_username := data_username s;
                 data_roomId := data_roomId s;
                 socket_rooms :=
                   Registry.set_delete roomId (socket_rooms s) |})
        sid socks.

(** [m] accounts for its store writes: what it appends to the log extends
    the table by exactly the rows it logs as written, each of them
    satisfying [P], and the key constraint of the table is kept. *)
Definition tracked (P : Store.row → Prop) {A} (m : M A) : Prop :=
  ∀ w, ∃ l,
    log (m w).2 = log w ++ l
    ∧ db (m w).2 = db w ++ writes l
    ∧ Forall P (writes l)
    ∧ (Store.store_wf (db w) → Store.store_wf (db (m w).2)).

(** What the handlers promise of a row written while handling [ev] under
    [e]: its id is the prefix of the listener followed by the server's
    uuid, its [created_at] is the server's clock, and its type is the
    payload's type (['text'] when that is missing) for the send listeners,
    ['file'] for the file listener. *)
Definition written_by (ev : inbound) (e : env) (r : Store.row) : Prop :=
  Store.created_at r = server_clock e
  ∧ match ev with
    | ChatMessageIn p _ | MessageIn p _ =>
        Store.id r = "msg-" +:+ uuid e
        ∧ Store.type r = Js.or_lit (send_type (default no_send p)) "text"
    | FileIn _ =>
        Store.id r = "file-" +:+ uuid e ∧ Store.type r = "file"
    | _ => False
    end.

(** [m] keeps the invariant [I] of the world, whether it returns or
    throws. *)
Definition preserves (I : world → Prop) {A} (m : M A) : Prop :=
  ∀ w, I w → I (m w).2.

(** No room of the registry has an empty participant set, and no set lists
    a name twice. *)
Definition registry_ok (w : world) : Prop :=
  Registry.no_empty_room (rooms w) ∧ Registry.sets_nodup (rooms w).

Definition is_user_left (e : event) : bool :=
  match e with UserLeft _ _ => true | _ => false end.

(** The values the [file] listener resolves and the [fileData] built from
    them: [fileMsg.roomId || socket.data.roomId] and
    [fileMsg.username || socket.data.username || 'Anonymous']. *)
Definition file_room (w : world) (sid : string) (p : file_payload)
    : option string :=
  Js.or (file_roomId p) (roomId_of (sockets w) sid).

Definition file_name (w : world) (sid : string) (p : file_payload)
    : string :=
  Js.or_lit (Js.or (file_username p) (username_of (sockets w) sid))
            "Anonymous".

Definition file_message (w : world) (sid : string) (p : file_payload)
    (e : env) : Store.row :=
  fileData (default "" (file_room w sid p)) (file_name w sid p)
           (default "" (file_url p)) p e.

(** The values the typing listeners resolve: [roomId || socket.data.roomId]
    and [socket.data.username || 'Someone']. *)
Definition typing_room (w : world) (sid : string) (p : room_payload)
    : option string :=
  Js.or (room_roomId p) (roomId_of (sockets w) sid).

Definition typing_name (w : world) (sid : string) : string :=
  Js.or_lit (username_of (sockets w) sid) "Someone".

(** [socket.rooms] of connection [sid], in order and as a set. *)
Definition rooms_in_order (socks : gmap string socket) (sid : string)
    : list string :=
  from_option socket_rooms [] (socks !! sid).

Definition rooms_of (socks : gmap string socket) (sid : string)
    : gset string :=
  list_to_set (rooms_in_order socks sid).

(** The loop body of the [disconnecting] listener for room [r]. *)
Definition leave_on_disconnect (sid : string) (name : option string)
    (r : string) : M unit :=
  if bool_decide (r = sid) then mret tt
  else
    removeParticipant r name ;;
    participants ← listParticipants r ;
    socket_to_emit sid r (UserLeft name participants).

(** What the [disconnecting] listener of connection [sid] does, effect by
    effect: calls of [removeParticipant] with the connection's name and
    [user-left] notices carrying that name, none of them to [sid]. *)
Definition farewell (sid : string) (name : option string) (x : effect)
    : Prop :=
  match x with
  | RegistryRemove _ n => n = name
  | Emit to (UserLeft n _) => n = name ∧ sid ∉ to
  | _ => False
  end.

(** [m] returns normally from every world. *)
Definition never_throws {A} (m : M A) : Prop :=
  ∀ w, ∃ a, (m w).1 = Normal a.

End Relay.

(** ** The upload endpoint: [multer.diskStorage] and [POST /upload] *)

Module Upload.

(** Node's [path] module, as far as the [filename] callback uses it. *)
Record path_module := {
  extname : string → string;
  basename : string → string → string
}.

(** A character the class [[^a-z0-9\-_]] with the flags [gi] does not
    match: an ASCII letter of either case, a digit, [-] or [_]. *)
Definition is_name_char (c : ascii) : bool :=
  let n := N_of_ascii c in
  (((97 <=? n) && (n <=? 122)) || ((65 <=? n) && (n <=? 90))
   || ((48 <=? n) && (n <=? 57)) || (n =? 45) || (n =? 95))%N.

(** [.replace(/[^a-z0-9\-_]/gi, '_')]. *)
Fixpoint replace_unsafe (s : string) : string :=
  match s with
  | "" => ""
  | String c s' =>
      String (if is_name_char c then c else "_"%char) (replace_unsafe s')
  end.

(** [const ext] and [const base] of the [filename] callback;
    [originalname] is [file.originalname]. *)
Definition ext (path : path_module) (originalname : option string)
    : string :=
  extname path (Js.or_lit originalname "").

Definition base (path : path_module) (originalname : option string)
    : string :=
  Js.slice 0 80
    (replace_unsafe
       (basename path (Js.or_lit originalname "file") (ext path originalname))).

(** The name the callback passes to [cb]; [now] is [Date.now()] and [uuid]
    is [uuidv4()]. *)
Definition filename (path : path_module) (originalname : option string)
    (now : Z) (uuid : string) : string :=
  pretty now +:+ "-" +:+ Js.slice 0 8 uuid +:+ "-"
  +:+ base path originalname +:+ ext path originalname.

(** [req.file] as [upload.single('file')] leaves it: absent when the
    request carries no part named [file]. *)
Record file := {
  file_originalname : option string;
  file_filename : string
}.

Definition single (path : path_module) (part : option (option string))
    (now : Z) (uuid : string) : option file :=
  (λ originalname,
     {| file_originalname := originalname;
        file_filename := filename path originalname now uuid |}) <$> part.

Inductive response :=
| BadRequest (error : string)
| Uploaded (url : string) (filename : option string).

(** The handler of [app.post('/upload', ...)]: status 400 with an error,
    or status 200 with the url and the original name. *)
Definition post_upload (req_file : option file) : response :=
  match req_file with
  | None => BadRequest "No file uploaded"
  | Some f => Uploaded ("/uploads/" +:+ file_filename f) (file_originalname f)
  end.

Definition is_digit (c : ascii) : bool :=
  let n := N_of_ascii c in ((48 <=? n) && (n <=? 57))%N.

End Upload.

(** ** The schema migrations: [migrate-add-roomid.js], [migrate-add-type.js],
    [migrate-add-username.js] *)

Module Migration.

(** A column of the table [messages] as declared: name and type. *)
Record column := { col_name : string; col_type : string }.

(** The database file as the scripts see it: the columns of [messages] in
    declaration order, or [None] when the file has no such table. *)
Definition database := option (list column).

(** A row of [PRAGMA table_info(messages)]. *)
Record info := { cid : nat; name : string; type : string }.

(** [db.prepare("PRAGMA table_info(messages);").all()]: one row per
    column, none for a table that does not exist. *)
Definition table_info (d : database) : list info :=
  match d with
  | Some t =>
      imap (λ i c, {| cid := i; name := col_name c; type := col_type c |}) t
  | None => []
  end.

(** [cols.map(c => `${c.cid}:${c.name}:${c.type}`).join(', ')]. *)
Definition listing (cols : list info) : string :=
  Js.join ", "
    ((λ c, pretty (cid c) +:+ ":" +:+ name c +:+ ":" +:+ type c) <$> cols).

(** SQLite compares identifiers without regard to ASCII case. *)
Definition same_identifier (a b : string) : bool :=
  String.eqb (Js.toUpperCase a) (Js.toUpperCase b).

(** [db.prepare("ALTER TABLE messages ADD COLUMN <col> TEXT;").run()]:
    throws for a missing table and for a column name the table has
    already; otherwise the column is appended. *)
Definition add_column (d : database) (col : string) : string + database :=
  match d with
  | None => inl "no such table: messages"
  | Some t =>
      if existsb (λ c, same_identifier (col_name c) col) t
      then inl ("duplicate column name: " +:+ col)
      else inr (Some (t ++ [{| col_name := col; col_type := "TEXT" |}]))
  end.

(** A line the script prints. *)
Inductive line :=
| CurrentColumns (listing : string)
| AlreadyExists (col : string)
| Adding (col : string)
| ColumnsAfter (listing : string)
| Complete
| MigrationError (message : string).

(** A run of a script: exit status, lines printed, database left. *)
Record result := {
  exit_code : nat;
  console : list line;
  after : database
}.

(** The script that adds column [col]; the three scripts differ in the
    column name only. *)
Definition migrate (col : string) (d : database) : result :=
  let cols := table_info d in
  if existsb (λ c, String.eqb (name c) col) cols
  then {| exit_code := 0;
          console := [CurrentColumns (listing cols); AlreadyExists col];
          after := d |}
  else
    match add_column d col with
    | inl err =>
        {| exit_code := 2;
           console := [CurrentColumns (listing cols); Adding col;
                       MigrationError err];
           after := d |}
    | inr d' =>
        {| exit_code := 0;
           console := [CurrentColumns (listing cols); Adding col;
                       ColumnsAfter (listing (table_info d')); Complete];
           after := d' |}
    end.

Definition migrate_add_roomid : database → result := migrate "room_id".
Definition migrate_add_type : database → result := migrate "type".
Definition migrate_add_username : database → result := migrate "username".

(** The declared column names of a database. *)
Definition names (d : database) : list string :=
  col_name <$> default [] d.

End Migration.

(** ** The browser client: [public/app.js] *)

Module Client.

(** A child of [#messages]: a system line ([div.sys]: time stamp, text) or
    a chat line ([div.msg], with class [me] for an own message: time stamp,
    sender, text). *)
Inductive entry :=
| Sys (ts text : string)
| Msg (me : bool) (ts who text : string).

(** What the page reads from the platform during one event:
    [new Date().toLocaleString()], [new Date(t).toLocaleString()] and
    [Date.now()]. *)
Record env := {
  nowIso : string;
  toLocaleString : Z → string;
  date_now : Z
}.

(** What the page emits on its socket; [ChatOut] is emitted with an
    acknowledgment callback. *)
Inductive outbound :=
| JoinOut (roomId username : string)
| ChatOut (roomId text : string) (username : option string)
| StopTypingOut (roomId : string) (username : option string)
| DisconnectOut.

(** The variables of the script and the part of the document it reads and
    writes.  An element of the document is optional: [None] stands for an
    element the page does not have.  [controlsJoined] is the argument of
    the last [setControlsForJoined], which fixes the [disabled] flag of
    every control; [participantsLabel] holds the list the label shows. *)
Record page := {
  currentRoom : option string;
  myName : option string;
  lastSentAt : Z;
  shownMessages : gset string;
  messages : option (list entry);
  messageInput : option string;
  usernameInput : option string;
  roomInput : option string;
  controlsJoined : bool;
  participantsLabel : option (list (option string));
  typingIndicator : option string;
  sent : list outbound
}.

Definition set_currentRoom (x : option string) (p : page) : page :=
  {| currentRoom := x; myName := myName p; lastSentAt := lastSentAt p;
     shownMessages := shownMessages p; messages := messages p;
     messageInput := messageInput p; usernameInput := usernameInput p;
     roomInput := roomInput p; controlsJoined := controlsJoined p;
     participantsLabel := participantsLabel p;
     typingIndicator := typingIndicator p; sent := sent p |}.

Definition set_myName (x : option string) (p : page) : page :=
  {| currentRoom := currentRoom p; myName := x; lastSentAt := lastSentAt p;
     shownMessages := shownMessages p; messages := messages p;
     messageInput := messageInput p; usernameInput := usernameInput p;
     roomInput := roomInput p; controlsJoined := controlsJoined p;
     participantsLabel := participantsLabel p;
     typingIndicator := typingIndicator p; sent := sent p |}.

Definition set_lastSentAt (x : Z) (p : page) : page :=
  {| currentRoom := currentRoom p; myName := myName p; lastSentAt := x;
     shownMessages := shownMessages p; messages := messages p;
     messageInput := messageInput p; usernameInput := usernameInput p;
     roomInput := roomInput p; controlsJoined := controlsJoined p;
     participantsLabel := participantsLabel p;
     typingIndicator := typingIndicator p; sent := sent p |}.

Definition set_shownMessages (x : gset string) (p : page) : page :=
  {| currentRoom := currentRoom p; myName := myName p;
     lastSentAt := lastSentAt p; shownMessages := x; messages := messages p;
     messageInput := messageInput p; usernameInput := usernameInput p;
     roomInput := roomInput p; controlsJoined := controlsJoined p;
     participantsLabel := participantsLabel p;
     typingIndicator := typingIndicator p; sent := sent p |}.

Definition set_messages (x : option (list entry)) (p : page) : page :=
  {| currentRoom := currentRoom p; myName := myName p;
     lastSentAt := lastSentAt p; shownMessages := shownMessages p;
     messages := x; messageInput := messageInput p;
     usernameInput := usernameInput p; roomInput := roomInput p;
     controlsJoined := controlsJoined p;
     participantsLabel := participantsLabel p;
     typingIndicator := typingIndicator p; sent := sent p |}.

Definition set_messageInput (x : option string) (p : page) : page :=
  {| currentRoom := currentRoom p; myName := myName p;
     lastSentAt := lastSentAt p; shownMessages := shownMessages p;
     messages := messages p; messageInput := x;
     usernameInput := usernameInput p; roomInput := roomInput p;
     controlsJoined := controlsJoined p;
     participantsLabel := participantsLabel p;
     typingIndicator := typingIndicator p; sent := sent p |}.

Definition set_usernameInput (x : option string) (p : page) : page :=
  {| currentRoom := currentRoom p; myName := myName p;
     lastSentAt := lastSentAt p; shownMessages := shownMessages p;
     messages := messages p; messageInput := messageInput p;
     usernameInput := x; roomInput := roomInput p;
     controlsJoined := controlsJoined p;
     participantsLabel := participantsLabel p;
     typingIndicator := typingIndicator p; sent := sent p |}.

Definition set_roomInput (x : option string) (p : page) : page :=
  {| currentRoom := currentRoom p; myName := myName p;
     lastSentAt := lastSentAt p; shownMessages := shownMessages p;
     messages := messages p; messageInput := messageInput p;
     usernameInput := usernameInput p; roomInput := x;
     controlsJoined := controlsJoined p;
     participantsLabel := participantsLabel p;
     typingIndicator := typingIndicator p; sent := sent p |}.

Definition set_participantsLabel (x : option (list (option string)))
    (p : page)
    : page :=
  {| currentRoom := currentRoom p; myName := myName p;
     lastSentAt := lastSentAt p; shownMessages := shownMessages p;
     messages := messages p; messageInput := messageInput p;
     usernameInput := usernameInput p; roomInput := roomInput p;
     controlsJoined := controlsJoined p; participantsLabel := x;
     typingIndicator := typingIndicator p; sent := sent p |}.

Definition set_typingIndicator (x : option string) (p : page) : page :=
  {| currentRoom := currentRoom p; myName := myName p;
     lastSentAt := lastSentAt p; shownMessages := shownMessages p;
     messages := messages p; messageInput := messageInput p;
     usernameInput := usernameInput p; roomInput := roomInput p;
     controlsJoined := controlsJoined p;
     participantsLabel := participantsLabel p; typingIndicator := x;
     sent := sent p |}.

(** [socket.emit(...)] and [socket.disconnect()]. *)
Definition emit (x : outbound) (p : page) : page :=
  {| currentRoom := currentRoom p; myName := myName p;
     lastSentAt := lastSentAt p; shownMessages := shownMessages p;
     messages := messages p; messageInput := messageInput p;
     usernameInput := usernameInput p; roomInput := roomInput p;
     controlsJoined := controlsJoined p;
     participantsLabel := participantsLabel p;
     typingIndicator := typingIndicator p; sent := sent p ++ [x] |}.

Definition SEND_COOLDOWN_MS : Z := 300.
Definition MAX_MESSAGES : nat := 300.

(** [function pruneOldMessages()]: first children are removed while there
    are more than [MAX_MESSAGES]. *)
Definition prune (l : list entry) : list entry :=
  drop (length l - MAX_MESSAGES) l.

Definition pruneOldMessages (p : page) : page :=
  set_messages (prune <$> messages p) p.

(** [function appendSystem(msg)]. *)
Definition appendSystem (e : env) (msg : string) (p : page) : page :=
  match messages p with
  | None => p
  | Some l =>
      pruneOldMessages
        (set_messages (Some (l ++ [Sys ("[" +:+ nowIso e +:+ "] ") msg])) p)
  end.

(** [function appendMessage({id, username, text, timestamp, me})];
    [timestamp] is a number or a string. *)
Definition appendMessage (e : env) (id : option string)
    (username text : string) (timestamp : Z + string) (me : bool)
    (p : page) : page :=
  match messages p with
  | None => p
  | Some l =>
      let shown :=
        if Js.truthy id
        then if bool_decide (default "" id ∈ shownMessages p) then None
             else Some ({[default "" id]} ∪ shownMessages p)
        else Some (shownMessages p) in
      match shown with
      | None => p
      | Some shown' =>
          let ts := match timestamp with
                    | inl t => toLocaleString e t
                    | inr s => s
                    end in
          pruneOldMessages
            (set_messages
               (Some (l ++ [Msg me ("[" +:+ ts +:+ "] ") (username +:+ ": ")
                                text]))
               (set_shownMessages shown' p))
      end
  end.

(** [function setControlsForJoined(joined)]. *)
Definition setControlsForJoined (joined : bool) (p : page) : page :=
  {| currentRoom := currentRoom p; myName := myName p;
     lastSentAt := lastSentAt p; shownMessages := shownMessages p;
     messages := messages p; messageInput := messageInput p;
     usernameInput := usernameInput p; roomInput := roomInput p;
     controlsJoined := joined;
     participantsLabel := participantsLabel p;
     typingIndicator := typingIndicator p; sent := sent p |}.

(** [function showParticipants(list)]. *)
Definition showParticipants (l : list (option string)) (p : page)
    : page :=
  match participantsLabel p with
  | None => p
  | Some _ => set_participantsLabel (Some l) p
  end.

(** [function emitStopTyping()]. *)
Definition emitStopTyping (p : page) : page :=
  if Js.truthy (currentRoom p)
  then emit (StopTypingOut (default "" (currentRoom p)) (myName p)) p
  else p.

(** [(el && el.value) ? el.value.trim() : dflt]. *)
Definition trimmed_value (el : option string) (dflt : string) : string :=
  if Js.truthy el then Js.trim (default "" el) else dflt.

(** The click listener of the join button. *)
Definition on_join_click (e : env) (p : page) : page :=
  let username := trimmed_value (usernameInput p) "Anonymous" in
  let roomId := trimmed_value (roomInput p) "" in
  if String.eqb roomId ""
  then appendSystem e "Please enter a room ID before joining." p
  else
    setControlsForJoined true
      (emit (JoinOut roomId username)
         (appendSystem e ("Joining room " +:+ roomId +:+ "...")
            (set_myName (Some username) p))).

(** The click listener of the send button. *)
Definition on_send_click (e : env) (p : page) : page :=
  let text := trimmed_value (messageInput p) "" in
  if String.eqb text "" then p
  else if negb (Js.truthy (currentRoom p))
  then setControlsForJoined false
         (appendSystem e "You must join a room first" p)
  else
    let now := date_now e in
    if (now - lastSentAt p <? SEND_COOLDOWN_MS)%Z then p
    else
      let p1 := set_lastSentAt now p in
      let p2 := emit (ChatOut (default "" (currentRoom p1)) text (myName p1))
                     p1 in
      let p3 := match messageInput p2 with
                | Some _ => set_messageInput (Some "") p2
                | None => p2
                end in
      emitStopTyping p3.

(** The acknowledgment callback of a send. *)
Definition on_ack (e : env) (ack : Relay.ack_reply) (p : page) : page :=
  match ack with
  | Relay.AckOk _ => p
  | Relay.AckError error =>
      appendSystem e ("Send failed: " +:+ Js.or_lit (Some error) "unknown") p
  end.

(** The click listener of the disconnect button. *)
Definition on_disconnect_click (e : env) (p : page) : page :=
  setControlsForJoined false
    (appendSystem e "Disconnected from server" (emit DisconnectOut p)).

(** [socket.on("connect", ...)]. *)
Definition on_connect (e : env) (p : page) : page :=
  let p1 := appendSystem e "Connected to server" p in
  if Js.truthy (currentRoom p1) && Js.truthy (myName p1)
  then emit (JoinOut (default "" (currentRoom p1)) (default "" (myName p1)))
            (appendSystem e "Re-joining room after reconnect..." p1)
  else p1.

(** [socket.on("disconnect", ...)]. *)
Definition on_disconnect (e : env) (reason : string) (p : page) : page :=
  setControlsForJoined false
    (appendSystem e ("Socket disconnected (" +:+ reason +:+ ")") p).

(** [socket.on("connect_error", ...)]; [message] is the text the listener
    derives from the error. *)
Definition on_connect_error (e : env) (message : string) (p : page)
    : page :=
  setControlsForJoined false
    (appendSystem e ("Connection error: " +:+ message) p).

(** The listeners for the events the server emits. *)
Definition on_server (e : env) (ev : Relay.event) (p : page) : page :=
  match ev with
  | Relay.Joined roomId participants =>
      showParticipants participants
        (setControlsForJoined true
           (appendSystem e
              ("Joined " +:+ roomId +:+ ". Participants: "
               +:+ Js.join_nullable ", " participants)
              (set_currentRoom (Some roomId) p)))
  | Relay.UserJoined username participants =>
      showParticipants participants
        (appendSystem e (username +:+ " joined the room") p)
  | Relay.ChatMessage id username text timestamp _ _ _ =>
      appendMessage e (Js.or_null (Some id))
        (Js.or_lit (Some username) "Unknown") text
        (if (timestamp =? 0)%Z then inr (nowIso e) else inl timestamp)
        (bool_decide (myName p = Some username)) p
  | Relay.FileShared id username url filename ts =>
      appendMessage e (Js.or_null (Some id))
        (Js.or_lit (Some username) "Unknown")
        ("[file] " +:+ Js.or_lit filename url)
        (if (ts =? 0)%Z then inr (nowIso e) else inl ts)
        (bool_decide (myName p = Some username)) p
  | Relay.UserLeft username participants =>
      showParticipants participants
        (appendSystem e (default "null" username +:+ " left the room") p)
  | Relay.Typing username =>
      match typingIndicator p with
      | None => p
      | Some _ => set_typingIndicator (Some (username +:+ " is typing...")) p
      end
  | Relay.StopTyping _ =>
      match typingIndicator p with
      | None => p
      | Some _ => set_typingIndicator (Some "") p
      end
  | Relay.Participants participants => showParticipants participants p
  | Relay.ErrorMessage message => appendSystem e ("Server: " +:+ message) p
  end.

(** What happens to the page: an event from the server, an
    acknowledgment, a transport event, a click, or the user editing one of
    the text fields. *)
Inductive input :=
| FromServer (ev : Relay.event)
| Acked (ack : Relay.ack_reply)
| Connect
| Disconnected (reason : string)
| ConnectError (message : string)
| JoinClick
| SendClick
| DisconnectClick
| EditUsername (value : string)
| EditRoom (value : string)
| EditMessage (value : string).

Definition edit (el : option string) (value : string) : option string :=
  match el with Some _ => Some value | None => None end.

Definition step (p : page) (x : input * env) : page :=
  let '(i, e) := x in
  match i with
  | FromServer ev => on_server e ev p
  | Acked ack => on_ack e ack p
  | Connect => on_connect e p
  | Disconnected reason => on_disconnect e reason p
  | ConnectError message => on_connect_error e message p
  | JoinClick => on_join_click e p
  | SendClick => on_send_click e p
  | DisconnectClick => on_disconnect_click e p
  | EditUsername v => set_usernameInput (edit (usernameInput p) v) p
  | EditRoom v => set_roomInput (edit (roomInput p) v) p
  | EditMessage v => set_messageInput (edit (messageInput p) v) p
  end.

Definition run (xs : list (input * env)) (p : page) : page :=
  fold_left step xs p.

(** The page when the script has run: all elements present. *)
Definition loaded : page :=
  {| currentRoom := None; myName := None; lastSentAt := 0;
     shownMessages := ∅; messages := Some []; messageInput := Some "";
     usernameInput := Some ""; roomInput := Some "";
     controlsJoined := false; participantsLabel := Some [];
     typingIndicator := Some ""; sent := [] |}.

(** The payload the server's listener receives for a send of the page. *)
Definition chat_payload (roomId text : string) (username : option string)
    : Relay.send_payload :=
  {| Relay.send_roomId := Some roomId; Relay.send_text := Some text;
     Relay.send_username := username; Relay.send_type := None;
     Relay.send_filename := None; Relay.send_mime := None |}.

(** The id under which [appendMessage] records the message of an input:
    that of a [chat-message] or [file] event with a non-empty id. *)
Definition message_id (i : input) : option string :=
  match i with
  | FromServer (Relay.ChatMessage id _ _ _ _ _ _)
  | FromServer (Relay.FileShared id _ _ _ _) => Js.or_null (Some id)
  | _ => None
  end.

(** The message [id] is not displayed again: it is in the dedupe set, or
    the page has no message pane at all. *)
Definition seen (id : string) (p : page) : Prop :=
  messages p = None ∨ id ∈ shownMessages p.

(** No more than [MAX_MESSAGES] lines are in the message pane. *)
Definition pane_bounded (p : page) : Prop :=
  ∀ l, messages p = Some l → (length l ≤ MAX_MESSAGES)%nat.

End Client.

(** ** Scenarios used by the closed lemmas below *)

Module Scenario.
Import Relay.

Definition quiet_env : env :=
  {| random36 := "0.4fzyo82mvyr"; uuid := "u0"; now := 1700000000000%Z;
     store_now := 1700000000000%Z; store_fault := None |}.

Definition env_with (u : string) (t : Z) (fault : option string) : env :=
  {| random36 := "0.4fzyo82mvyr"; uuid := u; now := t; store_now := t;
     store_fault := fault |}.

Definition join_as (roomId username : string) : inbound :=
  JoinRoom (Some {| join_roomId := Some roomId;
                    join_username := Some username |}).

Definition say (roomId text : string) : send_payload :=
  {| send_roomId := Some roomId; send_text := Some text;
     send_username := None; send_type := None; send_filename := None;
     send_mime := None |}.

(** A send that names the kind [file] in its payload. *)
Definition share_in_message (roomId url filename : string) : send_payload :=
  {| send_roomId := Some roomId; send_text := Some url;
     send_username := None; send_type := Some "file";
     send_filename := Some filename; send_mime := None |}.

(** A [file] event for an uploaded picture. *)
Definition share (roomId url filename : string) : file_payload :=
  {| file_roomId := Some roomId; file_username := None; file_url := Some url;
     file_filename := Some filename; file_mime := Some "image/png" |}.

Definition leave_as (roomId username : string) : leave_payload :=
  {| leave_roomId := Some roomId; leave_username := Some username |}.

(** Connection A alone, not joined yet. *)
Definition one_connected : world :=
  step initial ("A", Connection, quiet_env).

(** [Math.random()] returns 0.5, whose base-36 numeral is [0.i]. *)
Definition half_env : env :=
  {| random36 := "0.i"; uuid := "u0"; now := 1700000000000%Z;
     store_now := 1700000000000%Z; store_fault := None |}.

(** A join that leaves the room id to the server. *)
Definition join_anywhere (username : string) : join_payload :=
  {| join_roomId := None; join_username := Some username |}.

(** Connections A and B, both joined to room-X as ann and bob. *)
Definition two_in_room : world :=
  run [("A", Connection, quiet_env);
       ("B", Connection, quiet_env);
       ("A", join_as "room-X" "ann", quiet_env);
       ("B", join_as "room-X" "bob", quiet_env)] initial.

(** The same room after ann has sent hello. *)
Definition after_hello : world :=
  step two_in_room
       ("A", ChatMessageIn (Some (say "room-X" "hello")) true,
        env_with "u1" 1700000000001%Z None).

(** After hello, a third connection C arrives, not joined yet. *)
Definition third_connected : world :=
  step after_hello ("C", Connection, quiet_env).

Definition cat_joins : join_payload :=
  {| join_roomId := Some "room-X"; join_username := Some "cat" |}.

(** The same room after A has ended its session once. *)
Definition after_leave : world :=
  step two_in_room
       ("A", EndSession (Js.Obj (leave_as "room-X" "ann")), quiet_env).

Definition row_at (i roomId text : string) (t : Z) : Store.row :=
  {| Store.id := i; Store.room_id := roomId; Store.username := "ann";
     Store.content := text; Store.type := "text"; Store.filename := None;
     Store.mime := None; Store.created_at := t |}.

(** Two messages of one room stored within the same millisecond. *)
Definition burst_first : Store.row :=
  row_at "msg-1" "room-X" "first" 1700000000000%Z.
Definition burst_second : Store.row :=
  row_at "msg-2" "room-X" "second" 1700000000000%Z.

(** Node's [path] on the one name uploaded below, [cat.png]. *)
Definition path_of_cat : Upload.path_module :=
  {| Upload.extname := λ _, ".png"; Upload.basename := λ _ _, "cat" |}.

(** A table [messages] created before the columns [room_id], [type] and
    [username] were introduced. *)
Definition legacy_table : Migration.database :=
  Some [ {| Migration.col_name := "id"; Migration.col_type := "TEXT" |};
         {| Migration.col_name := "content"; Migration.col_type := "TEXT" |};
         {| Migration.col_name := "created_at";
            Migration.col_type := "INTEGER" |} ].

(** ann is in room-X; connection B has not joined yet. *)
Definition ann_waits : world :=
  run [("A", Connection, quiet_env);
       ("B", Connection, quiet_env);
       ("A", join_as "room-X" "ann", quiet_env)] initial.

(** The platform of a browser whose clock shows [t]. *)
Definition browser (t : Z) : Client.env :=
  {| Client.nowIso := "11/14/2023, 10:13:20 PM";
     Client.toLocaleString := λ _, "11/14/2023, 10:13:20 PM";
     Client.date_now := t |}.

(** ann's page: joined to room-X, with a message typed. *)
Definition ann_page : Client.page :=
  Client.run
    [(Client.EditUsername "ann", browser 1700000000000);
     (Client.EditRoom "room-X", browser 1700000000000);
     (Client.JoinClick, browser 1700000000000);
     (Client.FromServer (Joined "room-X" [Some "ann"]), browser 1700000000000);
     (Client.EditMessage "  hello  ", browser 1700000000000)]
    Client.loaded.

End Scenario.

(** * Properties *)

(** ** Registry *)

Section registry_facts.
Import Registry.
Implicit Types (reg : gmap string (list string)) (r n : string).
Implicit Types (s : list string) (o : op) (ops : list op).

Lemma elem_of_set_add x n s : x ∈ set_add n s ↔ x = n ∨ x ∈ s.
Proof.
  unfold set_add. case_bool_decide as Hn.
  - split; [by right | by intros [->|]].
  - rewrite elem_of_app, list_elem_of_singleton. tauto.
Qed.

Lemma elem_of_set_delete x n s : x ∈ set_delete n s ↔ x ∈ s ∧ x ≠ n.
Proof. unfold set_delete. rewrite list_elem_of_filter. tauto. Qed.

Lemma set_add_nodup n s : NoDup s → NoDup (set_add n s).
Proof.
  intros Hs. unfold set_add. case_bool_decide as Hn; [done|].
  apply NoDup_app. split_and!; [done | | apply NoDup_singleton].
  intros x Hx ->%list_elem_of_singleton. done.
Qed.

Lemma set_delete_nodup n s : NoDup s → NoDup (set_delete n s).
Proof. apply NoDup_filter. Qed.

Lemma set_add_not_nil n s : set_add n s ≠ [].
Proof.
  unfold set_add. case_bool_decide as Hn.
  - intros ->. by apply not_elem_of_nil in Hn.
  - by destruct s.
Qed.

Lemma set_delete_idemp n s : set_delete n (set_delete n s) = set_delete n s.
Proof.
  unfold set_delete. induction s as [|y s IH]; [done|].
  rewrite filter_cons. case_decide as Hy; [|done].
  rewrite filter_cons. case_decide; [|done]. by rewrite IH.
Qed.

Lemma set_delete_not_member n s : n ∉ s → set_delete n s = s.
Proof.
  unfold set_delete. induction s as [|y s IH]; [done|].
  rewrite not_elem_of_cons. intros [Hy Hs].
  rewrite filter_cons_True by congruence. by rewrite IH.
Qed.

Lemma length_zero_nil {A} (l : list A) : (length l =? 0)%nat = true ↔ l = [].
Proof. destruct l; simpl; split; done. Qed.

Lemma names_added reg r n r' :
  names (added reg r n) r'
  = if decide (r = r') then set_add n (names reg r)
    else names reg r'.
Proof.
  unfold names, added. case_decide as Hr.
  - subst r'. rewrite lookup_insert_eq. by destruct (reg !! r).
  - by rewrite lookup_insert_ne.
Qed.

Lemma names_removed reg r n r' :
  names (removed reg r n) r'
  = if decide (r = r') then set_delete n (names reg r)
    else names reg r'.
Proof.
  unfold names, removed.
  destruct (reg !! r) as [s|] eqn:Hs; simpl.
  - destruct (length (set_delete n s) =? 0)%nat eqn:Hlen.
    + apply length_zero_nil in Hlen. case_decide as Hr.
      * subst r'. by rewrite lookup_delete_eq, Hlen.
      * by rewrite lookup_delete_ne.
    + case_decide as Hr.
      * subst r'. by rewrite lookup_insert_eq.
      * by rewrite lookup_insert_ne.
  - case_decide as Hr; [|done]. subst r'. by rewrite Hs.
Qed.

Lemma no_empty_room_empty : no_empty_room ∅.
Proof. intros r. by rewrite lookup_empty. Qed.

Lemma no_empty_room_added reg r n :
  no_empty_room reg → no_empty_room (added reg r n).
Proof.
  intros Hreg r'. unfold added.
  destruct (decide (r = r')) as [<-|Hr].
  - rewrite lookup_insert_eq. intros [=H]. by apply set_add_not_nil in H.
  - rewrite lookup_insert_ne by done. apply Hreg.
Qed.

Lemma no_empty_room_removed reg r n :
  no_empty_room reg → no_empty_room (removed reg r n).
Proof.
  intros Hreg r'. unfold removed.
  destruct (reg !! r) as [s|] eqn:Hs; [|apply Hreg].
  destruct (length (set_delete n s) =? 0)%nat eqn:Hlen.
  - destruct (decide (r = r')) as [<-|Hr].
    + by rewrite lookup_delete_eq.
    + rewrite lookup_delete_ne by done. apply Hreg.
  - destruct (decide (r = r')) as [<-|Hr].
    + rewrite lookup_insert_eq. intros [=H].
      apply length_zero_nil in H. congruence.
    + rewrite lookup_insert_ne by done. apply Hreg.
Qed.

Lemma no_empty_room_removed_nullable reg r name :
  no_empty_room reg → no_empty_room (removed_nullable reg r name).
Proof.
  intros Hreg. destruct name as [n|]; simpl.
  - by apply no_empty_room_removed.
  - destruct (reg !! r) as [[|]|] eqn:Hs; try done. by apply Hreg in Hs.
Qed.

Lemma sets_nodup_empty : sets_nodup ∅.
Proof. intros r s. by rewrite lookup_empty. Qed.

Lemma sets_nodup_added reg r n :
  sets_nodup reg → sets_nodup (added reg r n).
Proof.
  intros Hreg r' s. unfold added.
  destruct (decide (r = r')) as [<-|Hr].
  - rewrite lookup_insert_eq. intros [= <-]. apply set_add_nodup.
    destruct (reg !! r) as [s'|] eqn:Hs; simpl; [by eapply Hreg|].
    apply NoDup_nil_2.
  - rewrite lookup_insert_ne by done. apply Hreg.
Qed.

Lemma sets_nodup_removed reg r n :
  sets_nodup reg → sets_nodup (removed reg r n).
Proof.
  intros Hreg r' s. unfold removed.
  destruct (reg !! r) as [s0|] eqn:Hs; [|apply Hreg].
  destruct (length (set_delete n s0) =? 0)%nat.
  - destruct (decide (r = r')) as [<-|Hr].
    + by rewrite lookup_delete_eq.
    + rewrite lookup_delete_ne by done. apply Hreg.
  - destruct (decide (r = r')) as [<-|Hr].
    + rewrite lookup_insert_eq. intros [= <-].
      apply set_delete_nodup. by eapply Hreg.
    + rewrite lookup_insert_ne by done. apply Hreg.
Qed.

(** *** The functions of the code and the registry they leave *)

Lemma inherited_spec reg r :
  inherited reg r = true
  ↔ reg !! r = None ∧ is_Some (Js.object_prototype r).
Proof.
  unfold inherited, lookup.
  destruct (reg !! r) as [s|].
  { split; [done | by intros [[=] _]]. }
  destruct (Js.object_prototype r) as [m|].
  - split; [|done]. intros _. split; [done | by exists m].
  - split; [done | by intros [_ [m [=]]]].
Qed.

Lemma inherited_ordinary reg r :
  Js.object_prototype r = None → inherited reg r = false.
Proof.
  intros Hr. unfold inherited, lookup. rewrite Hr. by destruct (reg !! r).
Qed.

Lemma inherited_own reg r s : reg !! r = Some s → inherited reg r = false.
Proof. intros Hs. unfold inherited, lookup. by rewrite Hs. Qed.

Lemma addParticipant_eq reg r n :
  addParticipant reg r n
  = if inherited reg r then inl "rooms[roomId].add is not a function"
    else inr (added reg r n).
Proof.
  unfold addParticipant, inherited, lookup, added.
  destruct (reg !! r) as [s|]; [done|].
  by destruct (Js.object_prototype r).
Qed.

Lemma removeParticipant_nullable_eq reg r name :
  removeParticipant_nullable reg r name
  = if inherited reg r then inl "rooms[roomId].delete is not a function"
    else inr (removed_nullable reg r name).
Proof.
  unfold removeParticipant_nullable, inherited, lookup, removed_nullable,
    removed.
  destruct (reg !! r) as [s|] eqn:Hs.
  - destruct name as [n|]; [by destruct (length _ =? 0)%nat|].
    destruct s as [|x s]; simpl; [done|]. by rewrite insert_id.
  - destruct (Js.object_prototype r); [done|]. by destruct name.
Qed.

Lemma removeParticipant_eq reg r n :
  removeParticipant reg r n
  = if inherited reg r then inl "rooms[roomId].delete is not a function"
    else inr (removed reg r n).
Proof. apply removeParticipant_nullable_eq. Qed.

Lemma listParticipants_eq reg r :
  inherited reg r = false → listParticipants reg r = Some <$> names reg r.
Proof.
  unfold listParticipants, inherited, lookup, names.
  destruct (reg !! r) as [s|]; [done|].
  by destruct (Js.object_prototype r).
Qed.

Lemma listParticipants_inherited reg r :
  inherited reg r = true →
  ∃ m, Js.object_prototype r = Some m
       ∧ listParticipants reg r = Js.array_from m.
Proof.
  unfold listParticipants, inherited, lookup.
  destruct (reg !! r) as [s|]; [done|].
  destruct (Js.object_prototype r) as [m|]; [|done]. intros _. by exists m.
Qed.

Lemma apply_eq reg o :
  apply reg o
  = match o with
    | Add r n => if inherited reg r then reg else added reg r n
    | Remove r n => if inherited reg r then reg else removed reg r n
    end.
Proof.
  destruct o as [r n|r n]; simpl.
  - rewrite addParticipant_eq. by destruct (inherited reg r).
  - rewrite removeParticipant_eq. by destruct (inherited reg r).
Qed.

Lemma run_snoc ops o reg : run (ops ++ [o]) reg = apply (run ops reg) o.
Proof. unfold run. by rewrite fold_left_app. Qed.

Lemma run_invariants ops :
  no_empty_room (run ops ∅) ∧ sets_nodup (run ops ∅).
Proof.
  induction ops as [|o ops [IH1 IH2]] using rev_ind.
  - split; [apply no_empty_room_empty | apply sets_nodup_empty].
  - rewrite run_snoc, apply_eq.
    destruct o as [r n|r n]; destruct (inherited _ r); split;
      auto using no_empty_room_added, no_empty_room_removed,
                 sets_nodup_added, sets_nodup_removed.
Qed.

(** Membership after one more call, in a room whose id names no member of
    [Object.prototype]. *)
Lemma elem_of_apply reg o r n :
  Js.object_prototype r = None →
  n ∈ names (apply reg o) r
  ↔ o = Add r n ∨ (n ∈ names reg r ∧ o ≠ Remove r n).
Proof.
  intros Hord. rewrite apply_eq.
  destruct o as [r' n'|r' n'];
    destruct (inherited reg r') eqn:Hinh.
  - apply inherited_spec in Hinh as [_ [m Hm]].
    split; [intros Hn; right; split; [done|congruence] |].
    intros [[= -> ->]|[Hn _]]; [congruence | done].
  - rewrite names_added. case_decide as Hr.
    + subst r'. rewrite elem_of_set_add. split.
      * intros [->|Hn]; [by left | right; split; [done|congruence]].
      * intros [[= ->]|[Hn _]]; [by left | by right].
    + split.
      * intros Hn. right. split; [done|congruence].
      * intros [[=]|[Hn _]]; [congruence | done].
  - apply inherited_spec in Hinh as [_ [m Hm]].
    split; [intros Hn; right; split; [done|congruence] |].
    intros [[=]|[Hn _]]. done.
  - rewrite names_removed. case_decide as Hr.
    + subst r'. rewrite elem_of_set_delete. split.
      * intros [Hn Hne]. right. split; [done|congruence].
      * intros [[=]|[Hn Hne]]. split; [done|congruence].
    + split.
      * intros Hn. right. split; [done|congruence].
      * intros [[=]|[Hn _]]; done.
Qed.

(** The same step on the trace side. *)
Lemma joined_not_left_snoc ops o r n :
  joined_not_left (ops ++ [o]) r n
  ↔ o = Add r n ∨ (joined_not_left ops r n ∧ o ≠ Remove r n).
Proof.
  split.
  - intros (before & after & Heq & Hnot).
    destruct after as [|a after _] using rev_ind.
    + left. apply (app_inj_tail ops before) in Heq. by destruct Heq.
    + right.
      rewrite app_comm_cons, app_assoc in Heq.
      apply app_inj_tail in Heq as [-> ->].
      rewrite elem_of_app, list_elem_of_singleton in Hnot. split.
      * exists before, after. tauto.
      * intros ->. tauto.
  - intros [->|[(before & after & -> & Hnot) Ho]].
    + exists ops, []. split; [done | apply not_elem_of_nil].
    + exists before, (after ++ [o]). split.
      * by rewrite <- app_assoc.
      * rewrite elem_of_app, list_elem_of_singleton. intros [?|?]; auto.
Qed.

Lemma elem_of_run ops r n :
  Js.object_prototype r = None →
  n ∈ names (run ops ∅) r ↔ joined_not_left ops r n.
Proof.
  intros Hord. induction ops as [|o ops IH] using rev_ind.
  - split.
    + unfold run, names. simpl. rewrite lookup_empty.
      by intros ?%not_elem_of_nil.
    + intros (before & after & Heq & _). by destruct before.
  - by rewrite run_snoc, elem_of_apply, joined_not_left_snoc, IH.
Qed.

Lemma removed_absent reg r n :
  reg !! r = None → removed reg r n = reg.
Proof. intros H. unfold removed. by rewrite H. Qed.

Lemma removed_idemp reg r n :
  removed (removed reg r n) r n
  = removed reg r n.
Proof.
  destruct (reg !! r) as [s|] eqn:Hs.
  - assert (removed reg r n
            = if (length (set_delete n s) =? 0)%nat then delete r reg
              else <[r := set_delete n s]> reg) as ->.
    { unfold removed. by rewrite Hs. }
    destruct (length (set_delete n s) =? 0)%nat eqn:Hlen.
    + apply removed_absent, lookup_delete_eq.
    + unfold removed. rewrite lookup_insert_eq. simpl.
      rewrite set_delete_idemp, Hlen. apply insert_insert_eq.
  - rewrite (removed_absent reg r n Hs).
    by apply removed_absent.
Qed.

Lemma removed_not_member reg r n :
  n ∉ names reg r → no_empty_room reg →
  removed reg r n = reg.
Proof.
  intros Hn Hreg. unfold removed, names in *.
  destruct (reg !! r) as [s|] eqn:Hs; [|done]. simpl.
  rewrite set_delete_not_member by done.
  destruct s; [by apply Hreg in Hs|]. simpl. by apply insert_id.
Qed.

End registry_facts.

(** ** Message store *)

Section store_facts.
Import Store.
Implicit Types (db idx rows : list row) (m a b : row).

Lemma index_insert_perm m idx : index_insert m idx ≡ₚ m :: idx.
Proof.
  induction idx as [|x idx IH]; simpl; [done|].
  destruct (created_at x <? created_at m)%Z; [done|].
  rewrite IH. apply Permutation_swap.
Qed.

Lemma index_insert_sorted m idx :
  StronglySorted newer_or_equal idx →
  StronglySorted newer_or_equal (index_insert m idx).
Proof.
  induction 1 as [|x idx Hs IH Hx]; simpl.
  - repeat constructor.
  - destruct (created_at x <? created_at m)%Z eqn:Hlt.
    + apply Z.ltb_lt in Hlt. constructor; [by constructor|].
      constructor; [unfold newer_or_equal; lia|].
      eapply Forall_impl; [exact Hx|]. unfold newer_or_equal.
      intros y. simpl. lia.
    + apply Z.ltb_ge in Hlt. constructor; [done|].
      rewrite index_insert_perm. by constructor.
Qed.

Lemma fold_index_insert l idx :
  fold_left (λ idx m, index_insert m idx) l idx ≡ₚ idx ++ l
  ∧ (StronglySorted newer_or_equal idx →
     StronglySorted newer_or_equal
       (fold_left (λ idx m, index_insert m idx) l idx)).
Proof.
  revert idx. induction l as [|m l IH]; intros idx; simpl.
  - by rewrite app_nil_r.
  - destruct (IH (index_insert m idx)) as [Hp Hs]. split.
    + rewrite Hp, index_insert_perm. by rewrite <- Permutation_middle.
    + intros Hidx. by apply Hs, index_insert_sorted.
Qed.

Lemma room_index_newest_first db roomId :
  newest_first db roomId (room_index db roomId).
Proof.
  unfold newest_first, room_index.
  destruct (fold_index_insert (filter (λ r, room_id r = roomId) db) [])
    as [Hp Hs].
  split; [done|]. apply Hs. constructor.
Qed.

Lemma elem_of_room_index db roomId m :
  m ∈ room_index db roomId ↔ m ∈ db ∧ room_id m = roomId.
Proof.
  destruct (room_index_newest_first db roomId) as [Hp _].
  rewrite Hp, list_elem_of_filter. tauto.
Qed.

Lemma room_index_ids_nodup db roomId :
  store_wf db → NoDup (id <$> room_index db roomId).
Proof.
  intros Hwf. destruct (room_index_newest_first db roomId) as [Hp _].
  rewrite Hp.
  apply (sublist_NoDup _ (id <$> db));
    first [exact Hwf | apply fmap_sublist, sublist_filter].
Qed.

Lemma storeMessage_wf db m now fault db' :
  store_wf db → storeMessage db m now fault = inr db' →
  store_wf db' ∧ db' = db ++ [bound_row m now].
Proof.
  unfold storeMessage, store_wf. intros Hwf.
  destruct fault; [done|]. case_bool_decide as Hid; [done|].
  intros [= <-]. split; [|done].
  rewrite fmap_app. apply NoDup_app. split_and!; [done| |].
  - intros x Hx ->%list_elem_of_singleton. done.
  - apply NoDup_singleton.
Qed.

End store_facts.

Section recent_facts.
Import Store.
Implicit Types (db idx rows : list row) (m a b : row).

Lemma take_newest_oldest_first n rows :
  StronglySorted newer_or_equal rows →
  StronglySorted older_or_equal (reverse (take n rows)).
Proof.
  intros Hs. rewrite <- (take_drop n rows) in Hs.
  pose proof (StronglySorted_app_1_l _ _ _ Hs) as Hs1.
  pose proof (Sorted_reverse _ _ (StronglySorted_Sorted Hs1)) as Hs2.
  apply Sorted_StronglySorted; [|exact Hs2].
  intros a b c. unfold older_or_equal. lia.
Qed.

Lemma cut_keeps_newest n rows m m' :
  StronglySorted newer_or_equal rows →
  m ∈ rows → m ∉ take n rows → m' ∈ take n rows →
  (created_at m ≤ created_at m')%Z.
Proof.
  intros Hs Hm Hout Hin. rewrite <- (take_drop n rows) in Hs, Hm.
  apply elem_of_app in Hm as [Hm|Hm]; [done|].
  apply (StronglySorted_app_1_elem_of _ _ _ m' m Hs Hin Hm).
Qed.

End recent_facts.

(** What [rows.reverse()] returns for any rows the statement may yield:
    nothing below depends on how the engine orders rows of equal
    [created_at]. *)
Section any_retrieval.
Import Store.
Variables (db : list row) (roomId : string) (rows : list row) (n : nat).
Hypothesis Hwf : store_wf db.
Hypothesis Hrows : newest_first db roomId rows.

Lemma cut_length :
  length (reverse (take n rows))
  = Nat.min n (length (filter (λ r, room_id r = roomId) db)).
Proof.
  destruct Hrows as [Hp _]. by rewrite length_reverse, length_take, Hp.
Qed.

Lemma cut_ids_nodup : NoDup (id <$> reverse (take n rows)).
Proof.
  destruct Hrows as [Hp _].
  rewrite fmap_reverse, fmap_take, reverse_Permutation.
  apply (sublist_NoDup _ (id <$> rows)); [|apply sublist_take].
  rewrite Hp.
  apply (sublist_NoDup _ (id <$> db));
    first [exact Hwf | apply fmap_sublist, sublist_filter].
Qed.

Lemma cut_in_room m :
  m ∈ reverse (take n rows) → m ∈ db ∧ room_id m = roomId.
Proof.
  destruct Hrows as [Hp _]. rewrite elem_of_reverse. intros Hm.
  apply (subseteq_take n) in Hm. rewrite Hp, list_elem_of_filter in Hm.
  tauto.
Qed.

Lemma cut_oldest_first : StronglySorted older_or_equal (reverse (take n rows)).
Proof. destruct Hrows as [_ Hs]. by apply take_newest_oldest_first. Qed.

Lemma cut_most_recent m m' :
  m ∈ db → room_id m = roomId →
  m ∉ reverse (take n rows) → m' ∈ reverse (take n rows) →
  (created_at m ≤ created_at m')%Z.
Proof.
  destruct Hrows as [Hp Hs]. rewrite !elem_of_reverse.
  intros Hm Hroom Hout Hin.
  apply (cut_keeps_newest n rows); try done.
  rewrite Hp, list_elem_of_filter. done.
Qed.

End any_retrieval.

(** C3.  For every room and every store content obeying the key constraint,
    [getRecentMessages(roomId, limit)] (limit 50 when omitted) returns at
    most [limit] messages, namely as many as the room has up to [limit];
    they carry pairwise distinct ids, are stored messages of that room, and
    come in non-decreasing [created_at] order; the result is the reversal of
    the first [limit] rows of a newest-first retrieval of the room, so every
    message of the room left out is no newer than any message returned. *)
Theorem getRecentMessages_recent_tail
    (db : list Store.row) (roomId : string) (limit : option nat) :
  Store.store_wf db →
  let out := Store.getRecentMessages db roomId limit in
  let n := default 50%nat limit in
  (length out ≤ n)%nat
  ∧ length out
    = Nat.min n (length (filter (λ r, Store.room_id r = roomId) db))
  ∧ NoDup (Store.id <$> out)
  ∧ (∀ m, m ∈ out → m ∈ db ∧ Store.room_id m = roomId)
  ∧ StronglySorted Store.older_or_equal out
  ∧ (∃ rows, Store.newest_first db roomId rows ∧ out = reverse (take n rows))
  ∧ (∀ m m', m ∈ db → Store.room_id m = roomId → m ∉ out → m' ∈ out →
       (Store.created_at m ≤ Store.created_at m')%Z).
Proof.
  intros Hwf out n. subst out n.
  unfold Store.getRecentMessages, Store.select_recent.
  set (n := default 50%nat limit).
  pose proof (room_index_newest_first db roomId) as Hrows.
  split_and!.
  - rewrite (cut_length db roomId _ n Hrows). lia.
  - apply (cut_length db roomId _ n Hrows).
  - apply (cut_ids_nodup db roomId _ n Hwf Hrows).
  - apply (cut_in_room db roomId _ n Hrows).
  - apply (cut_oldest_first db roomId _ n Hrows).
  - by exists (Store.room_index db roomId).
  - apply (cut_most_recent db roomId _ n Hrows).
Qed.

(** A store of three messages of one room and one of another, read with
    limit 2. *)
Lemma getRecentMessages_recent_tail_witness :
  let mk i r t :=
    {| Store.id := i; Store.room_id := r; Store.username := "ann";
       Store.content := "hi"; Store.type := "text"; Store.filename := None;
       Store.mime := None; Store.created_at := t |} in
  let db := [mk "msg-1" "room-X" 10%Z; mk "msg-2" "room-Y" 20%Z;
             mk "msg-3" "room-X" 30%Z; mk "msg-4" "room-X" 40%Z] in
  Store.store_wf db
  ∧ Store.getRecentMessages db "room-X" (Some 2%nat)
    = [mk "msg-3" "room-X" 30%Z; mk "msg-4" "room-X" 40%Z]
  ∧ (length (Store.getRecentMessages db "room-X" (Some 2%nat)) ≤ 2)%nat.
Proof.
  intros mk db.
  assert (Store.store_wf db) as Hwf.
  { unfold Store.store_wf. apply (bool_decide_unpack _). vm_compute. exact I. }
  split; [exact Hwf|]. split; [reflexivity|].
  exact (proj1 (getRecentMessages_recent_tail db "room-X" (Some 2%nat) Hwf)).
Defined.

(** ** Session router *)

(** Unfolds a listener down to its primitive steps on the world. *)
Ltac step_handler :=
  unfold Relay.handleIncomingMessage, Relay.on_chat_message,
    Relay.on_join_room, Relay.on_end_session, Relay.on_file,
    Relay.on_typing, Relay.on_stop_typing, Relay.on_connection,
    Relay.try_catch, Relay.get_roomId, Relay.get_username,
    Relay.get_rooms, Relay.socket_emit, Relay.socket_to_emit,
    Relay.io_to_emit, Relay.ack_if_function, Relay.storeMessage,
    Relay.getRecentMessages, Relay.addParticipant, Relay.removeParticipant,
    Relay.listParticipants, Relay.socket_join, Relay.socket_leave,
    Relay.set_data, Relay.perform, Relay.gets, Relay.modify, Relay.throw,
    mbind, Relay.M_bind, mret, Relay.M_ret;
  cbn [Relay.with_db Relay.with_rooms Relay.with_sockets Relay.with_log
       Relay.db Relay.rooms Relay.sockets Relay.log fst snd].

Section relay_facts.
Import Relay.
Implicit Types (w : world) (sid : string) (e : env) (l : list effect).

Lemma with_log_nil w : with_log (λ l, l ++ []) w = w.
Proof. destruct w. unfold with_log. simpl. by rewrite app_nil_r. Qed.

Lemma forEach_perform {A} (g : A → effect) (xs : list A) w :
  forEach xs (λ x w0, (Normal (), with_log (λ l, l ++ [g x]) w0)) w
  = (Normal tt, with_log (λ l, l ++ (g <$> xs)) w).
Proof.
  revert w. induction xs as [|x xs IH]; intros w; simpl.
  - by rewrite with_log_nil.
  - unfold mbind, M_bind. rewrite IH.
    unfold with_log. simpl. by rewrite <- app_assoc.
Qed.

Lemma effects_of_app {A} (m : M A) w l :
  log (m w).2 = log w ++ l → effects_of m w = l.
Proof. intros H. unfold effects_of. rewrite H. apply drop_app_length. Qed.

Lemma elem_of_members (socks : gmap string socket) room sid :
  sid ∈ members socks room
  ↔ ∃ s, socks !! sid = Some s ∧ room ∈ socket_rooms s.
Proof.
  unfold members. rewrite elem_of_dom. unfold is_Some. split.
  - intros [s [Hs Hr]%map_lookup_filter_Some]. by exists s.
  - intros [s Hs]. exists s. by apply map_lookup_filter_Some.
Qed.

Lemma members_joined_others sid roomId name (socks : gmap string socket)
    sid' :
  sid' ∈ members (joined_sockets sid roomId name socks) roomId ∖ {[sid]}
  ↔ sid' ≠ sid ∧ sid' ∈ members socks roomId.
Proof.
  rewrite elem_of_difference, elem_of_singleton, !elem_of_members.
  unfold joined_sockets. split.
  - intros [(s & Hs & Hr) Hne]. split; [done|].
    rewrite !lookup_alter_ne in Hs by done. eauto.
  - intros [Hne (s & Hs & Hr)]. split; [|done]. exists s.
    by rewrite !lookup_alter_ne by done.
Qed.

Lemma inbox_app sid l1 l2 : inbox sid (l1 ++ l2) = inbox sid l1 ++ inbox sid l2.
Proof. apply omap_app. Qed.

Lemma inbox_emit_self {A} sid sid' (f : A → event) (xs : list A) :
  inbox sid' ((λ x, Emit {[sid]} (f x)) <$> xs)
  = if decide (sid' = sid) then f <$> xs else [].
Proof.
  induction xs as [|x xs IH].
  - by case_decide.
  - change (x :: xs) with ([x] ++ xs) at 1.
    rewrite fmap_app, inbox_app, IH. simpl.
    case_bool_decide as Hin; case_decide as Heq;
      rewrite elem_of_singleton in Hin; done.
Qed.

(** *** [handleIncomingMessage], by cases *)

Lemma handleIncomingMessage_invalid sid msg ack e w :
  negb (Js.truthy (send_room w sid msg))
  || String.eqb (send_trimmed msg) "" = true →
  handleIncomingMessage sid msg ack e w
  = (Normal tt,
     if ack
     then with_log (λ l, l ++ [Ack sid (AckError "Invalid payload")]) w
     else w).
Proof.
  unfold send_room, send_trimmed. intros H. step_handler. rewrite H.
  by destruct ack.
Qed.

Lemma handleIncomingMessage_stored sid msg ack e w d' :
  negb (Js.truthy (send_room w sid msg))
  || String.eqb (send_trimmed msg) "" = false →
  Store.storeMessage (db w) (send_message w sid msg e) (store_now e)
                     (store_fault e) = inr d' →
  handleIncomingMessage sid msg ack e w
  = (Normal tt,
     {| db := d'; rooms := rooms w; sockets := sockets w;
        log := log w
          ++ StoreWrite (Store.bound_row (send_message w sid msg e)
                                         (store_now e))
          :: Emit (members (sockets w) (default "" (send_room w sid msg)))
                  (chat_message_of (send_message w sid msg e))
          :: (if ack
              then [Ack sid (AckOk (Store.id (send_message w sid msg e)))]
              else []) |}).
Proof.
  unfold send_message, send_room, send_trimmed, send_name.
  intros H Hst. step_handler. rewrite H, Hst.
  cbn [with_db with_rooms with_sockets with_log db rooms sockets log].
  destruct ack; unfold with_log; simpl; rewrite <- ?app_assoc; reflexivity.
Qed.

Lemma handleIncomingMessage_store_failed sid msg ack e w err :
  negb (Js.truthy (send_room w sid msg))
  || String.eqb (send_trimmed msg) "" = false →
  Store.storeMessage (db w) (send_message w sid msg e) (store_now e)
                     (store_fault e) = inl err →
  handleIncomingMessage sid msg ack e w
  = (Normal tt,
     {| db := db w; rooms := rooms w; sockets := sockets w;
        log := log w
          ++ (if ack then [Ack sid (AckError err)] else [])
          ++ [Emit {[sid]} (ErrorMessage ("Store failed: " +:+ err))] |}).
Proof.
  unfold send_message, send_room, send_trimmed, send_name.
  intros H Hst. step_handler. rewrite H, Hst.
  cbn [with_db with_rooms with_sockets with_log db rooms sockets log].
  destruct ack; unfold with_log; simpl; rewrite <- ?app_assoc; reflexivity.
Qed.

(** *** The [join-room] listener *)

(** The join of a room the registry can hold, with an answering store. *)
Lemma on_join_room_eval sid p e w :
  let roomId := Js.or_lit (join_roomId p) (mint_room_id e) in
  let name := sanitize_username (join_username p) in
  let reg := Registry.added (rooms w) roomId name in
  let participants := Registry.listParticipants reg roomId in
  let socks := joined_sockets sid roomId name (sockets w) in
  Registry.inherited (rooms w) roomId = false →
  store_fault e = None →
  on_join_room sid (Some p) e w
  = (Normal tt,
     {| db := db w; rooms := reg; sockets := socks;
        log := log w
          ++ [RegistryAdd roomId name;
              Emit {[sid]} (Joined roomId participants);
              Emit (members socks roomId ∖ {[sid]})
                   (UserJoined name participants)]
          ++ ((λ m, Emit {[sid]} (chat_message_of m))
                <$> Store.getRecentMessages (db w) roomId (Some 50%nat)) |}).
Proof.
  intros roomId name reg participants socks Hinh Hfault. step_handler.
  fold roomId name. rewrite addParticipant_eq, Hinh, Hfault.
  cbn [with_db with_rooms with_sockets with_log db rooms sockets log].
  destruct (0 <? length (Store.getRecentMessages (db w) roomId
                                                 (Some 50%nat)))%nat
    eqn:Hlen.
  - rewrite forEach_perform. unfold with_log. cbn [db rooms sockets log].
    do 2 f_equal. by rewrite <- !app_assoc.
  - apply Nat.ltb_ge in Hlen.
    destruct (Store.getRecentMessages (db w) roomId (Some 50%nat));
      [|simpl in Hlen; lia].
    unfold with_log. cbn [db rooms sockets log].
    do 2 f_equal. by rewrite <- !app_assoc.
Qed.

(** The join of such a room when the history query throws. *)
Lemma on_join_room_query_failed sid p e w err :
  let roomId := Js.or_lit (join_roomId p) (mint_room_id e) in
  let name := sanitize_username (join_username p) in
  let reg := Registry.added (rooms w) roomId name in
  let participants := Registry.listParticipants reg roomId in
  let socks := joined_sockets sid roomId name (sockets w) in
  Registry.inherited (rooms w) roomId = false →
  store_fault e = Some err →
  on_join_room sid (Some p) e w
  = (Normal tt,
     {| db := db w; rooms := reg; sockets := socks;
        log := log w
          ++ [RegistryAdd roomId name;
              Emit {[sid]} (Joined roomId participants);
              Emit (members socks roomId ∖ {[sid]})
                   (UserJoined name participants);
              Emit {[sid]}
                   (ErrorMessage ("join-room failed: " +:+ err))] |}).
Proof.
  intros roomId name reg participants socks Hinh Hfault. step_handler.
  fold roomId name. rewrite addParticipant_eq, Hinh, Hfault.
  cbn [with_db with_rooms with_sockets with_log db rooms sockets log].
  unfold with_log. cbn [db rooms sockets log].
  do 2 f_equal. by rewrite <- !app_assoc.
Qed.

(** The join of a room whose id reads an inherited member of the registry
    object: [addParticipant] throws after the connection has joined the
    transport room and its data are written. *)
Lemma on_join_room_inherited sid p e w :
  let roomId := Js.or_lit (join_roomId p) (mint_room_id e) in
  let name := sanitize_username (join_username p) in
  Registry.inherited (rooms w) roomId = true →
  on_join_room sid (Some p) e w
  = (Normal tt,
     {| db := db w; rooms := rooms w;
        sockets := joined_sockets sid roomId name (sockets w);
        log := log w
          ++ [Emit {[sid]}
                (ErrorMessage
                   ("join-room failed: "
                    +:+ "rooms[roomId].add is not a function"))] |}).
Proof.
  intros roomId name Hinh. step_handler.
  fold roomId name. by rewrite addParticipant_eq, Hinh.
Qed.

(** *** The [end-session] listener *)

Lemma on_end_session_null sid w :
  on_end_session sid Js.Null w = (Thrown cannot_destructure_null, w).
Proof. done. Qed.

Lemma on_end_session_skip sid payload p w :
  Js.default_param no_leave payload = Some p →
  Js.truthy (leave_room w sid p) && Js.truthy (leave_name w sid p) = false →
  on_end_session sid payload w = (Normal tt, w).
Proof.
  unfold leave_room, leave_name. intros Hp H. step_handler.
  by rewrite Hp, H.
Qed.

(** [end-session] for a room the registry can hold. *)
Lemma on_end_session_eval sid payload p w :
  let r := default "" (leave_room w sid p) in
  let name := leave_name w sid p in
  let reg := Registry.removed_nullable (rooms w) r name in
  let participants := Registry.listParticipants reg r in
  let socks := left_sockets sid r (sockets w) in
  Js.default_param no_leave payload = Some p →
  Js.truthy (leave_room w sid p) && Js.truthy name = true →
  Registry.inherited (rooms w) r = false →
  on_end_session sid payload w
  = (Normal tt,
     {| db := db w; rooms := reg; sockets := socks;
        log := log w
          ++ [RegistryRemove r name;
              Emit (members socks r) (Participants participants);
              Emit (members socks r) (UserLeft name participants)] |}).
Proof.
  intros r name reg participants socks.
  subst r name reg participants socks. unfold leave_room, leave_name.
  intros Hp H Hinh. step_handler. rewrite Hp, H.
  cbn [with_db with_rooms with_sockets with_log db rooms sockets log].
  rewrite removeParticipant_nullable_eq, Hinh.
  cbn [with_db with_rooms with_sockets with_log db rooms sockets log].
  unfold with_log. cbn [db rooms sockets log].
  do 2 f_equal. by rewrite <- !app_assoc.
Qed.

(** [end-session] for a room whose id reads an inherited member:
    [socket.leave] has run when [removeParticipant] throws, and the
    [catch] emits nothing. *)
Lemma on_end_session_inherited sid payload p w :
  let r := default "" (leave_room w sid p) in
  Js.default_param no_leave payload = Some p →
  Js.truthy (leave_room w sid p) && Js.truthy (leave_name w sid p) = true →
  Registry.inherited (rooms w) r = true →
  on_end_session sid payload w
  = (Normal tt,
     {| db := db w; rooms := rooms w;
        sockets := left_sockets sid r (sockets w); log := log w |}).
Proof.
  intros r. subst r. unfold leave_room, leave_name.
  intros Hp H Hinh. step_handler. rewrite Hp, H.
  cbn [with_db with_rooms with_sockets with_log db rooms sockets log].
  by rewrite removeParticipant_nullable_eq, Hinh.
Qed.

Lemma roomId_of_left sid r (socks : gmap string socket) sid' :
  roomId_of (left_sockets sid r socks) sid' = roomId_of socks sid'.
Proof.
  unfold roomId_of, left_sockets. destruct (decide (sid = sid')) as [<-|Hne].
  - rewrite lookup_alter_eq. by destruct (socks !! sid).
  - by rewrite lookup_alter_ne.
Qed.

Lemma username_of_left sid r (socks : gmap string socket) sid' :
  username_of (left_sockets sid r socks) sid' = username_of socks sid'.
Proof.
  unfold username_of, left_sockets.
  destruct (decide (sid = sid')) as [<-|Hne].
  - rewrite lookup_alter_eq. by destruct (socks !! sid).
  - by rewrite lookup_alter_ne.
Qed.

Lemma left_sockets_idemp sid r (socks : gmap string socket) :
  left_sockets sid r (left_sockets sid r socks) = left_sockets sid r socks.
Proof.
  unfold left_sockets. apply map_eq. intros sid'.
  destruct (decide (sid = sid')) as [<-|Hne].
  - rewrite !lookup_alter_eq. destruct (socks !! sid) as [s|]; [|done].
    simpl. do 2 f_equal. apply set_delete_idemp.
  - by rewrite !lookup_alter_ne.
Qed.

End relay_facts.

(** ** Store writes of the listeners *)

Section tracked_facts.
Import Relay.
Context (P : Store.row → Prop).

Lemma writes_app l1 l2 : writes (l1 ++ l2) = writes l1 ++ writes l2.
Proof. apply omap_app. Qed.

Lemma tracked_silent {A} (m : M A) :
  (∀ w, db (m w).2 = db w ∧ log (m w).2 = log w) → tracked P m.
Proof.
  intros H w. destruct (H w) as [Hdb Hlog]. exists [].
  rewrite Hdb, Hlog, !app_nil_r. split_and!; by try constructor.
Qed.

Lemma tracked_ret {A} (a : A) : tracked P (mret a).
Proof. by apply tracked_silent. Qed.

Lemma tracked_throw {A} err : tracked P (throw (A:=A) err).
Proof. by apply tracked_silent. Qed.

Lemma tracked_gets {A} (f : world → A) : tracked P (gets f).
Proof. by apply tracked_silent. Qed.

Lemma tracked_with_rooms f : tracked P (modify (with_rooms f)).
Proof. by apply tracked_silent. Qed.

Lemma tracked_with_sockets f : tracked P (modify (with_sockets f)).
Proof. by apply tracked_silent. Qed.

Lemma tracked_perform x : writes [x] = [] → tracked P (perform x).
Proof.
  intros Hx w. exists [x]. rewrite Hx, app_nil_r.
  split_and!; by try constructor.
Qed.

(** Sequencing on the outcome of [m], whatever it is. *)
Lemma tracked_seq {A B} (m : M A) (k : outcome A → M B) :
  tracked P m → (∀ o, tracked P (k o)) →
  tracked P (λ w, k (m w).1 (m w).2).
Proof.
  intros Hm Hk w. destruct (Hm w) as (l1 & Hl1 & Hd1 & Hp1 & Hw1).
  destruct (Hk (m w).1 (m w).2) as (l2 & Hl2 & Hd2 & Hp2 & Hw2).
  exists (l1 ++ l2). simpl. split_and!.
  - by rewrite Hl2, Hl1, app_assoc.
  - by rewrite Hd2, Hd1, writes_app, app_assoc.
  - rewrite writes_app. by apply Forall_app.
  - auto.
Qed.

Lemma tracked_bind {A B} (m : M A) (k : A → M B) :
  tracked P m → (∀ a, tracked P (k a)) → tracked P (m ≫= k).
Proof.
  intros Hm Hk w.
  pose proof (tracked_seq m
    (λ o, match o with Normal a => k a | Thrown err => throw err end) Hm
    (λ o, match o with
          | Normal a => Hk a
          | Thrown err => tracked_throw err
          end) w) as H.
  unfold mbind, M_bind. cbv beta in H. revert H.
  destruct (m w) as [[a|err] w1]; intros H; exact H.
Qed.

Lemma tracked_try_catch {A} (m : M A) (h : string → M A) :
  tracked P m → (∀ err, tracked P (h err)) → tracked P (try_catch m h).
Proof.
  intros Hm Hh w.
  pose proof (tracked_seq m
    (λ o, match o with Normal a => mret a | Thrown err => h err end) Hm
    (λ o, match o with
          | Normal a => tracked_ret a
          | Thrown err => Hh err
          end) w) as H.
  unfold try_catch. cbv beta in H. revert H.
  destruct (m w) as [[a|err] w1]; intros H; exact H.
Qed.

Lemma tracked_forEach {A} (xs : list A) (f : A → M unit) :
  (∀ x, tracked P (f x)) → tracked P (forEach xs f).
Proof.
  intros Hf. induction xs as [|x xs IH]; simpl.
  - apply tracked_ret.
  - apply tracked_bind; [apply Hf | intros _; apply IH].
Qed.

Lemma tracked_storeMessage msg e :
  P (Store.bound_row msg (store_now e)) → tracked P (storeMessage msg e).
Proof.
  intros Hp w. unfold storeMessage, mbind, M_bind, gets, modify, perform.
  destruct (Store.storeMessage (db w) msg (store_now e) (store_fault e))
    as [err|d'] eqn:Hst; simpl.
  - exists []. rewrite !app_nil_r. split_and!; by try constructor.
  - exists [StoreWrite (Store.bound_row msg (store_now e))]. simpl.
    split_and!; [done | | by repeat constructor |].
    + unfold Store.storeMessage in Hst.
      destruct (store_fault e); [done|].
      case_bool_decide; [done|]. by injection Hst as <-.
    + intros Hwf. by destruct (storeMessage_wf _ _ _ _ _ Hwf Hst).
Qed.

End tracked_facts.

(** One step of the structural proof that a listener is [tracked]. *)
Ltac tracked_step :=
  lazymatch goal with
  | |- Relay.tracked _ (if ?b then _ else _) => destruct b
  | |- Relay.tracked _ (match ?x with _ => _ end) => destruct x
  | |- Relay.tracked _ (Relay.storeMessage _ _) => apply tracked_storeMessage
  | |- Relay.tracked _ (mbind _ _) => apply tracked_bind; [|intros ?]
  | |- Relay.tracked _ (Relay.try_catch _ _) =>
      apply tracked_try_catch; [|intros ?]
  | |- Relay.tracked _ (Relay.forEach _ _) => apply tracked_forEach; intros ?
  | |- Relay.tracked _ (mret _) => apply tracked_ret
  | |- Relay.tracked _ (Relay.throw _) => apply tracked_throw
  | |- Relay.tracked _ (Relay.gets _) => apply tracked_gets
  | |- Relay.tracked _ (Relay.modify (Relay.with_rooms _)) =>
      apply tracked_with_rooms
  | |- Relay.tracked _ (Relay.modify (Relay.with_sockets _)) =>
      apply tracked_with_sockets
  | |- Relay.tracked _ (Relay.perform _) => apply tracked_perform; reflexivity
  end.

Ltac unfold_steps :=
  unfold Relay.get_roomId, Relay.get_username, Relay.get_rooms,
    Relay.socket_emit, Relay.socket_to_emit, Relay.io_to_emit,
    Relay.ack_if_function, Relay.getRecentMessages, Relay.addParticipant,
    Relay.removeParticipant, Relay.listParticipants, Relay.socket_join,
    Relay.socket_leave, Relay.set_data.

Section handle_tracked.
Import Relay.

Lemma or_lit_not_empty a lit : lit ≠ "" → Js.or_lit a lit ≠ "".
Proof.
  intros Hlit. unfold Js.or_lit. destruct a as [s|]; [|done].
  destruct (String.eqb s "") eqn:Hs; [done|]. by apply String.eqb_neq.
Qed.

Lemma written_by_send p ack e roomId username text :
  written_by (ChatMessageIn p ack) e
    (Store.bound_row
       (messageData roomId username text (default no_send p) e)
       (store_now e)).
Proof.
  split; [done|]. split; [done|]. simpl.
  destruct (String.eqb _ "") eqn:Hty; [|done].
  apply String.eqb_eq in Hty. by apply or_lit_not_empty in Hty.
Qed.

Lemma written_by_file p e roomId username url fileMsg :
  written_by (FileIn p) e
    (Store.bound_row (fileData roomId username url fileMsg e)
                     (store_now e)).
Proof. by split. Qed.

Lemma tracked_handle sid ev e : tracked (written_by ev e) (handle sid ev e).
Proof.
  destruct ev as [|p|p ack|p ack|p|p|p|p|]; simpl.
  - unfold on_connection. repeat tracked_step.
  - unfold on_join_room. unfold_steps. repeat tracked_step.
  - unfold on_chat_message, handleIncomingMessage. unfold_steps.
    repeat tracked_step. apply written_by_send.
  - unfold on_chat_message, handleIncomingMessage. unfold_steps.
    repeat tracked_step. apply (written_by_send p ack).
  - unfold on_typing. unfold_steps. repeat tracked_step.
  - unfold on_stop_typing. unfold_steps. repeat tracked_step.
  - unfold on_end_session. unfold_steps. repeat tracked_step.
  - unfold on_file. unfold_steps. repeat tracked_step.
    apply written_by_file.
  - unfold on_disconnecting. unfold_steps. repeat tracked_step.
Qed.

Lemma run_snoc_world evs x w : run (evs ++ [x]) w = step (run evs w) x.
Proof. unfold run. by rewrite fold_left_app. Qed.

Lemma step_store_wf w x : Store.store_wf (db w) → Store.store_wf (db (step w x)).
Proof.
  destruct x as [[sid ev] e]. intros Hwf. unfold step.
  destruct (tracked_handle sid ev e w) as (l & _ & _ & _ & H). auto.
Qed.

End handle_tracked.

(** ** String primitives *)

Section js_facts.
Implicit Types (s : string) (n : nat) (a : option string).

Lemma take_length n s :
  String.length (Js.take n s) = Nat.min n (String.length s).
Proof.
  revert s. induction n as [|n IH]; intros [|c s]; simpl; try done.
  by rewrite IH.
Qed.

Lemma drop_length n s :
  String.length (Js.drop n s) = (String.length s - n)%nat.
Proof.
  revert s. induction n as [|n IH]; intros [|c s]; simpl; try done.
Qed.

Lemma take_drop_string n s : s = Js.take n s +:+ Js.drop n s.
Proof.
  revert s. induction n as [|n IH]; intros [|c s]; simpl; try done.
  rewrite (IH s) at 1. reflexivity.
Qed.

Lemma slice_length (i j : nat) s :
  String.length (Js.slice i j s)
  = Nat.min (j - i) (String.length s - i).
Proof. unfold Js.slice. by rewrite take_length, drop_length. Qed.

Lemma toUpperCase_length s :
  String.length (Js.toUpperCase s) = String.length s.
Proof. induction s as [|c s IH]; simpl; [done | by rewrite IH]. Qed.

Lemma take_not_empty n s : s ≠ "" → Js.take (S n) s ≠ "".
Proof. by destruct s. Qed.

Lemma truthy_false a : Js.truthy a = false ↔ a = None ∨ a = Some "".
Proof.
  destruct a as [s|]; simpl.
  - rewrite negb_false_iff, String.eqb_eq. split.
    + intros ->. by right.
    + by intros [|[=]].
  - split; [by left | done].
Qed.

Lemma truthy_true a : Js.truthy a = true ↔ ∃ s, a = Some s ∧ s ≠ "".
Proof.
  destruct a as [s|]; simpl.
  - rewrite negb_true_iff, String.eqb_neq. split.
    + intros Hs. by exists s.
    + by intros (s' & [= <-] & Hs).
  - split; [done | by intros (s & [=] & _)].
Qed.

Lemma or_lit_truthy a lit s : a = Some s → s ≠ "" → Js.or_lit a lit = s.
Proof.
  intros -> Hs. simpl. apply String.eqb_neq in Hs. by rewrite Hs.
Qed.

Lemma or_lit_falsy a lit : Js.truthy a = false → Js.or_lit a lit = lit.
Proof. by intros [-> | ->]%truthy_false. Qed.

Lemma upper_base36 c :
  Js.is_base36_lower c = true → Js.is_base36_upper (Js.upper_ascii c) = true.
Proof.
  destruct c as [[] [] [] [] [] [] [] []]; vm_compute; intros H;
    first [exact H | reflexivity].
Qed.

Lemma all_chars_take p n s :
  Js.all_chars p s = true → Js.all_chars p (Js.take n s) = true.
Proof.
  revert s. induction n as [|n IH]; intros [|c s]; simpl; try done.
  rewrite !andb_true_iff. intros [Hc Hs]. auto.
Qed.

Lemma all_chars_upper s :
  Js.all_chars Js.is_base36_lower s = true →
  Js.all_chars Js.is_base36_upper (Js.toUpperCase s) = true.
Proof.
  induction s as [|c s IH]; simpl; [done|].
  rewrite !andb_true_iff. intros [Hc Hs]. auto using upper_base36.
Qed.

(** The digits [slice(2, 9)] cuts out of a base-36 fraction. *)
Lemma token_base36 s :
  Js.unit_fraction36 s = true →
  Js.all_chars Js.is_base36_upper (Js.toUpperCase (Js.slice 2 9 s)) = true.
Proof.
  intros H. apply all_chars_upper. unfold Js.unit_fraction36 in H.
  destruct s as [|c0 [|c1 [|c s]]]; try done.
  destruct (Ascii.eqb c0 "0") eqn:H0; [|by destruct c0 as [[] [] [] [] [] [] [] []]].
  apply Ascii.eqb_eq in H0. subst c0.
  destruct (Ascii.eqb c1 ".") eqn:H1; [|by destruct c1 as [[] [] [] [] [] [] [] []]].
  apply Ascii.eqb_eq in H1. subst c1.
  change (Js.slice 2 9 (String "0" (String "." (String c s))))
    with (Js.take 7 (String c s)).
  apply all_chars_take. exact H.
Qed.

Lemma sanitize_username_some u :
  u ≠ "" → Relay.sanitize_username (Some u) = Js.slice 0 48 u.
Proof.
  intros Hu. unfold Relay.sanitize_username.
  assert (Js.truthy (Some u) = true) as ->.
  { apply truthy_true. by exists u. }
  apply or_lit_truthy with (s := Js.slice 0 48 u); [done|].
  by apply take_not_empty.
Qed.

End js_facts.

(** ** Messages of equal [created_at] *)

Section ties.
Import Store.
Implicit Types (db idx rows : list row) (m a b : row).

Lemma sublist_filter_mono {A} (P : A → Prop) `{!∀ x, Decision (P x)}
    (l k : list A) :
  l `sublist_of` k → filter P l `sublist_of` filter P k.
Proof.
  induction 1 as [|x l k Hlk IH|x l k Hlk IH]; [done| |].
  - rewrite !filter_cons. case_decide; [by constructor | done].
  - rewrite filter_cons. case_decide; [by constructor | done].
Qed.

Lemma sublist_reverse_mono {A} (l k : list A) :
  l `sublist_of` k → reverse l `sublist_of` reverse k.
Proof.
  induction 1 as [|x l k Hlk IH|x l k Hlk IH]; [done| |].
  - rewrite !reverse_cons. by apply sublist_app.
  - rewrite reverse_cons. by apply sublist_inserts_r.
Qed.

(** Where [index_insert] puts the row: in front of the first entry that is
    strictly older, hence behind all entries of the same [created_at]. *)
Lemma index_insert_split m idx :
  StronglySorted newer_or_equal idx →
  ∃ pre post,
    idx = pre ++ post ∧ index_insert m idx = pre ++ m :: post
    ∧ Forall (λ x, (created_at x < created_at m)%Z) post.
Proof.
  induction 1 as [|x idx Hs IH Hx]; simpl.
  - by exists [], [].
  - destruct (created_at x <? created_at m)%Z eqn:Hlt.
    + apply Z.ltb_lt in Hlt. exists [], (x :: idx).
      split_and!; [done | done |].
      constructor; [done|]. eapply Forall_impl; [exact Hx|].
      unfold newer_or_equal. intros y. simpl. lia.
    + destruct IH as (pre & post & -> & Hins & Hpost).
      exists (x :: pre), post. by rewrite Hins.
Qed.

Lemma index_insert_ties rows idx m :
  idx ≡ₚ rows → StronglySorted newer_or_equal idx →
  ties_in_order rows idx →
  ties_in_order (rows ++ [m]) (index_insert m idx).
Proof.
  intros Hp Hs Hties a b Hab Hbefore.
  destruct (index_insert_split m idx Hs) as (pre & post & Hidx & -> & Hpost).
  unfold listed_before in *.
  apply sublist_app_r in Hbefore as (k1 & k2 & Hk & Hk1 & Hk2).
  apply sublist_cons_r in Hk2 as [Hk2|(k2' & -> & Hk2)].
  - apply sublist_nil_r in Hk2 as ->. rewrite app_nil_r in Hk. subst k1.
    specialize (Hties a b Hab Hk1). rewrite Hidx in Hties.
    apply sublist_app_r in Hties as (l1 & l2 & -> & Hl1 & Hl2).
    apply sublist_app; [done | by constructor].
  - apply sublist_nil_r in Hk2 as ->.
    destruct k1 as [|x [|y k1]]; [discriminate Hk | |].
    2: { injection Hk as _ _ Hk. by destruct k1. }
    injection Hk as -> ->.
    apply singleton_sublist_l in Hk1. rewrite <- Hp, Hidx in Hk1.
    apply elem_of_app in Hk1 as [Hx|Hx].
    + apply (sublist_app [x] pre [m] (m :: post)).
      * by apply singleton_sublist_l.
      * apply sublist_skip, sublist_nil_l.
    + exfalso. apply (proj1 (Forall_forall _ _) Hpost) in Hx. lia.
Qed.

Lemma fold_index_insert_ties rest rows idx :
  idx ≡ₚ rows → StronglySorted newer_or_equal idx →
  ties_in_order rows idx →
  ties_in_order (rows ++ rest)
                (fold_left (λ idx m, index_insert m idx) rest idx).
Proof.
  revert rows idx.
  induction rest as [|m rest IH]; intros rows idx Hp Hs Hties; simpl.
  - by rewrite app_nil_r.
  - rewrite (cons_middle m rows rest), app_assoc. apply IH.
    + by rewrite index_insert_perm, Hp, Permutation_cons_append.
    + by apply index_insert_sorted.
    + by apply index_insert_ties.
Qed.

(** The scan of the index returns the messages of one room that share a
    [created_at] in the order of their insertion. *)
Lemma room_index_ties db roomId a b :
  room_id a = roomId → room_id b = roomId →
  created_at a = created_at b →
  inserted_before db a b → listed_before (room_index db roomId) a b.
Proof.
  intros Ha Hb Hab Hbefore. unfold room_index.
  apply (fold_index_insert_ties (filter (λ r, room_id r = roomId) db) [] []);
    [done | constructor | | done |].
  - intros x y _ H. unfold listed_before in H. by apply sublist_nil_r in H.
  - unfold inserted_before, listed_before in *.
    apply (sublist_filter_mono (λ r, room_id r = roomId)) in Hbefore.
    rewrite !filter_cons, !decide_True in Hbefore by done. exact Hbefore.
Qed.

(** Hence [getRecentMessages] lists any two returned messages of equal
    [created_at] against the order of their insertion. *)
Lemma ties_listed_in_reverse db roomId limit a b :
  store_wf db →
  room_id a = roomId → room_id b = roomId →
  created_at a = created_at b →
  inserted_before db a b →
  let out := getRecentMessages db roomId limit in
  a ∈ out → b ∈ out → listed_before out b a.
Proof.
  intros Hwf Ha Hb Hab Hbefore out Hina Hinb. subst out.
  unfold getRecentMessages, select_recent in *.
  set (n := default 50%nat limit) in *.
  rewrite elem_of_reverse in Hina, Hinb.
  pose proof (room_index_ties db roomId a b Ha Hb Hab Hbefore) as Hidx.
  pose proof (room_index_ids_nodup db roomId Hwf) as Hnd.
  apply NoDup_fmap_1 in Hnd.
  rewrite <- (take_drop n (room_index db roomId)) in Hidx, Hnd.
  unfold listed_before in *.
  apply sublist_app_r in Hidx as (k1 & k2 & Hk & Hk1 & Hk2).
  apply NoDup_app in Hnd as (_ & Hdisj & _).
  assert (k2 = []) as ->.
  { destruct k2 as [|x k2]; [done|]. exfalso.
    assert (b ∈ x :: k2) as Hbk.
    { destruct k1 as [|y [|z k1]].
      - injection Hk as _ <-. apply list_elem_of_further, list_elem_of_here.
      - injection Hk as _ -> _. apply list_elem_of_here.
      - injection Hk as _ _ Hk. by destruct k1. }
    apply (Hdisj b Hinb). by eapply elem_of_sublist. }
  rewrite app_nil_r in Hk. subst k1.
  apply (sublist_reverse_mono [a; b]). exact Hk1.
Qed.

End ties.

(** ** Invariants of the event loop *)

Section preserves_facts.
Import Relay.
Context (I : world → Prop).

Lemma preserves_ret {A} (a : A) : preserves I (mret a).
Proof. by intros w. Qed.

Lemma preserves_throw {A} err : preserves I (throw (A:=A) err).
Proof. by intros w. Qed.

Lemma preserves_gets {A} (f : world → A) : preserves I (gets f).
Proof. by intros w. Qed.

Lemma preserves_modify f : (∀ w, I w → I (f w)) → preserves I (modify f).
Proof. intros Hf w. apply Hf. Qed.

Lemma preserves_bind {A B} (m : M A) (k : A → M B) :
  preserves I m → (∀ a, preserves I (k a)) → preserves I (m ≫= k).
Proof.
  intros Hm Hk w Hw. specialize (Hm w Hw). unfold mbind, M_bind.
  destruct (m w) as [[a|err] w1]; [by apply Hk | done].
Qed.

Lemma preserves_try_catch {A} (m : M A) (h : string → M A) :
  preserves I m → (∀ err, preserves I (h err)) → preserves I (try_catch m h).
Proof.
  intros Hm Hh w Hw. specialize (Hm w Hw). unfold try_catch.
  destruct (m w) as [[a|err] w1]; [done | by apply Hh].
Qed.

Lemma preserves_forEach {A} (xs : list A) (f : A → M unit) :
  (∀ x, preserves I (f x)) → preserves I (forEach xs f).
Proof.
  intros Hf. induction xs as [|x xs IH]; simpl.
  - apply preserves_ret.
  - apply preserves_bind; [apply Hf | intros _; apply IH].
Qed.

End preserves_facts.

Lemma sets_nodup_removed_nullable (reg : gmap string (list string)) r name :
  Registry.sets_nodup reg →
  Registry.sets_nodup (Registry.removed_nullable reg r name).
Proof.
  intros Hreg. destruct name as [n|]; simpl.
  - by apply sets_nodup_removed.
  - destruct (reg !! r) as [[|]|] eqn:Hs; try done.
    intros r' s. destruct (decide (r = r')) as [<-|Hne].
    + by rewrite lookup_delete_eq.
    + rewrite lookup_delete_ne by done. apply Hreg.
Qed.

Lemma addParticipant_registry_ok r n :
  Relay.preserves Relay.registry_ok (Relay.addParticipant r n).
Proof.
  intros w [Hne Hnd].
  unfold Relay.addParticipant, Relay.gets, Relay.modify, Relay.perform,
    Relay.throw, mbind, Relay.M_bind.
  rewrite addParticipant_eq.
  destruct (Registry.inherited (Relay.rooms w) r); [done|].
  split; simpl; auto using no_empty_room_added, sets_nodup_added.
Qed.

Lemma removeParticipant_registry_ok r name :
  Relay.preserves Relay.registry_ok (Relay.removeParticipant r name).
Proof.
  intros w [Hne Hnd].
  unfold Relay.removeParticipant, Relay.gets, Relay.modify, Relay.perform,
    Relay.throw, mbind, Relay.M_bind.
  rewrite removeParticipant_nullable_eq.
  destruct (Registry.inherited (Relay.rooms w) r); [done|].
  split; simpl;
    auto using no_empty_room_removed_nullable, sets_nodup_removed_nullable.
Qed.

(** One step of the structural proof that a listener keeps the registry
    well formed. *)
Ltac registry_step :=
  lazymatch goal with
  | |- Relay.preserves _ (Relay.addParticipant _ _) =>
      apply addParticipant_registry_ok
  | |- Relay.preserves _ (Relay.removeParticipant _ _) =>
      apply removeParticipant_registry_ok
  | |- Relay.preserves _ (if ?b then _ else _) => destruct b
  | |- Relay.preserves _ (match ?x with _ => _ end) => destruct x
  | |- Relay.preserves _ (mbind _ _) => apply preserves_bind; [|intros ?]
  | |- Relay.preserves _ (Relay.try_catch _ _) =>
      apply preserves_try_catch; [|intros ?]
  | |- Relay.preserves _ (Relay.forEach _ _) =>
      apply preserves_forEach; intros ?
  | |- Relay.preserves _ (mret _) => apply preserves_ret
  | |- Relay.preserves _ (Relay.throw _) => apply preserves_throw
  | |- Relay.preserves _ (Relay.gets _) => apply preserves_gets
  | |- Relay.preserves _ (Relay.modify _) =>
      apply preserves_modify; intros ? [? ?]; split; simpl; assumption
  end.

Section registry_reachable.
Import Relay.

Lemma handle_registry_ok sid ev e : preserves registry_ok (handle sid ev e).
Proof.
  destruct ev; simpl;
    unfold on_connection, on_join_room, on_chat_message,
      handleIncomingMessage, on_typing, on_stop_typing, on_end_session,
      on_file, on_disconnecting, storeMessage, perform;
    unfold get_roomId, get_username, get_rooms, socket_emit,
      socket_to_emit, io_to_emit, ack_if_function, getRecentMessages,
      listParticipants, socket_join, socket_leave, set_data;
    unfold perform;
    repeat registry_step.
Qed.

Lemma run_registry_ok evs : registry_ok (run evs initial).
Proof.
  induction evs as [|[[sid ev] e] evs IH] using rev_ind.
  - split; [apply no_empty_room_empty | apply sets_nodup_empty].
  - rewrite run_snoc_world. by apply handle_registry_ok.
Qed.

End registry_reachable.

(** * Specified properties *)

(** C1.  For every inbound send whose resolved room id is non-empty and
    whose trimmed text is non-empty: when [storeMessage] returns, the row is
    appended to the store (exactly that one row) before the only broadcast
    is emitted, to the whole room, followed by the acknowledgment if one
    was asked for; when [storeMessage] throws, the store is unchanged, no
    connection receives a chat message, and the failure goes to the sender
    only, as an error acknowledgment (if one was asked for) and an
    [error-message]. *)
Theorem send_persisted_before_broadcast
    (sid : string) (msg : Relay.send_payload) (ack : bool) (e : Relay.env)
    (w : Relay.world) :
  Js.truthy (Relay.send_room w sid msg) = true →
  Relay.send_trimmed msg ≠ "" →
  let m := Relay.send_message w sid msg e in
  let row := Store.bound_row m (Relay.store_now e) in
  let roomId := default "" (Relay.send_room w sid msg) in
  let w' := (Relay.handleIncomingMessage sid msg ack e w).2 in
  let new := Relay.effects_of (Relay.handleIncomingMessage sid msg ack e) w in
  match Store.storeMessage (Relay.db w) m (Relay.store_now e)
                           (Relay.store_fault e) with
  | inr _ =>
      Relay.db w' = Relay.db w ++ [row]
      ∧ new = Relay.StoreWrite row
              :: Relay.Emit (Relay.members (Relay.sockets w) roomId)
                            (Relay.chat_message_of m)
              :: (if ack then [Relay.Ack sid (Relay.AckOk (Store.id m))]
                  else [])
      ∧ Relay.writes new = [row]
      ∧ ∀ sid', Relay.inbox sid' new
                = if decide (sid' ∈ Relay.members (Relay.sockets w) roomId)
                  then [Relay.chat_message_of m] else []
  | inl err =>
      Relay.db w' = Relay.db w
      ∧ new = (if ack then [Relay.Ack sid (Relay.AckError err)] else [])
              ++ [Relay.Emit {[sid]}
                    (Relay.ErrorMessage ("Store failed: " +:+ err))]
      ∧ Relay.writes new = []
      ∧ ∀ sid', Relay.inbox sid' new
                = if decide (sid' = sid)
                  then [Relay.ErrorMessage ("Store failed: " +:+ err)]
                  else []
  end.
Proof.
  intros Hroom Htext m row roomId w' new.
  assert (negb (Js.truthy (Relay.send_room w sid msg))
          || String.eqb (Relay.send_trimmed msg) "" = false) as Hvalid.
  { rewrite Hroom. simpl. by apply String.eqb_neq. }
  destruct (Store.storeMessage (Relay.db w) m (Relay.store_now e)
                               (Relay.store_fault e)) as [err|d'] eqn:Hst.
  - pose proof (handleIncomingMessage_store_failed sid msg ack e w err
                  Hvalid Hst) as Heval.
    assert (new = (if ack then [Relay.Ack sid (Relay.AckError err)] else [])
                  ++ [Relay.Emit {[sid]}
                        (Relay.ErrorMessage ("Store failed: " +:+ err))])
      as Hnew.
    { subst new. apply effects_of_app. by rewrite Heval. }
    subst w'. rewrite Heval, Hnew. split_and!; [done | done | |].
    + by destruct ack.
    + intros sid'. destruct ack; simpl;
        case_bool_decide as Hin; case_decide as Heq; set_solver.
  - pose proof (handleIncomingMessage_stored sid msg ack e w d' Hvalid Hst)
      as Heval.
    assert (d' = Relay.db w ++ [row]) as ->.
    { unfold Store.storeMessage in Hst.
      destruct (Relay.store_fault e); [done|].
      case_bool_decide; [done|]. by injection Hst as <-. }
    assert (new = Relay.StoreWrite row
              :: Relay.Emit (Relay.members (Relay.sockets w) roomId)
                            (Relay.chat_message_of m)
              :: (if ack then [Relay.Ack sid (Relay.AckOk (Store.id m))]
                  else [])) as Hnew.
    { subst new. apply effects_of_app. by rewrite Heval. }
    subst w'. rewrite Heval, Hnew. split_and!; [done | done | |].
    + by destruct ack.
    + intros sid'. destruct ack; simpl;
        case_bool_decide as Hin; case_decide as Heq; done.
Qed.

(** Ann says hello in a room of two, with an acknowledgment callback: first
    with a working store, then with a store that fails. *)
Lemma send_persisted_before_broadcast_witness :
  let w := Scenario.two_in_room in
  let msg := Scenario.say "room-X" "hello" in
  let ok := Scenario.env_with "u1" 1700000000001%Z None in
  let ko := Scenario.env_with "u1" 1700000000001%Z (Some "disk I/O error") in
  (Relay.writes (Relay.effects_of (Relay.handleIncomingMessage "A" msg true ok) w)
   = [Store.bound_row (Relay.send_message w "A" msg ok) 1700000000001%Z]
   ∧ Relay.inbox "B"
       (Relay.effects_of (Relay.handleIncomingMessage "A" msg true ok) w)
     = [Relay.ChatMessage "msg-u1" "ann" "hello" 1700000000001%Z "text"
                          None None])
  ∧ (Relay.writes (Relay.effects_of (Relay.handleIncomingMessage "A" msg true ko) w)
     = []
     ∧ Relay.inbox "B"
         (Relay.effects_of (Relay.handleIncomingMessage "A" msg true ko) w)
       = []).
Proof.
  intros w msg ok ko. split.
  - pose proof (send_persisted_before_broadcast "A" msg true ok w
                  eq_refl ltac:(discriminate)) as H.
    cbv zeta in H.
    change (Store.storeMessage (Relay.db w) (Relay.send_message w "A" msg ok)
              (Relay.store_now ok) (Relay.store_fault ok))
      with (@inr string _
              (Relay.db w ++ [Store.bound_row (Relay.send_message w "A" msg ok)
                                              1700000000001%Z])) in H.
    destruct H as (_ & _ & Hw & Hin). split; [exact Hw|].
    rewrite (Hin "B"). reflexivity.
  - pose proof (send_persisted_before_broadcast "A" msg true ko w
                  eq_refl ltac:(discriminate)) as H.
    cbv zeta in H.
    change (Store.storeMessage (Relay.db w) (Relay.send_message w "A" msg ko)
              (Relay.store_now ko) (Relay.store_fault ko))
      with (@inl string (list Store.row) "disk I/O error") in H.
    destruct H as (_ & _ & Hw & Hin). split; [exact Hw|].
    rewrite (Hin "B"). reflexivity.
Defined.

(** C4.  For every inbound send whose resolved room id is empty or whose
    text is empty after trimming, the handler returns without a store write
    and without an emit: store, registry and connections are unchanged and
    its only effect is the acknowledgment [{ok: false, error: 'Invalid
    payload'}], made exactly when a callback was supplied. *)
Theorem invalid_send_rejected
    (sid : string) (msg : Relay.send_payload) (ack : bool) (e : Relay.env)
    (w : Relay.world) :
  Js.truthy (Relay.send_room w sid msg) = false
  ∨ Relay.send_trimmed msg = "" →
  let w' := (Relay.handleIncomingMessage sid msg ack e w).2 in
  let new := Relay.effects_of (Relay.handleIncomingMessage sid msg ack e) w in
  (Relay.handleIncomingMessage sid msg ack e w).1 = Relay.Normal tt
  ∧ Relay.db w' = Relay.db w
  ∧ Relay.rooms w' = Relay.rooms w
  ∧ Relay.sockets w' = Relay.sockets w
  ∧ new = (if ack
           then [Relay.Ack sid (Relay.AckError "Invalid payload")]
           else [])
  ∧ Relay.writes new = []
  ∧ ∀ sid', Relay.inbox sid' new = [].
Proof.
  intros Hbad w' new.
  assert (negb (Js.truthy (Relay.send_room w sid msg))
          || String.eqb (Relay.send_trimmed msg) "" = true) as Hinvalid.
  { destruct Hbad as [-> | ->]; [done|]. by rewrite orb_true_r. }
  pose proof (handleIncomingMessage_invalid sid msg ack e w Hinvalid)
    as Heval.
  assert (new = (if ack
                 then [Relay.Ack sid (Relay.AckError "Invalid payload")]
                 else [])) as Hnew.
  { subst new. apply effects_of_app. rewrite Heval.
    destruct ack; simpl; [done | by rewrite app_nil_r]. }
  subst w'. rewrite Heval, Hnew.
  destruct ack; simpl; split_and!; done.
Qed.

(** Ann sends a text of blanks only, with an acknowledgment callback. *)
Lemma invalid_send_rejected_witness :
  let w := Scenario.two_in_room in
  let msg := Scenario.say "room-X" "   " in
  Relay.send_trimmed msg = ""
  ∧ Relay.db (Relay.handleIncomingMessage "A" msg true Scenario.quiet_env w).2
    = Relay.db w
  ∧ Relay.effects_of
      (Relay.handleIncomingMessage "A" msg true Scenario.quiet_env) w
    = [Relay.Ack "A" (Relay.AckError "Invalid payload")].
Proof.
  intros w msg. split; [reflexivity|].
  destruct (invalid_send_rejected "A" msg true Scenario.quiet_env w
              (or_intror eq_refl)) as (_ & Hdb & _ & _ & Hnew & _).
  split; [exact Hdb | exact Hnew].
Defined.

(** What the [join-room] listener does after [joined] and [user-joined]:
    the replay of the history, or the report of the query that threw. *)
Lemma on_join_room_effects
    (sid : string) (p : Relay.join_payload) (e : Relay.env)
    (w : Relay.world) :
  let roomId := Js.or_lit (Relay.join_roomId p) (Relay.mint_room_id e) in
  let name := Relay.sanitize_username (Relay.join_username p) in
  let w' := (Relay.on_join_room sid (Some p) e w).2 in
  let new := Relay.effects_of (Relay.on_join_room sid (Some p) e) w in
  let participants := Registry.listParticipants (Relay.rooms w') roomId in
  let socks := Relay.joined_sockets sid roomId name (Relay.sockets w) in
  Registry.inherited (Relay.rooms w) roomId = false →
  (Relay.on_join_room sid (Some p) e w).1 = Relay.Normal tt
  ∧ Relay.rooms w' = Registry.added (Relay.rooms w) roomId name
  ∧ Relay.sockets w' = socks
  ∧ Relay.db w' = Relay.db w
  ∧ participants = Some <$> Registry.names (Relay.rooms w') roomId
  ∧ Some name ∈ participants
  ∧ new = [Relay.RegistryAdd roomId name;
           Relay.Emit {[sid]} (Relay.Joined roomId participants);
           Relay.Emit (Relay.members socks roomId ∖ {[sid]})
                      (Relay.UserJoined name participants)]
          ++ match Relay.store_fault e with
             | None =>
                 (λ m, Relay.Emit {[sid]} (Relay.chat_message_of m))
                   <$> Store.getRecentMessages (Relay.db w) roomId
                                               (Some 50%nat)
             | Some err =>
                 [Relay.Emit {[sid]}
                    (Relay.ErrorMessage ("join-room failed: " +:+ err))]
             end.
Proof.
  intros roomId name w' new participants socks Hinh.
  assert (Registry.inherited (Registry.added (Relay.rooms w) roomId name)
                             roomId = false) as Hinh'.
  { eapply inherited_own. unfold Registry.added. apply lookup_insert_eq. }
  assert (Some name
          ∈ Some <$> Registry.names
                       (Registry.added (Relay.rooms w) roomId name) roomId)
    as Hin.
  { apply list_elem_of_fmap. exists name. split; [done|].
    rewrite names_added, decide_True by done.
    apply elem_of_set_add. by left. }
  destruct (Relay.store_fault e) as [err|] eqn:Hfault.
  - pose proof (on_join_room_query_failed sid p e w err Hinh Hfault)
      as Heval. cbv zeta in Heval. fold roomId name socks in Heval.
    assert (Relay.rooms w' = Registry.added (Relay.rooms w) roomId name)
      as Hrooms by (subst w'; by rewrite Heval).
    assert (participants = Some <$> Registry.names (Relay.rooms w') roomId)
      as Hpart.
    { subst participants. rewrite Hrooms. by apply listParticipants_eq. }
    split_and!; try (subst w'; by rewrite Heval); try done.
    + rewrite Hpart, Hrooms. exact Hin.
    + subst new participants. rewrite Hrooms.
      apply effects_of_app. by rewrite Heval.
  - pose proof (on_join_room_eval sid p e w Hinh Hfault) as Heval.
    cbv zeta in Heval. fold roomId name socks in Heval.
    assert (Relay.rooms w' = Registry.added (Relay.rooms w) roomId name)
      as Hrooms by (subst w'; by rewrite Heval).
    assert (participants = Some <$> Registry.names (Relay.rooms w') roomId)
      as Hpart.
    { subst participants. rewrite Hrooms. by apply listParticipants_eq. }
    split_and!; try (subst w'; by rewrite Heval); try done.
    + rewrite Hpart, Hrooms. exact Hin.
    + subst new participants. rewrite Hrooms.
      apply effects_of_app. by rewrite Heval.
Qed.

(** C5, as stated, fails: cat joins room-X, where ann and bob are and one
    message is stored, while the storage layer fails.  The participant is
    added and [joined] and [user-joined] are sent, but the history query
    throws inside the [try]: no message is replayed, and the requester
    receives [error-message] instead. *)
Lemma join_without_replay :
  let w := Scenario.third_connected in
  let e := Scenario.env_with "u2" 1700000000002%Z (Some "disk I/O error") in
  let new := Relay.effects_of
               (Relay.on_join_room "C" (Some Scenario.cat_joins) e) w in
  Store.getRecentMessages (Relay.db w) "room-X" (Some 50%nat) ≠ []
  ∧ new
    = [Relay.RegistryAdd "room-X" "cat";
       Relay.Emit {["C"]}
         (Relay.Joined "room-X" [Some "ann"; Some "bob"; Some "cat"]);
       Relay.Emit {["A"; "B"]}
         (Relay.UserJoined "cat" [Some "ann"; Some "bob"; Some "cat"]);
       Relay.Emit {["C"]}
         (Relay.ErrorMessage "join-room failed: disk I/O error")]
  ∧ Relay.inbox "C" new
    = [Relay.Joined "room-X" [Some "ann"; Some "bob"; Some "cat"];
       Relay.ErrorMessage "join-room failed: disk I/O error"].
Proof. split_and!; [discriminate | reflexivity | reflexivity]. Qed.

(** C5, amended.  For every join that carries a payload object and whose
    room id names no member of [Object.prototype] (with [roomId] and [name]
    the normalized room id and username): the listener first adds the
    participant to the registry, then emits [joined], carrying the room id
    and the participant list after the add, to the requesting connection
    only, then [user-joined], carrying the name and the same list, to the
    other connections in the room and not to the requester.  Then, when the
    history query answers, it replays the room's recent history, message by
    message and oldest first, to the requesting connection only; when the
    query throws, it replays nothing and sends [error-message] with
    [join-room failed: ] and the error to the requesting connection only.
    Every other member of the room receives [user-joined] alone, everyone
    else nothing; the store is unchanged. *)
Theorem join_side_effects_in_order
    (sid : string) (p : Relay.join_payload) (e : Relay.env)
    (w : Relay.world) :
  let roomId := Js.or_lit (Relay.join_roomId p) (Relay.mint_room_id e) in
  let name := Relay.sanitize_username (Relay.join_username p) in
  let w' := (Relay.on_join_room sid (Some p) e w).2 in
  let new := Relay.effects_of (Relay.on_join_room sid (Some p) e) w in
  let participants := Registry.listParticipants (Relay.rooms w') roomId in
  let history := Store.getRecentMessages (Relay.db w) roomId (Some 50%nat) in
  let last :=
    match Relay.store_fault e with
    | None => Relay.chat_message_of <$> history
    | Some err => [Relay.ErrorMessage ("join-room failed: " +:+ err)]
    end in
  Js.object_prototype roomId = None →
  ∃ others : gset string,
    Registry.addParticipant (Relay.rooms w) roomId name
    = inr (Relay.rooms w')
    ∧ Some name ∈ participants
    ∧ new = [Relay.RegistryAdd roomId name;
             Relay.Emit {[sid]} (Relay.Joined roomId participants);
             Relay.Emit others (Relay.UserJoined name participants)]
            ++ (Relay.Emit {[sid]} <$> last)
    ∧ (∀ sid', sid' ∈ others
               ↔ sid' ≠ sid ∧ sid' ∈ Relay.members (Relay.sockets w) roomId)
    ∧ Relay.inbox sid new = Relay.Joined roomId participants :: last
    ∧ (∀ sid', sid' ≠ sid →
         Relay.inbox sid' new
         = if decide (sid' ∈ Relay.members (Relay.sockets w) roomId)
           then [Relay.UserJoined name participants] else [])
    ∧ Relay.db w' = Relay.db w.
Proof.
  intros roomId name w' new participants history last Hord.
  pose proof (inherited_ordinary (Relay.rooms w) roomId Hord) as Hinh.
  destruct (on_join_room_effects sid p e w Hinh)
    as (_ & Hrooms & _ & Hdb & _ & Hname & Hnew).
  fold roomId name w' new participants history in Hrooms, Hdb, Hname, Hnew.
  set (socks := Relay.joined_sockets sid roomId name (Relay.sockets w))
    in Hnew.
  assert (match Relay.store_fault e with
          | None =>
              (λ m, Relay.Emit {[sid]} (Relay.chat_message_of m)) <$> history
          | Some err =>
              [Relay.Emit {[sid]}
                 (Relay.ErrorMessage ("join-room failed: " +:+ err))]
          end = Relay.Emit {[sid]} <$> last) as Hlast.
  { subst last. destruct (Relay.store_fault e); [done|].
    by rewrite <- list_fmap_compose. }
  rewrite Hlast in Hnew.
  exists (Relay.members socks roomId ∖ {[sid]}).
  split_and!; [ | exact Hname | exact Hnew | | | | exact Hdb].
  - rewrite addParticipant_eq, Hinh. by rewrite Hrooms.
  - intros sid'. apply members_joined_others.
  - rewrite Hnew, inbox_app, (inbox_emit_self sid sid id).
    rewrite decide_True by done. simpl.
    rewrite bool_decide_eq_true_2 by (by apply elem_of_singleton).
    rewrite bool_decide_eq_false_2; [by rewrite list_fmap_id|].
    rewrite elem_of_difference, elem_of_singleton. tauto.
  - intros sid' Hne.
    rewrite Hnew, inbox_app, (inbox_emit_self sid sid' id).
    rewrite decide_False by done. rewrite app_nil_r. simpl.
    rewrite bool_decide_eq_false_2 by (by rewrite elem_of_singleton).
    pose proof (members_joined_others sid roomId name (Relay.sockets w) sid')
      as Hmem. fold socks in Hmem.
    case_bool_decide as Hin; case_decide as Hin'; [done | | | done].
    + apply Hmem in Hin. tauto.
    + exfalso. apply Hin, Hmem. done.
Qed.

(** Cat joins room-X, where ann and bob are and one message is stored. *)
Lemma join_side_effects_in_order_witness :
  let w := Scenario.third_connected in
  let new := Relay.effects_of
               (Relay.on_join_room "C" (Some Scenario.cat_joins)
                                   Scenario.quiet_env) w in
  Relay.inbox "C" new
  = [Relay.Joined "room-X" [Some "ann"; Some "bob"; Some "cat"];
     Relay.ChatMessage "msg-u1" "ann" "hello" 1700000000001%Z "text"
                       None None]
  ∧ Relay.inbox "B" new
    = [Relay.UserJoined "cat" [Some "ann"; Some "bob"; Some "cat"]].
Proof.
  intros w new.
  destruct (join_side_effects_in_order "C" Scenario.cat_joins
              Scenario.quiet_env w eq_refl)
    as (others & _ & _ & _ & _ & Hself & Hother & _).
  split.
  - exact Hself.
  - exact (Hother "B" ltac:(discriminate)).
Defined.

(** C8, as stated, fails.  When [Math.random()] returns 0.5 the base-36
    numeral is [0.i], [slice(2, 9)] has one character to take, and the room
    id minted for a join without room id is [room-I], not [room-] followed
    by seven characters.  Moreover a username of blanks only (three spaces,
    which [trim] empties) is truthy: it is registered as it is, not
    replaced by [Anonymous].  And when the storage layer fails, the
    requester is told [join-room failed] right after [joined]. *)
Lemma join_token_shorter_than_seven :
  Js.unit_fraction36 (Relay.random36 Scenario.half_env) = true
  ∧ Relay.inbox "A"
      (Relay.effects_of
         (Relay.on_join_room "A" (Some (Scenario.join_anywhere "ann"))
                             Scenario.half_env)
         Scenario.one_connected)
    = [Relay.Joined "room-I" [Some "ann"]]
  ∧ (¬ ∃ token,
         Relay.mint_room_id Scenario.half_env = "room-" +:+ token
         ∧ String.length token = 7%nat)
  ∧ Js.trim "   " = ""
  ∧ Relay.sanitize_username (Some "   ") = "   "
  ∧ Relay.inbox "A"
      (Relay.effects_of
         (Relay.on_join_room "A" (Some (Scenario.join_anywhere "   "))
                             Scenario.half_env)
         Scenario.one_connected)
    = [Relay.Joined "room-I" [Some "   "]]
  ∧ Relay.inbox "A"
      (Relay.effects_of
         (Relay.on_join_room "A" (Some (Scenario.join_anywhere "ann"))
            (Scenario.env_with "u0" 1700000000000%Z
                               (Some "disk I/O error")))
         Scenario.one_connected)
    = [Relay.Joined "room-4FZYO82" [Some "ann"];
       Relay.ErrorMessage "join-room failed: disk I/O error"].
Proof.
  split; [reflexivity|]. split; [reflexivity|].
  split; [|split_and!; reflexivity].
  intros (token & Hid & Hlen).
  change (Relay.mint_room_id Scenario.half_env) with ("room-" +:+ "I") in Hid.
  apply (inj (String.append "room-")) in Hid. subst token. discriminate Hlen.
Qed.

(** C8, amended.  A join event that carries a payload object, and whose
    room id names no member of [Object.prototype], is never rejected: the
    listener returns normally, registers the participant and sends
    [joined] to the requester first, with the normalized values; it sends
    no [error-message] unless the history query that follows throws.  An
    absent or empty username becomes [Anonymous]; any other username, one
    of blanks only included, is cut to its first 48 characters.  A
    non-empty room id is used as it is; when the room id is absent or empty
    the server mints [room-] followed by the upper-cased characters 2 to 8
    of the base-36 numeral of a random fraction: at most 7 characters,
    exactly 7 when the numeral has at least 7 digits after the point, all
    of them upper-case base-36 digits. *)
Theorem join_normalizes_input
    (sid : string) (p : Relay.join_payload) (e : Relay.env)
    (w : Relay.world) :
  let roomId := Js.or_lit (Relay.join_roomId p) (Relay.mint_room_id e) in
  let name := Relay.sanitize_username (Relay.join_username p) in
  let token := Js.toUpperCase (Js.slice 2 9 (Relay.random36 e)) in
  let w' := (Relay.on_join_room sid (Some p) e w).2 in
  let new := Relay.effects_of (Relay.on_join_room sid (Some p) e) w in
  Js.object_prototype roomId = None →
  ((Relay.on_join_room sid (Some p) e w).1 = Relay.Normal tt
   ∧ Some name ∈ Registry.listParticipants (Relay.rooms w') roomId
   ∧ head (Relay.inbox sid new)
     = Some (Relay.Joined roomId
               (Registry.listParticipants (Relay.rooms w') roomId))
   ∧ (Relay.store_fault e = None →
      ∀ to message, Relay.Emit to (Relay.ErrorMessage message) ∉ new))
  ∧ (Js.truthy (Relay.join_username p) = false → name = "Anonymous")
  ∧ (∀ u, Relay.join_username p = Some u → u ≠ "" →
       name = Js.slice 0 48 u
       ∧ String.length name = Nat.min 48 (String.length u)
       ∧ u = name +:+ Js.drop 48 u)
  ∧ (∀ r, Relay.join_roomId p = Some r → r ≠ "" → roomId = r)
  ∧ (Js.truthy (Relay.join_roomId p) = false →
       roomId = "room-" +:+ token
       ∧ (String.length token ≤ 7)%nat
       ∧ ((9 ≤ String.length (Relay.random36 e))%nat →
          String.length token = 7%nat)
       ∧ (Js.unit_fraction36 (Relay.random36 e) = true →
          Js.all_chars Js.is_base36_upper token = true)).
Proof.
  intros roomId name token w' new Hord.
  pose proof (inherited_ordinary (Relay.rooms w) roomId Hord) as Hinh.
  destruct (on_join_room_effects sid p e w Hinh)
    as (Hret & _ & _ & _ & _ & Hname & Hnew).
  fold roomId name w' new in Hname, Hnew.
  split_and!.
  - exact Hret.
  - exact Hname.
  - rewrite Hnew. simpl.
    by rewrite bool_decide_eq_true_2 by (by apply elem_of_singleton).
  - intros Hfault to message. rewrite Hnew, Hfault.
    rewrite elem_of_app, !elem_of_cons, list_elem_of_fmap.
    intros [[H|[H|[H|H]]]|(m & H & _)]; try discriminate H.
    by apply not_elem_of_nil in H.
  - intros Hu. subst name. unfold Relay.sanitize_username. rewrite Hu.
    by apply or_lit_falsy.
  - intros u Hu Hne. subst name. rewrite Hu, sanitize_username_some by done.
    split_and!; [done| |].
    + rewrite slice_length. lia.
    + apply (take_drop_string 48 u).
  - intros r Hr Hne. subst roomId. by apply or_lit_truthy.
  - intros Hr. subst roomId token. rewrite or_lit_falsy by done.
    split_and!; [done | | |].
    + rewrite toUpperCase_length, slice_length. lia.
    + intros Hlen. rewrite toUpperCase_length, slice_length. lia.
    + apply token_base36.
Qed.

(** A join without room id, under a random numeral with 11 digits after the
    point. *)
Lemma join_normalizes_input_witness :
  Js.truthy (Relay.join_roomId (Scenario.join_anywhere "ann")) = false
  ∧ Js.or_lit (Relay.join_roomId (Scenario.join_anywhere "ann"))
              (Relay.mint_room_id Scenario.quiet_env)
    = "room-4FZYO82"
  ∧ Relay.sanitize_username
      (Relay.join_username (Scenario.join_anywhere "ann")) = "ann".
Proof.
  destruct (join_normalizes_input "A" (Scenario.join_anywhere "ann")
              Scenario.quiet_env Scenario.one_connected eq_refl)
    as (_ & _ & Hname & _ & Hmint).
  split; [reflexivity|]. split.
  - exact (proj1 (Hmint eq_refl)).
  - exact (proj1 (Hname "ann" eq_refl ltac:(discriminate))).
Defined.

Section leave_twice.
Import Relay.

Lemma removed_nullable_idemp
    (reg : gmap string (list string)) r name :
  Js.truthy name = true →
  Registry.removed_nullable (Registry.removed_nullable reg r name) r name
  = Registry.removed_nullable reg r name.
Proof.
  intros (n & -> & _)%truthy_true. apply removed_idemp.
Qed.

Lemma not_member_after_leave sid r (socks : gmap string socket) :
  sid ∉ members (left_sockets sid r socks) r.
Proof.
  rewrite elem_of_members. unfold left_sockets.
  intros (s & Hs & Hr). rewrite lookup_alter_eq in Hs.
  destruct (socks !! sid) as [s0|]; [|done]. injection Hs as <-.
  simpl in Hr. apply elem_of_set_delete in Hr. tauto.
Qed.

(** The state an [end-session] that resolves a room and a name leaves
    behind, whether [removeParticipant] returned or threw. *)
Lemma on_end_session_state sid payload p w :
  let r := default "" (leave_room w sid p) in
  let name := leave_name w sid p in
  let w1 := (on_end_session sid payload w).2 in
  Js.default_param no_leave payload = Some p →
  Js.truthy (leave_room w sid p) && Js.truthy name = true →
  db w1 = db w
  ∧ sockets w1 = left_sockets sid r (sockets w)
  ∧ rooms w1 = (if Registry.inherited (rooms w) r then rooms w
                else Registry.removed_nullable (rooms w) r name)
  ∧ leave_room w1 sid p = leave_room w sid p
  ∧ leave_name w1 sid p = name.
Proof.
  intros r name w1 Hp Hres.
  assert (db w1 = db w ∧ sockets w1 = left_sockets sid r (sockets w)
          ∧ rooms w1 = (if Registry.inherited (rooms w) r then rooms w
                        else Registry.removed_nullable (rooms w) r name))
    as (Hdb & Hsocks & Hrooms).
  { subst w1. destruct (Registry.inherited (rooms w) r) eqn:Hinh.
    - by rewrite (on_end_session_inherited sid payload p w Hp Hres Hinh).
    - by rewrite (on_end_session_eval sid payload p w Hp Hres Hinh). }
  split_and!; [done | done | done | |].
  - unfold leave_room. by rewrite Hsocks, roomId_of_left.
  - subst name. unfold leave_name. by rewrite Hsocks, username_of_left.
Qed.

(** The second of two identical [end-session] events in a row leaves the
    state as the first left it. *)
Lemma on_end_session_again_state sid payload p w :
  let w1 := (on_end_session sid payload w).2 in
  let w2 := (on_end_session sid payload w1).2 in
  Js.default_param no_leave payload = Some p →
  Js.truthy (leave_room w sid p) && Js.truthy (leave_name w sid p) = true →
  rooms w2 = rooms w1 ∧ sockets w2 = sockets w1 ∧ db w2 = db w1.
Proof.
  intros w1 w2 Hp Hres.
  destruct (on_end_session_state sid payload p w Hp Hres)
    as (Hdb & Hsocks & Hrooms & Hroom & Hname).
  fold w1 in Hdb, Hsocks, Hrooms, Hroom, Hname.
  assert (Js.truthy (leave_room w1 sid p)
          && Js.truthy (leave_name w1 sid p) = true) as Hres1.
  { by rewrite Hroom, Hname. }
  destruct (on_end_session_state sid payload p w1 Hp Hres1)
    as (Hdb2 & Hsocks2 & Hrooms2 & _ & _).
  fold w2 in Hdb2, Hsocks2, Hrooms2.
  rewrite Hroom in Hsocks2. rewrite Hroom, Hname in Hrooms2.
  split_and!; [| | congruence].
  - rewrite Hrooms2.
    destruct (Registry.inherited (rooms w1) _) eqn:Hinh1; [done|].
    rewrite Hrooms in Hinh1 |- *.
    destruct (Registry.inherited (rooms w) _) eqn:Hinh; [congruence|].
    apply removed_nullable_idemp.
    by apply andb_true_iff in Hres as [_ ?].
  - rewrite Hsocks2, Hsocks. apply left_sockets_idemp.
Qed.

(** What the second event emits, in a room whose id names no member of
    [Object.prototype]. *)
Lemma on_end_session_again sid payload p w :
  let r := default "" (leave_room w sid p) in
  let name := leave_name w sid p in
  let w1 := (on_end_session sid payload w).2 in
  let participants := Registry.listParticipants (rooms w1) r in
  Js.default_param no_leave payload = Some p →
  Js.truthy (leave_room w sid p) && Js.truthy name = true →
  Js.object_prototype r = None →
  effects_of (on_end_session sid payload) w1
  = [RegistryRemove r name;
     Emit (members (sockets w1) r) (Participants participants);
     Emit (members (sockets w1) r) (UserLeft name participants)].
Proof.
  intros r name w1 participants Hp Hres Hord.
  destruct (on_end_session_state sid payload p w Hp Hres)
    as (_ & Hsocks & Hrooms & Hroom & Hname).
  fold r name w1 in Hsocks, Hrooms, Hroom, Hname.
  rewrite (inherited_ordinary _ _ Hord) in Hrooms.
  assert (Js.truthy (leave_room w1 sid p)
          && Js.truthy (leave_name w1 sid p) = true) as Hres1.
  { by rewrite Hroom, Hname. }
  pose proof (on_end_session_eval sid payload p w1 Hp Hres1) as Hsecond.
  cbv zeta in Hsecond. rewrite Hroom, Hname in Hsecond.
  fold r in Hsecond.
  specialize (Hsecond (inherited_ordinary _ _ Hord)).
  assert (Registry.removed_nullable (rooms w1) r name = rooms w1) as Hreg.
  { rewrite Hrooms. apply removed_nullable_idemp.
    by apply andb_true_iff in Hres as [_ ?]. }
  assert (left_sockets sid r (sockets w1) = sockets w1) as Hleft.
  { rewrite Hsocks. apply left_sockets_idemp. }
  rewrite Hreg, Hleft in Hsecond.
  apply effects_of_app. by rewrite Hsecond.
Qed.

End leave_twice.

(** C7, as stated, fails: with ann and bob in room-X, connection A sends
    [end-session] for ann twice in a row.  The second event leaves the
    registry as it was, but bob's connection receives [participants] and
    [user-left] again. *)
Lemma second_end_session_notifies_again :
  let leave := Js.Obj (Scenario.leave_as "room-X" "ann") in
  let w1 := Scenario.after_leave in
  let w2 := (Relay.on_end_session "A" leave w1).2 in
  Relay.inbox "B" (Relay.effects_of (Relay.on_end_session "A" leave)
                                    Scenario.two_in_room)
  = [Relay.Participants [Some "bob"];
     Relay.UserLeft (Some "ann") [Some "bob"]]
  ∧ Relay.rooms w2 = Relay.rooms w1
  ∧ Relay.inbox "B" (Relay.effects_of (Relay.on_end_session "A" leave) w1)
    = [Relay.Participants [Some "bob"];
       Relay.UserLeft (Some "ann") [Some "bob"]]
  ∧ filter (λ ev, Relay.is_user_left ev = true)
      (Relay.inbox "B"
         (Relay.effects_of (Relay.on_end_session "A" leave) w1))
    ≠ [].
Proof. split_and!; [reflexivity | reflexivity | reflexivity | discriminate]. Qed.

(** C7, amended.  When [end-session] is handled twice in a row for the same
    connection and the same payload other than [null] ([p] is the payload
    object, [{}] when the event carries none), the second run changes
    neither the registry nor the connections nor the store; when the event
    resolves no room or no name it does nothing at all; when it resolves
    both and the room id names no member of [Object.prototype], it emits
    [participants] and [user-left], carrying the unchanged participant
    list, once more to exactly the connections still in the room, so nobody
    is notified only when no connection is left there; the leaving
    connection itself receives nothing.  For such a room id
    [removeParticipant] is idempotent: removing a name a second time, a
    name that is not in the room, or from a room that is not in the
    registry, returns and changes nothing. *)
Theorem second_end_session_keeps_state
    (sid : string) (payload : Js.arg Relay.leave_payload)
    (p : Relay.leave_payload) (w : Relay.world) :
  let r := default "" (Relay.leave_room w sid p) in
  let name := Relay.leave_name w sid p in
  let resolved := Js.truthy (Relay.leave_room w sid p) && Js.truthy name in
  let w1 := (Relay.on_end_session sid payload w).2 in
  let w2 := (Relay.on_end_session sid payload w1).2 in
  let new := Relay.effects_of (Relay.on_end_session sid payload) w1 in
  let participants := Registry.listParticipants (Relay.rooms w1) r in
  Js.default_param Relay.no_leave payload = Some p →
  (Relay.rooms w2 = Relay.rooms w1
   ∧ Relay.sockets w2 = Relay.sockets w1
   ∧ Relay.db w2 = Relay.db w1)
  ∧ (resolved = false → new = [])
  ∧ (resolved = true → Js.object_prototype r = None →
       Relay.inbox sid new = []
       ∧ ∀ sid', Relay.inbox sid' new
                 = if decide (sid' ∈ Relay.members (Relay.sockets w1) r)
                   then [Relay.Participants participants;
                         Relay.UserLeft name participants]
                   else [])
  ∧ (∀ reg room n,
       Js.object_prototype room = None →
       ∃ reg1,
         Registry.removeParticipant reg room n = inr reg1
         ∧ Registry.removeParticipant reg1 room n = inr reg1)
  ∧ (∀ reg room n,
       Js.object_prototype room = None →
       reg !! room = None → Registry.removeParticipant reg room n = inr reg)
  ∧ (∀ reg room n,
       Js.object_prototype room = None →
       Registry.no_empty_room reg →
       Some n ∉ Registry.listParticipants reg room →
       Registry.removeParticipant reg room n = inr reg).
Proof.
  intros r name resolved w1 w2 new participants Hp.
  assert (∀ sid', Relay.inbox sid'
            [Relay.RegistryRemove r name;
             Relay.Emit (Relay.members (Relay.sockets w1) r)
                        (Relay.Participants participants);
             Relay.Emit (Relay.members (Relay.sockets w1) r)
                        (Relay.UserLeft name participants)]
          = if decide (sid' ∈ Relay.members (Relay.sockets w1) r)
            then [Relay.Participants participants;
                  Relay.UserLeft name participants]
            else []) as Hinbox.
  { intros sid'. simpl. case_bool_decide; case_decide; done. }
  assert (∀ reg room n,
            Js.object_prototype room = None →
            Registry.removeParticipant reg room n
            = inr (Registry.removed reg room n)) as Hremove.
  { intros reg room n Hord.
    by rewrite removeParticipant_eq, (inherited_ordinary _ _ Hord). }
  split; [|split; [|split; [|split_and!]]].
  - destruct resolved eqn:Hres; subst resolved.
    + apply (on_end_session_again_state sid payload p w Hp Hres).
    + pose proof (on_end_session_skip sid payload p w Hp Hres) as Hskip.
      assert (w1 = w) as Hw1 by (subst w1; by rewrite Hskip).
      subst w2. by rewrite Hw1, Hskip.
  - intros Hres. subst resolved.
    pose proof (on_end_session_skip sid payload p w Hp Hres) as Hskip.
    assert (w1 = w) as Hw1 by (subst w1; by rewrite Hskip).
    subst new. rewrite Hw1. apply effects_of_app.
    by rewrite Hskip, app_nil_r.
  - intros Hres Hord. subst resolved.
    pose proof (on_end_session_again sid payload p w Hp Hres Hord) as Hnew.
    fold r name w1 new participants in Hnew.
    rewrite Hnew. split; [|exact Hinbox].
    rewrite Hinbox. rewrite decide_False; [done|].
    destruct (on_end_session_state sid payload p w Hp Hres)
      as (_ & Hsocks & _).
    fold r w1 in Hsocks. rewrite Hsocks.
    apply not_member_after_leave.
  - intros reg room n Hord. exists (Registry.removed reg room n).
    rewrite !Hremove by done. by rewrite removed_idemp.
  - intros reg room n Hord Hnone.
    rewrite Hremove by done. by rewrite removed_absent.
  - intros reg room n Hord Hreg Hn.
    rewrite Hremove by done. rewrite removed_not_member; [done| |done].
    intros Hin. apply Hn.
    rewrite listParticipants_eq by (by apply inherited_ordinary).
    apply list_elem_of_fmap. by exists n.
Qed.

(** The second [end-session] of ann in a room where bob remains. *)
Lemma second_end_session_keeps_state_witness :
  let leave := Js.Obj (Scenario.leave_as "room-X" "ann") in
  let w1 := Scenario.after_leave in
  let w2 := (Relay.on_end_session "A" leave w1).2 in
  Relay.rooms w2 = Relay.rooms w1
  ∧ Relay.inbox "A" (Relay.effects_of (Relay.on_end_session "A" leave) w1)
    = []
  ∧ Registry.removeParticipant (∅ : gmap string (list string)) "room-X" "ann"
    = inr ∅.
Proof.
  intros leave w1 w2.
  destruct (second_end_session_keeps_state "A" leave
              (Scenario.leave_as "room-X" "ann") Scenario.two_in_room
              eq_refl)
    as ((Hrooms & _) & _ & Hemit & _ & Habsent & _).
  split; [exact Hrooms|]. split.
  - exact (proj1 (Hemit eq_refl eq_refl)).
  - apply Habsent; reflexivity.
Defined.

(** C9, as stated, fails: a [chat-message] event whose payload names the
    kind [file] is persisted as a file-kind row whose id starts with
    [msg-], not with [file-]. *)
Lemma file_kind_message_gets_msg_prefix :
  let ev := Relay.ChatMessageIn
              (Some (Scenario.share_in_message "room-X" "/uploads/a.png"
                                               "a.png")) false in
  let e := Scenario.env_with "u1" 1700000000001%Z None in
  let written :=
    Relay.writes (Relay.effects_of (Relay.handle "A" ev e)
                                   Scenario.two_in_room) in
  written
  = [{| Store.id := "msg-u1"; Store.room_id := "room-X";
        Store.username := "ann"; Store.content := "/uploads/a.png";
        Store.type := "file"; Store.filename := Some "a.png";
        Store.mime := None; Store.created_at := 1700000000001%Z |}]
  ∧ ¬ ∀ r, r ∈ written →
        (Store.type r = "file" → Js.take 5 (Store.id r) = "file-").
Proof.
  split; [reflexivity|]. intros H.
  specialize (H _ (list_elem_of_here _ _) eq_refl). discriminate H.
Qed.

(** C9, amended.  Every row the core persists is written by a send listener
    or by the file listener while it handles one event.  Its id is made on
    the server from the listener's prefix and the server's uuid, with no
    part of the payload in it: [msg-] for the send listeners, whatever kind
    the payload names (the row's kind is the payload's, [text] when it names
    none), [file-] for the file listener, whose rows are of kind [file].
    Its [created_at] is the server's clock reading of that event.  A step
    only appends the rows it writes, so a row is never rewritten; and in
    every store reachable from the empty one the ids are pairwise
    distinct. *)
Theorem persisted_ids_made_by_server :
  (∀ sid ev e w r,
     r ∈ Relay.writes (Relay.effects_of (Relay.handle sid ev e) w) →
     Relay.written_by ev e r)
  ∧ (∀ sid ev e w,
       Relay.db (Relay.step w (sid, ev, e))
       = Relay.db w
         ++ Relay.writes (Relay.effects_of (Relay.handle sid ev e) w))
  ∧ (∀ evs, Store.store_wf (Relay.db (Relay.run evs Relay.initial))).
Proof.
  split_and!.
  - intros sid ev e w r Hr.
    destruct (tracked_handle sid ev e w) as (l & Hl & _ & Hp & _).
    rewrite (effects_of_app _ _ _ Hl) in Hr.
    by apply (proj1 (Forall_forall _ _) Hp).
  - intros sid ev e w.
    destruct (tracked_handle sid ev e w) as (l & Hl & Hd & _ & _).
    by rewrite (effects_of_app _ _ _ Hl).
  - intros evs. induction evs as [|x evs IH] using rev_ind.
    + apply NoDup_nil_2.
    + rewrite run_snoc_world. by apply step_store_wf.
Qed.

(** The row written when ann says hello. *)
Lemma persisted_ids_made_by_server_witness :
  let ev := Relay.ChatMessageIn (Some (Scenario.say "room-X" "hello")) true in
  let e := Scenario.env_with "u1" 1700000000001%Z None in
  let r := Store.bound_row
             (Relay.send_message Scenario.two_in_room "A"
                                 (Scenario.say "room-X" "hello") e)
             1700000000001%Z in
  r ∈ Relay.writes (Relay.effects_of (Relay.handle "A" ev e)
                                     Scenario.two_in_room)
  ∧ Store.id r = "msg-u1"
  ∧ Store.created_at r = 1700000000001%Z.
Proof.
  intros ev e r.
  assert (r ∈ Relay.writes (Relay.effects_of (Relay.handle "A" ev e)
                                             Scenario.two_in_room)) as Hr.
  { apply list_elem_of_here. }
  split; [exact Hr|].
  destruct (proj1 persisted_ids_made_by_server "A" ev e
              Scenario.two_in_room r Hr) as [Hclock [Hid _]].
  split; [exact Hid | exact Hclock].
Defined.

(** C2, on the code: a client joins the room it names [constructor].
    [rooms] is a plain object, so [rooms['constructor']] reads the function
    [Object.prototype.constructor].  [addParticipant] keeps that value,
    which is truthy, in place of a new [Set] and throws on [.add];
    [removeParticipant] throws on [.delete].  The name has been added to
    the room by a call that no later call undid, yet the registry never
    holds it: the listener has joined the connection to the transport room
    and written its session data when it answers [join-room failed], and
    the registry is as it was. *)
Theorem inherited_room_id_not_tracked :
  let ops := [Registry.Add "constructor" "ann"] in
  let join := Relay.handle "A" (Scenario.join_as "constructor" "ann")
                           Scenario.quiet_env in
  let w := Scenario.one_connected in
  Registry.joined_not_left ops "constructor" "ann"
  ∧ Registry.addParticipant ∅ "constructor" "ann"
    = inl "rooms[roomId].add is not a function"
  ∧ Registry.removeParticipant ∅ "constructor" "ann"
    = inl "rooms[roomId].delete is not a function"
  ∧ (Some "ann"
     ∉ Registry.listParticipants (Registry.run ops ∅) "constructor")
  ∧ Relay.rooms (join w).2 = Relay.rooms w
  ∧ Relay.members (Relay.sockets (join w).2) "constructor" = {["A"]}
  ∧ Relay.roomId_of (Relay.sockets (join w).2) "A" = Some "constructor"
  ∧ (Some "ann"
     ∉ Registry.listParticipants (Relay.rooms (join w).2) "constructor")
  ∧ Relay.effects_of join w
    = [Relay.Emit {["A"]}
         (Relay.ErrorMessage
            "join-room failed: rooms[roomId].add is not a function")].
Proof.
  intros ops join w. split_and!; try reflexivity.
  - exists [], []. split; [done | apply not_elem_of_nil].
  - change (Registry.listParticipants (Registry.run ops ∅) "constructor")
      with [@None string].
    by intros [=]%list_elem_of_singleton.
  - change (Registry.listParticipants (Relay.rooms (join w).2) "constructor")
      with [@None string].
    by intros [=]%list_elem_of_singleton.
Qed.


(** C6, on the code: two messages of room-X are stored one after the other
    within the same millisecond.  The query orders by [created_at] alone;
    the scan of the index returns the two rows in insertion order and
    [rows.reverse()] turns them round, so [getRecentMessages] lists the
    message inserted second before the message inserted first.  The SQL
    text itself asks for no order between the two: both orders are
    newest-first retrievals of the room. *)
Theorem same_millisecond_burst_listed_in_reverse :
  let db := [Scenario.burst_first; Scenario.burst_second] in
  Store.storeMessage [] Scenario.burst_first 1700000000000%Z None
  = inr [Scenario.burst_first]
  ∧ Store.storeMessage [Scenario.burst_first] Scenario.burst_second
                       1700000000000%Z None
    = inr db
  ∧ Store.created_at Scenario.burst_first
    = Store.created_at Scenario.burst_second
  ∧ Store.inserted_before db Scenario.burst_first Scenario.burst_second
  ∧ Store.getRecentMessages db "room-X" (Some 50%nat)
    = [Scenario.burst_second; Scenario.burst_first]
  ∧ Store.listed_before (Store.getRecentMessages db "room-X" (Some 50%nat))
                        Scenario.burst_second Scenario.burst_first
  ∧ Store.newest_first db "room-X"
      [Scenario.burst_first; Scenario.burst_second]
  ∧ Store.newest_first db "room-X"
      [Scenario.burst_second; Scenario.burst_first].
Proof.
  intros db. split_and!; try reflexivity.
  - repeat constructor.
  - repeat constructor.
  - split; [reflexivity|].
    repeat constructor; unfold Store.newer_or_equal; simpl; lia.
  - split; [apply Permutation_swap|].
    repeat constructor; unfold Store.newer_or_equal; simpl; lia.
Qed.

(** * Further properties of the code *)

Section registry_more.
Import Registry.
Implicit Types (reg : gmap string (list string)) (r n : string).

Lemma set_add_member n (s : list string) : n ∈ s → set_add n s = s.
Proof. intros H. unfold set_add. by rewrite bool_decide_eq_true_2. Qed.

Lemma set_add_fresh n (s : list string) : n ∉ s → set_add n s = s ++ [n].
Proof. intros H. unfold set_add. by rewrite bool_decide_eq_false_2. Qed.

Lemma set_delete_add_fresh n (s : list string) :
  n ∉ s → set_delete n (set_add n s) = s.
Proof.
  intros H. rewrite set_add_fresh by done. unfold set_delete.
  rewrite filter_app, filter_cons_False, filter_nil, app_nil_r by (by intros ?).
  by apply set_delete_not_member.
Qed.

Lemma removed_added reg r n :
  no_empty_room reg → n ∉ names reg r → removed (added reg r n) r n = reg.
Proof.
  intros Hreg Hn. unfold removed, added.
  rewrite lookup_insert_eq. simpl.
  unfold names in Hn.
  destruct (reg !! r) as [s|] eqn:Hs; simpl.
  - rewrite set_delete_add_fresh by done.
    destruct s as [|x s]; [by apply Hreg in Hs|]. simpl.
    rewrite insert_insert_eq. by apply insert_id.
  - rewrite set_delete_add_fresh by done. simpl.
    rewrite delete_insert_eq. by apply delete_id.
Qed.

Lemma listParticipants_added_ne reg r n r' :
  r' ≠ r → listParticipants (added reg r n) r' = listParticipants reg r'.
Proof.
  intros Hr. unfold listParticipants, lookup, added.
  by rewrite lookup_insert_ne.
Qed.

Lemma elem_of_listParticipants reg r n :
  Js.object_prototype r = None →
  Some n ∈ listParticipants reg r ↔ n ∈ names reg r.
Proof.
  intros Hord. rewrite listParticipants_eq by (by apply inherited_ordinary).
  rewrite list_elem_of_fmap. split.
  - by intros (n' & [= <-] & Hn).
  - intros Hn. by exists n.
Qed.

(** X1.  For a room id that names no member of [Object.prototype],
    [addParticipant] returns and adds to a set kept in insertion order:
    adding a name twice is the same as adding it once, a name already in
    the room leaves the listing as it was, a new name is listed last, and
    the listing of every other room is unchanged. *)
Theorem addParticipant_idempotent_keeps_order reg r n :
  Js.object_prototype r = None →
  ∃ reg1,
    addParticipant reg r n = inr reg1
    ∧ addParticipant reg1 r n = inr reg1
    ∧ (Some n ∈ listParticipants reg r →
       listParticipants reg1 r = listParticipants reg r)
    ∧ (Some n ∉ listParticipants reg r →
       listParticipants reg1 r = listParticipants reg r ++ [Some n])
    ∧ (∀ r', r' ≠ r → listParticipants reg1 r' = listParticipants reg r').
Proof.
  intros Hord. exists (added reg r n).
  rewrite !addParticipant_eq, !(inherited_ordinary _ _ Hord).
  rewrite !listParticipants_eq by (by apply inherited_ordinary).
  split_and!.
  - done.
  - f_equal. unfold added. rewrite lookup_insert_eq. simpl.
    rewrite insert_insert_eq. f_equal.
    apply set_add_member, elem_of_set_add. by left.
  - intros H. rewrite names_added, decide_True by done.
    f_equal. apply set_add_member.
    apply list_elem_of_fmap in H as (n' & [= <-] & H). done.
  - intros H. rewrite names_added, decide_True by done.
    rewrite set_add_fresh; [by rewrite fmap_app|].
    intros Hn. apply H, list_elem_of_fmap. by exists n.
  - intros r' Hr. by apply listParticipants_added_ne.
Qed.

(** bob is added to room-X, where ann is. *)
Lemma addParticipant_idempotent_keeps_order_witness :
  ∃ reg1,
    addParticipant {["room-X" := ["ann"]]} "room-X" "bob" = inr reg1
    ∧ addParticipant reg1 "room-X" "bob" = inr reg1
    ∧ listParticipants reg1 "room-X" = [Some "ann"; Some "bob"].
Proof.
  destruct (addParticipant_idempotent_keeps_order
              {["room-X" := ["ann"]]} "room-X" "bob" eq_refl)
    as (reg1 & Hadd & Hagain & _ & Hnew & _).
  exists reg1. split; [exact Hadd|]. split; [exact Hagain|].
  apply Hnew.
  change (listParticipants {["room-X" := ["ann"]]} "room-X")
    with [Some "ann"].
  by intros [=]%list_elem_of_singleton.
Defined.

(** X2.  In a registry without empty rooms and for a room id that names no
    member of [Object.prototype], [removeParticipant] undoes the
    [addParticipant] of a name that was not in the room: the registry is
    the one before the join, and a room created by the join is deleted
    again. *)
Theorem join_then_leave_restores_registry reg r n :
  Js.object_prototype r = None →
  no_empty_room reg → Some n ∉ listParticipants reg r →
  ∃ reg1,
    addParticipant reg r n = inr reg1
    ∧ removeParticipant reg1 r n = inr reg.
Proof.
  intros Hord Hreg Hn. exists (added reg r n).
  rewrite addParticipant_eq, removeParticipant_eq.
  rewrite !(inherited_ordinary _ _ Hord). split; [done|]. f_equal.
  apply removed_added; [done|]. by rewrite <- elem_of_listParticipants.
Qed.

(** bob joins and leaves room-X, where ann is; cat joins and leaves room-Y,
    which did not exist. *)
Lemma join_then_leave_restores_registry_witness :
  let reg : gmap string (list string) := {["room-X" := ["ann"]]} in
  (∃ reg1, addParticipant reg "room-X" "bob" = inr reg1
           ∧ removeParticipant reg1 "room-X" "bob" = inr reg)
  ∧ (∃ reg1, addParticipant reg "room-Y" "cat" = inr reg1
             ∧ removeParticipant reg1 "room-Y" "cat" = inr reg).
Proof.
  intros reg.
  assert (no_empty_room reg) as Hreg.
  { intros r. subst reg. destruct (decide (r = "room-X")) as [->|Hr].
    - by rewrite lookup_singleton_eq.
    - by rewrite lookup_singleton_ne. }
  split; apply join_then_leave_restores_registry;
    try exact Hreg; try reflexivity.
  - change (listParticipants reg "room-X") with [Some "ann"].
    by intros [=]%list_elem_of_singleton.
  - change (listParticipants reg "room-Y") with (@nil (option string)).
    intros []%not_elem_of_nil.
Defined.

(** X25.  For every finite sequence of [addParticipant] and
    [removeParticipant] calls on the empty registry (a call that throws
    leaves the registry as it was): for every room whose id names no member
    of [Object.prototype], the names [listParticipants] returns are exactly
    the usernames added to the room by some call that no later call removed
    from it, each listed once; a room whose set has become empty has no
    entry, so no room is ever present with an empty participant set; and
    the same holds of the registry of the server after any sequence of
    inbound events. *)
Theorem registry_tracks_joined_not_left ops :
  let rooms := run ops ∅ in
  (∀ r, Js.object_prototype r = None →
     (∀ n, Some n ∈ listParticipants rooms r ↔ joined_not_left ops r n)
     ∧ listParticipants rooms r = Some <$> names rooms r
     ∧ NoDup (listParticipants rooms r)
     ∧ (listParticipants rooms r = [] → rooms !! r = None))
  ∧ no_empty_room rooms
  ∧ (∀ evs, Relay.registry_ok (Relay.run evs Relay.initial)).
Proof.
  intros rooms. destruct (run_invariants ops) as [Hne Hnd].
  fold rooms in Hne, Hnd. split_and!; [| exact Hne | apply run_registry_ok].
  intros r Hord.
  pose proof (listParticipants_eq rooms r (inherited_ordinary _ _ Hord))
    as Hlist.
  split_and!.
  - intros n. rewrite elem_of_listParticipants by done.
    by apply elem_of_run.
  - exact Hlist.
  - rewrite Hlist. apply (NoDup_fmap_2 _). unfold names.
    destruct (rooms !! r) as [s|] eqn:Hs; [by eapply Hnd | constructor].
  - rewrite Hlist. unfold names.
    destruct (rooms !! r) as [s|] eqn:Hs; [|done].
    intros ->%fmap_nil_inv. by apply Hne in Hs.
Qed.

(** Ann and bob join room-X, ann leaves, then bob. *)
Lemma registry_tracks_joined_not_left_witness :
  let ops := [Add "room-X" "ann"; Add "room-X" "bob";
              Remove "room-X" "ann"] in
  listParticipants (run ops ∅) "room-X" = [Some "bob"]
  ∧ joined_not_left ops "room-X" "bob"
  ∧ run (ops ++ [Remove "room-X" "bob"]) ∅ !! "room-X" = None.
Proof.
  intros ops. split; [reflexivity|]. split.
  - apply (proj1 (proj1 (registry_tracks_joined_not_left ops)
                    "room-X" eq_refl)).
    apply list_elem_of_here.
  - apply (proj1 (registry_tracks_joined_not_left
                    (ops ++ [Remove "room-X" "bob"])) "room-X" eq_refl).
    reflexivity.
Defined.

(** X26.  For a room id that names no member of [Object.prototype],
    [listParticipants] returns the empty list when the room is not in the
    registry; that covers a room whose entry was deleted when its last
    participant was removed. *)
Theorem listParticipants_absent_room reg r :
  Js.object_prototype r = None →
  (reg !! r = None → listParticipants reg r = [])
  ∧ (∀ n, listParticipants reg r = [Some n] →
       ∃ reg',
         removeParticipant reg r n = inr reg'
         ∧ reg' !! r = None
         ∧ listParticipants reg' r = []).
Proof.
  intros Hord. split.
  - intros H. unfold listParticipants, lookup. by rewrite H, Hord.
  - intros n Hn. exists (removed reg r n).
    rewrite removeParticipant_eq, (inherited_ordinary _ _ Hord).
    split; [done|].
    rewrite listParticipants_eq in Hn by (by apply inherited_ordinary).
    unfold names in Hn.
    destruct (reg !! r) as [s|] eqn:Hs; [|done].
    destruct s as [|x [|y s]]; try done. injection Hn as ->.
    assert (removed reg r n !! r = None) as Hgone.
    { unfold removed. rewrite Hs. unfold set_delete.
      rewrite filter_cons_False by (by intros ?). simpl.
      apply lookup_delete_eq. }
    split; [exact Hgone|].
    unfold listParticipants, lookup. by rewrite Hgone, Hord.
Qed.

(** A room never created, and room-X after its only participant left. *)
Lemma listParticipants_absent_room_witness :
  let reg : gmap string (list string) := {["room-X" := ["ann"]]} in
  listParticipants reg "room-Y" = []
  ∧ ∃ reg', removeParticipant reg "room-X" "ann" = inr reg'
            ∧ listParticipants reg' "room-X" = [].
Proof.
  intros reg. split.
  - apply (proj1 (listParticipants_absent_room reg "room-Y" eq_refl)).
    reflexivity.
  - destruct (proj2 (listParticipants_absent_room reg "room-X" eq_refl)
                "ann" eq_refl) as (reg' & Hrem & _ & Hlist).
    by exists reg'.
Defined.

End registry_more.

Section store_more.
Import Store.
Implicit Types (db idx rows : list row) (m a b : row).

Lemma storeMessage_inr db m now fault db' :
  storeMessage db m now fault = inr db' → db' = db ++ [bound_row m now].
Proof.
  unfold storeMessage. destruct fault; [done|]. case_bool_decide; [done|].
  by intros [= <-].
Qed.

Lemma room_index_snoc_other db x roomId :
  room_id x ≠ roomId → room_index (db ++ [x]) roomId = room_index db roomId.
Proof.
  intros H. unfold room_index.
  by rewrite filter_app, filter_cons_False, filter_nil, app_nil_r.
Qed.

Lemma room_index_snoc db x :
  room_index (db ++ [x]) (room_id x) = index_insert x (room_index db (room_id x)).
Proof.
  unfold room_index.
  rewrite filter_app, filter_cons_True, filter_nil by done.
  by rewrite fold_left_app.
Qed.

Lemma index_insert_newest x idx :
  Forall (λ y, (created_at y < created_at x)%Z) idx →
  index_insert x idx = x :: idx.
Proof.
  destruct 1 as [|y idx Hy _]; simpl; [done|].
  apply Z.ltb_lt in Hy. by rewrite Hy.
Qed.

(** X3.  A message stored for one room does not change what
    [getRecentMessages] returns for any other room, whatever the limit. *)
Theorem store_leaves_other_rooms_alone db m now fault db' roomId limit :
  storeMessage db m now fault = inr db' →
  room_id m ≠ roomId →
  getRecentMessages db' roomId limit = getRecentMessages db roomId limit.
Proof.
  intros ->%storeMessage_inr Hroom.
  unfold getRecentMessages, select_recent.
  by rewrite room_index_snoc_other.
Qed.

(** A message stored for room-Y while room-X holds one message. *)
Lemma store_leaves_other_rooms_alone_witness :
  let db := [Scenario.burst_first] in
  let m := Scenario.row_at "msg-9" "room-Y" "elsewhere" 1700000000005%Z in
  getRecentMessages (db ++ [bound_row m 1700000000005%Z]) "room-X" None
  = [Scenario.burst_first].
Proof.
  intros db m.
  rewrite (store_leaves_other_rooms_alone db m 1700000000005%Z None
             (db ++ [bound_row m 1700000000005%Z]) "room-X" None).
  - reflexivity.
  - reflexivity.
  - discriminate.
Defined.

Lemma recent_snoc_newest db x limit k :
  default 50%nat limit = S k →
  (∀ y, y ∈ db → room_id y = room_id x →
        (created_at y < created_at x)%Z) →
  getRecentMessages (db ++ [x]) (room_id x) limit
  = getRecentMessages db (room_id x) (Some k) ++ [x].
Proof.
  intros Hlimit Hnew.
  unfold getRecentMessages, select_recent. rewrite Hlimit. simpl.
  rewrite room_index_snoc, index_insert_newest.
  - simpl. by rewrite reverse_cons.
  - apply Forall_forall. intros y Hy.
    apply elem_of_room_index in Hy as [Hy Hr]. by apply Hnew.
Qed.

(** X4.  When a stored message is strictly newer than every message its
    room already holds, [getRecentMessages] with a limit of at least one
    lists it last, after the listing the room had for a limit one smaller:
    the newest message ends the history and, at the limit, pushes the
    oldest listed message out. *)
Theorem stored_newest_is_listed_last db m now fault db' limit k :
  storeMessage db m now fault = inr db' →
  default 50%nat limit = S k →
  (∀ x, x ∈ db → room_id x = room_id m →
        (created_at x < created_at (bound_row m now))%Z) →
  getRecentMessages db' (room_id m) limit
  = getRecentMessages db (room_id m) (Some k) ++ [bound_row m now]
  ∧ last (getRecentMessages db' (room_id m) limit) = Some (bound_row m now).
Proof.
  intros ->%storeMessage_inr Hlimit Hnew.
  pose proof (recent_snoc_newest db (bound_row m now) limit k Hlimit Hnew)
    as Hrecent.
  change (room_id (bound_row m now)) with (room_id m) in Hrecent.
  split; [exact Hrecent|]. rewrite Hrecent. apply last_snoc.
Qed.

(** Two messages of room-X, then a third one a millisecond later, listed
    with limit 2: the first message is pushed out. *)
Lemma stored_newest_is_listed_last_witness :
  let db := [Scenario.burst_first; Scenario.burst_second] in
  let m := Scenario.row_at "msg-3" "room-X" "third" 1700000000001%Z in
  getRecentMessages (db ++ [m]) "room-X" (Some 2%nat)
  = [Scenario.burst_first; m]
  ∧ getRecentMessages db "room-X" (Some 2%nat)
    = [Scenario.burst_second; Scenario.burst_first].
Proof.
  intros db m. split; [|reflexivity].
  assert (∀ x, x ∈ db → room_id x = room_id m →
               (created_at x < created_at (bound_row m 0))%Z) as Hnew.
  { intros x Hx _. subst db.
    repeat (apply elem_of_cons in Hx as [->|Hx]; [reflexivity|]).
    by apply not_elem_of_nil in Hx. }
  exact (proj1 (stored_newest_is_listed_last db m 0%Z None (db ++ [m])
                  (Some 2%nat) 1 eq_refl eq_refl Hnew)).
Defined.

End store_more.

Section typing_facts.
Import Relay.

Lemma on_typing_eval sid payload p w :
  Js.default_param no_room payload = Some p →
  on_typing sid payload w
  = (Normal tt,
     if Js.truthy (typing_room w sid p)
     then with_log (λ l, l ++ [Emit (members (sockets w)
                                       (default "" (typing_room w sid p))
                                     ∖ {[sid]})
                                    (Typing (typing_name w sid))]) w
     else w).
Proof.
  intros Hp. unfold typing_room, typing_name. step_handler. rewrite Hp.
  by destruct (Js.truthy _).
Qed.

Lemma on_stop_typing_eval sid payload p w :
  Js.default_param no_room payload = Some p →
  on_stop_typing sid payload w
  = (Normal tt,
     if Js.truthy (typing_room w sid p)
     then with_log (λ l, l ++ [Emit (members (sockets w)
                                       (default "" (typing_room w sid p))
                                     ∖ {[sid]})
                                    (StopTyping (typing_name w sid))]) w
     else w).
Proof.
  intros Hp. unfold typing_room, typing_name. step_handler. rewrite Hp.
  by destruct (Js.truthy _).
Qed.

(** X5.  The [typing] and [stop-typing] listeners change neither store,
    registry nor connections.  Given [null] for a payload they throw in
    the parameter pattern and emit nothing.  Given an object, or nothing
    (then [{}] stands in), they return: when a room id resolves (the
    payload's, else the session's) each emits exactly one event, carrying
    the session's user name or 'Someone', to the members of that room
    other than the sender; when none resolves it emits nothing.  The
    sender and the connections outside the room receive nothing. *)
Theorem typing_relayed_to_others_only sid payload w :
  let w1 := (on_typing sid payload w).2 in
  let w2 := (on_stop_typing sid payload w).2 in
  let new1 := effects_of (on_typing sid payload) w in
  let new2 := effects_of (on_stop_typing sid payload) w in
  (db w1 = db w ∧ rooms w1 = rooms w ∧ sockets w1 = sockets w)
  ∧ (db w2 = db w ∧ rooms w2 = rooms w ∧ sockets w2 = sockets w)
  ∧ match Js.default_param no_room payload with
    | None =>
        (on_typing sid payload w).1 = Thrown cannot_destructure_null
        ∧ (on_stop_typing sid payload w).1 = Thrown cannot_destructure_null
        ∧ new1 = [] ∧ new2 = []
    | Some p =>
        let room := typing_room w sid p in
        let others := members (sockets w) (default "" room) ∖ {[sid]} in
        (on_typing sid payload w).1 = Normal tt
        ∧ (on_stop_typing sid payload w).1 = Normal tt
        ∧ new1 = (if Js.truthy room
                  then [Emit others (Typing (typing_name w sid))] else [])
        ∧ new2 = (if Js.truthy room
                  then [Emit others (StopTyping (typing_name w sid))]
                  else [])
        ∧ inbox sid new1 = [] ∧ inbox sid new2 = []
        ∧ (∀ sid', sid' ∉ members (sockets w) (default "" room) →
             inbox sid' new1 = [] ∧ inbox sid' new2 = [])
    end.
Proof.
  intros w1 w2 new1 new2.
  destruct (Js.default_param no_room payload) as [p|] eqn:Hp.
  - set (room := typing_room w sid p).
    set (others := members (sockets w) (default "" room) ∖ {[sid]}).
    pose proof (on_typing_eval sid payload p w Hp) as H1.
    pose proof (on_stop_typing_eval sid payload p w Hp) as H2.
    fold room others in H1, H2.
    assert (new1 = (if Js.truthy room
              then [Emit others (Typing (typing_name w sid))] else []))
      as Hn1.
    { subst new1. apply effects_of_app. rewrite H1.
      destruct (Js.truthy room); simpl; [done | by rewrite app_nil_r]. }
    assert (new2 = (if Js.truthy room
              then [Emit others (StopTyping (typing_name w sid))] else []))
      as Hn2.
    { subst new2. apply effects_of_app. rewrite H2.
      destruct (Js.truthy room); simpl; [done | by rewrite app_nil_r]. }
    assert (sid ∉ others) as Hself.
    { subst others. rewrite elem_of_difference, elem_of_singleton. tauto. }
    cbv zeta. fold room others. split_and!.
    1-3: subst w1; rewrite H1; by destruct (Js.truthy room).
    1-3: subst w2; rewrite H2; by destruct (Js.truthy room).
    + by rewrite H1.
    + by rewrite H2.
    + exact Hn1.
    + exact Hn2.
    + rewrite Hn1. destruct (Js.truthy room); [|done]. simpl.
      by rewrite bool_decide_eq_false_2.
    + rewrite Hn2. destruct (Js.truthy room); [|done]. simpl.
      by rewrite bool_decide_eq_false_2.
    + intros sid' Hout.
      assert (sid' ∉ others) as Hout'.
      { subst others. rewrite elem_of_difference. tauto. }
      rewrite Hn1, Hn2. destruct (Js.truthy room); [|done]. simpl.
      by rewrite bool_decide_eq_false_2.
  - assert (on_typing sid payload w = (Thrown cannot_destructure_null, w))
      as H1 by (unfold on_typing; by rewrite Hp).
    assert (on_stop_typing sid payload w
            = (Thrown cannot_destructure_null, w))
      as H2 by (unfold on_stop_typing; by rewrite Hp).
    subst w1 w2 new1 new2. unfold effects_of. rewrite H1, H2. simpl.
    by rewrite drop_all.
Qed.
End typing_facts.

Section file_facts.
Import Relay.

Lemma on_file_null sid e w :
  on_file sid Js.Null e w
  = (Normal tt,
     with_log (λ l, l ++ [Emit {[sid]}
                            (ErrorMessage
                               ("File send failed: "
                                +:+ "Cannot read properties of null "
                                +:+ "(reading 'roomId')"))]) w).
Proof. done. Qed.

Lemma on_file_invalid sid payload p e w :
  Js.default_param no_file payload = Some p →
  negb (Js.truthy (file_room w sid p)) || negb (Js.truthy (file_url p)) = true →
  on_file sid payload e w
  = (Normal tt,
     with_log (λ l, l ++ [Emit {[sid]} (ErrorMessage "Invalid file payload")]) w).
Proof.
  unfold file_room. intros Hp H. step_handler. by rewrite Hp, H.
Qed.

Lemma on_file_stored sid payload p e w d' :
  Js.default_param no_file payload = Some p →
  negb (Js.truthy (file_room w sid p)) || negb (Js.truthy (file_url p)) = false →
  Store.storeMessage (db w) (file_message w sid p e) (store_now e)
                     (store_fault e) = inr d' →
  on_file sid payload e w
  = (Normal tt,
     {| db := d'; rooms := rooms w; sockets := sockets w;
        log := log w
          ++ [StoreWrite (Store.bound_row (file_message w sid p e) (store_now e));
              Emit (members (sockets w) (default "" (file_room w sid p)))
                   (FileShared (Store.id (file_message w sid p e))
                               (file_name w sid p)
                               (default "" (file_url p))
                               (file_filename p) (now e))] |}).
Proof.
  unfold file_message, file_room, file_name.
  intros Hp H Hst. step_handler. rewrite Hp, H, Hst.
  cbn [with_db with_rooms with_sockets with_log db rooms sockets log].
  unfold with_log; simpl; rewrite <- ?app_assoc; reflexivity.
Qed.

Lemma on_file_store_failed sid payload p e w err :
  Js.default_param no_file payload = Some p →
  negb (Js.truthy (file_room w sid p)) || negb (Js.truthy (file_url p)) = false →
  Store.storeMessage (db w) (file_message w sid p e) (store_now e)
                     (store_fault e) = inl err →
  on_file sid payload e w
  = (Normal tt,
     with_log (λ l, l ++ [Emit {[sid]}
                            (ErrorMessage ("File send failed: " +:+ err))]) w).
Proof.
  unfold file_message, file_room, file_name.
  intros Hp H Hst. step_handler. by rewrite Hp, H, Hst.
Qed.
End file_facts.

Section disconnect_facts.
Import Relay.

Lemma lookup_removed_nullable_ne (reg : gmap string (list string)) r name r' :
  r ≠ r' → Registry.removed_nullable reg r name !! r' = reg !! r'.
Proof.
  intros Hne. unfold Registry.removed_nullable, Registry.removed.
  destruct name as [n|]; destruct (reg !! r) as [s|]; try done.
  - destruct (length _ =? 0)%nat;
      [by rewrite lookup_delete_ne | by rewrite lookup_insert_ne].
  - destruct s; [by rewrite lookup_delete_ne | done].
Qed.

Lemma elem_of_names_removed_nullable
    (reg : gmap string (list string)) r name r' n :
  n ∈ Registry.names (Registry.removed_nullable reg r name) r'
  ↔ n ∈ Registry.names reg r' ∧ ¬ (name = Some n ∧ r = r').
Proof.
  destruct (decide (r = r')) as [<-|Hne].
  - destruct name as [n0|]; simpl.
    + rewrite names_removed, decide_True by done.
      rewrite elem_of_set_delete. split.
      * intros [Hn Hne]. split; [done|]. intros [[= ->] _]. done.
      * intros [Hn Hne]. split; [done|]. intros ->. by apply Hne.
    + assert (Registry.names
                match reg !! r with
                | Some [] => delete r reg
                | _ => reg
                end r = Registry.names reg r) as ->.
      { destruct (reg !! r) as [[|x s]|] eqn:Hs; try done.
        unfold Registry.names. by rewrite lookup_delete_eq, Hs. }
      split; [|tauto]. intros Hn. split; [done|]. by intros [[=] _].
  - unfold Registry.names. rewrite lookup_removed_nullable_ne by done.
    split; [|tauto]. intros Hn. split; [done|]. tauto.
Qed.

Lemma elem_of_removed_nullable
    (reg : gmap string (list string)) r name r' n :
  Js.object_prototype r = None →
  Some n ∈ Registry.listParticipants (Registry.removed_nullable reg r name) r'
  ↔ Some n ∈ Registry.listParticipants reg r' ∧ ¬ (name = Some n ∧ r = r').
Proof.
  intros Hord. destruct (decide (r = r')) as [<-|Hne].
  - rewrite !listParticipants_eq by (by apply inherited_ordinary).
    rewrite !list_elem_of_fmap. split.
    + intros (n' & [= <-] & Hn).
      apply elem_of_names_removed_nullable in Hn as [Hn Hnot].
      split; [by exists n | done].
    + intros [(n' & [= <-] & Hn) Hnot]. exists n. split; [done|].
      by apply elem_of_names_removed_nullable.
  - assert (Registry.listParticipants
              (Registry.removed_nullable reg r name) r'
            = Registry.listParticipants reg r') as ->.
    { unfold Registry.listParticipants, Registry.lookup.
      by rewrite lookup_removed_nullable_ne. }
    split; [|tauto]. intros Hn. split; [done|]. tauto.
Qed.

Lemma inherited_removed_nullable_ne
    (reg : gmap string (list string)) r name r' :
  r ≠ r' →
  Registry.inherited (Registry.removed_nullable reg r name) r'
  = Registry.inherited reg r'.
Proof.
  intros Hne. unfold Registry.inherited, Registry.lookup.
  by rewrite lookup_removed_nullable_ne.
Qed.

Lemma leave_on_disconnect_eval sid name r w :
  r ≠ sid →
  Registry.inherited (rooms w) r = false →
  let reg := Registry.removed_nullable (rooms w) r name in
  leave_on_disconnect sid name r w
  = (Normal tt,
     {| db := db w; rooms := reg; sockets := sockets w;
        log := log w
          ++ [RegistryRemove r name;
              Emit (members (sockets w) r ∖ {[sid]})
                   (UserLeft name (Registry.listParticipants reg r))] |}).
Proof.
  intros Hr Hinh reg. unfold leave_on_disconnect.
  rewrite bool_decide_eq_false_2 by done. step_handler.
  rewrite removeParticipant_nullable_eq, Hinh.
  unfold with_log. cbn [db rooms sockets log]. do 2 f_equal.
  by rewrite <- app_assoc.
Qed.

(** The loop body for a room whose id reads an inherited member:
    [removeParticipant] throws and nothing is emitted. *)
Lemma leave_on_disconnect_inherited sid name r w :
  r ≠ sid →
  Registry.inherited (rooms w) r = true →
  leave_on_disconnect sid name r w
  = (Thrown "rooms[roomId].delete is not a function", w).
Proof.
  intros Hr Hinh. unfold leave_on_disconnect.
  rewrite bool_decide_eq_false_2 by done. step_handler.
  by rewrite removeParticipant_nullable_eq, Hinh.
Qed.

Lemma leave_on_disconnect_skip sid name w :
  leave_on_disconnect sid name sid w = (Normal tt, w).
Proof. unfold leave_on_disconnect. by rewrite bool_decide_eq_true_2. Qed.

Lemma forEach_leave_spec sid name rs w :
  (∀ r, r ∈ rs → r ≠ sid → Js.object_prototype r = None) →
  let w' := (forEach rs (leave_on_disconnect sid name) w).2 in
  (forEach rs (leave_on_disconnect sid name) w).1 = Normal tt
  ∧ sockets w' = sockets w
  ∧ db w' = db w
  ∧ (∀ r n, Some n ∈ Registry.listParticipants (rooms w') r
            ↔ Some n ∈ Registry.listParticipants (rooms w) r
              ∧ ¬ (name = Some n ∧ r ∈ rs ∧ r ≠ sid))
  ∧ ∃ l, log w' = log w ++ l
         ∧ Forall (farewell sid name) l
         ∧ (∀ r sid', r ∈ rs → r ≠ sid → sid' ≠ sid →
              sid' ∈ members (sockets w) r →
              ∃ parts, UserLeft name parts ∈ inbox sid' l).
Proof.
  revert w. induction rs as [|r rs IH]; intros w Hord; simpl.
  - split_and!; try done.
    + intros r n. split; [|tauto]. intros Hn. split; [done|].
      intros (_ & []%not_elem_of_nil & _).
    + exists []. rewrite app_nil_r. split_and!; [done | constructor |].
      intros r sid' []%not_elem_of_nil.
  - assert (∀ r', r' ∈ rs → r' ≠ sid → Js.object_prototype r' = None)
      as Hord'.
    { intros r' Hin. apply Hord. by apply list_elem_of_further. }
    unfold mbind, M_bind.
    destruct (decide (r = sid)) as [->|Hr].
    + rewrite leave_on_disconnect_skip.
      destruct (IH w Hord') as (Hret & Hs & Hd & Hreg & l & Hl & Hfw & Hev).
      split_and!; try done.
      * intros r n. rewrite Hreg, elem_of_cons. split.
        -- intros [Hn Hnot]. split; [done|]. intros (Hname & [->|Hin] & Hne);
             [done | tauto].
        -- intros [Hn Hnot]. split; [done|]. intros (Hname & Hin & Hne). tauto.
      * exists l. split_and!; [done | done |].
        intros r sid' Hin Hne Hne' Hmem. apply elem_of_cons in Hin as [->|Hin];
          [done|]. by apply (Hev r).
    + pose proof (Hord r (list_elem_of_here _ _) Hr) as Hordr.
      rewrite leave_on_disconnect_eval
        by (done || by apply inherited_ordinary).
      cbv zeta.
      set (w1 := {| db := db w; rooms := _; sockets := sockets w; log := _ |}).
      destruct (IH w1 Hord') as (Hret & Hs & Hd & Hreg & l & Hl & Hfw & Hev).
      split_and!; try done.
      * intros r' n. rewrite Hreg. subst w1. cbn [rooms].
        rewrite elem_of_removed_nullable by done.
        rewrite elem_of_cons. split.
        -- intros [[Hn Hnot1] Hnot2]. split; [done|].
           intros (Hname & [->|Hin] & Hne); tauto.
        -- intros [Hn Hnot]. split_and!; [done | |].
           ++ intros [Hname <-]. apply Hnot. tauto.
           ++ intros (Hname & Hin & Hne). tauto.
      * exists ([RegistryRemove r name;
                 Emit (members (sockets w) r ∖ {[sid]})
                      (UserLeft name
                         (Registry.listParticipants
                            (Registry.removed_nullable (rooms w) r name) r))]
                ++ l).
        split_and!.
        -- rewrite Hl. subst w1. cbn [log]. by rewrite <- !app_assoc.
        -- apply Forall_app. split; [|done].
           repeat constructor; simpl; try done.
           rewrite elem_of_difference, elem_of_singleton. tauto.
        -- intros r' sid' Hin Hne Hne' Hmem.
           apply elem_of_cons in Hin as [->|Hin].
           ++ eexists. rewrite inbox_app. apply elem_of_app. left. simpl.
              rewrite bool_decide_eq_true_2; [apply list_elem_of_here|].
              rewrite elem_of_difference, elem_of_singleton. tauto.
           ++ destruct (Hev r' sid' Hin Hne Hne' Hmem) as [parts Hparts].
              exists parts. rewrite inbox_app. apply elem_of_app. by right.
Qed.

(** The loop stops at the first room whose id reads an inherited member:
    the exception of [removeParticipant] leaves the listener. *)
Lemma forEach_leave_throws sid name rs w :
  (∃ r, r ∈ rs ∧ r ≠ sid ∧ Registry.inherited (rooms w) r = true) →
  (forEach rs (leave_on_disconnect sid name) w).1
  = Thrown "rooms[roomId].delete is not a function".
Proof.
  revert w. induction rs as [|r0 rs IH]; intros w (r & Hin & Hne & Hinh).
  { by apply not_elem_of_nil in Hin. }
  simpl. unfold mbind, M_bind.
  destruct (decide (r0 = sid)) as [->|Hr0].
  - rewrite leave_on_disconnect_skip. apply IH. exists r.
    apply elem_of_cons in Hin as [->|Hin]; [done|]. done.
  - destruct (Registry.inherited (rooms w) r0) eqn:Hinh0.
    + by rewrite leave_on_disconnect_inherited.
    + rewrite leave_on_disconnect_eval by done. cbv zeta.
      apply IH. exists r.
      apply elem_of_cons in Hin as [->|Hin]; [congruence|].
      split_and!; [done | done |]. cbn [rooms].
      rewrite inherited_removed_nullable_ne; [done|]. congruence.
Qed.

Lemma on_disconnecting_eval sid w :
  on_disconnecting sid w
  = forEach (rooms_in_order (sockets w) sid)
            (leave_on_disconnect sid (username_of (sockets w) sid)) w.
Proof. reflexivity. Qed.

Lemma handle_disconnect_eval sid e w :
  handle sid Disconnect e w
  = match forEach (rooms_in_order (sockets w) sid)
                  (leave_on_disconnect sid (username_of (sockets w) sid)) w
    with
    | (Normal _, w1) => (Normal tt, with_sockets (delete sid) w1)
    | (Thrown err, w1) => (Thrown err, w1)
    end.
Proof.
  simpl. unfold mbind, M_bind. rewrite on_disconnecting_eval.
  by destruct (forEach _ _ w) as [[[]|err] w1].
Qed.

End disconnect_facts.

Section disconnect_more.
Import Relay.

(** X6.  When no room the connection is in (its own-id room apart) has an
    id that names a member of [Object.prototype], the [disconnecting]
    listener returns and removes the session's user name, and no other
    name, from the participant lists of those rooms; every effect is such
    a removal or a [user-left] notice with that name to connections other
    than the one leaving; each other member of each of those rooms receives
    such a notice; the store is unchanged and the connection is dropped. *)
Theorem disconnect_removes_own_name_only sid e w :
  let name := username_of (sockets w) sid in
  let joined := rooms_in_order (sockets w) sid in
  let w' := step w (sid, Disconnect, e) in
  let new := effects_of (handle sid Disconnect e) w in
  (∀ r, r ∈ joined → r ≠ sid → Js.object_prototype r = None) →
  (handle sid Disconnect e w).1 = Normal tt
  ∧ sockets w' = delete sid (sockets w)
  ∧ db w' = db w
  ∧ (∀ r n, Some n ∈ Registry.listParticipants (rooms w') r
            ↔ Some n ∈ Registry.listParticipants (rooms w) r
              ∧ ¬ (name = Some n ∧ r ∈ joined ∧ r ≠ sid))
  ∧ Forall (farewell sid name) new
  ∧ (∀ r sid', r ∈ joined → r ≠ sid → sid' ≠ sid →
       sid' ∈ members (sockets w) r →
       ∃ parts, UserLeft name parts ∈ inbox sid' new).
Proof.
  intros name joined w' new Hord.
  pose proof (handle_disconnect_eval sid e w) as Heval.
  destruct (forEach_leave_spec sid name joined w Hord)
    as (Hret & Hs & Hd & Hreg & l & Hl & Hfw & Hev).
  fold name joined in Heval.
  destruct (forEach joined (leave_on_disconnect sid name) w)
    as [[[]|err] w1]; [|done]. simpl in Hs, Hd, Hreg, Hl.
  assert (new = l) as ->.
  { subst new. apply effects_of_app. rewrite Heval. exact Hl. }
  subst w'. unfold step. rewrite Heval. cbn [fst snd with_sockets sockets db rooms].
  split_and!; [done | by rewrite Hs | done | done | done | done].
Qed.

(** A disconnects from room-X, where it is with B. *)
Lemma disconnect_removes_own_name_only_witness :
  let w := Scenario.two_in_room in
  let w' := step w ("A", Disconnect, Scenario.quiet_env) in
  let new := effects_of (handle "A" Disconnect Scenario.quiet_env) w in
  sockets w' !! "A" = None
  ∧ (Some "ann" ∉ Registry.listParticipants (rooms w') "room-X")
  ∧ ∃ parts, UserLeft (Some "ann") parts ∈ inbox "B" new.
Proof.
  intros w w' new.
  assert (∀ r, r ∈ rooms_in_order (sockets w) "A" → r ≠ "A" →
               Js.object_prototype r = None) as Hord.
  { intros r Hr _.
    change (rooms_in_order (sockets w) "A") with ["A"; "room-X"] in Hr.
    repeat (apply elem_of_cons in Hr as [->|Hr]; [reflexivity|]).
    by apply not_elem_of_nil in Hr. }
  destruct (disconnect_removes_own_name_only "A" Scenario.quiet_env w Hord)
    as (_ & Hsocks & _ & Hreg & _ & Hnotice).
  split_and!.
  - etrans; [exact (f_equal (λ socks, socks !! "A") Hsocks)
            | apply lookup_delete_eq].
  - intros [_ Hnot]%Hreg. apply Hnot. split_and!; [reflexivity | | done].
    apply list_elem_of_further, list_elem_of_here.
  - apply (Hnotice "room-X" "B"); [ | done | done | ].
    + apply list_elem_of_further, list_elem_of_here.
    + apply elem_of_members.
      exists {| data_username := Some "bob"; data_roomId := Some "room-X";
                socket_rooms := ["B"; "room-X"] |}.
      split; [reflexivity|].
      apply list_elem_of_further, list_elem_of_here.
Defined.

Lemma forEach_leave_all_skip sid name rs w :
  (∀ r, r ∈ rs → r = sid) →
  forEach rs (leave_on_disconnect sid name) w = (Normal tt, w).
Proof.
  revert w. induction rs as [|r rs IH]; intros w Hrs; simpl; [done|].
  unfold mbind, M_bind.
  rewrite (Hrs r) by apply list_elem_of_here.
  rewrite leave_on_disconnect_skip. apply IH.
  intros r' Hr'. apply Hrs. by apply list_elem_of_further.
Qed.

Lemma rooms_in_order_left sid r (socks : gmap string socket) r' :
  r' ∈ rooms_in_order (left_sockets sid r socks) sid
  ↔ r' ∈ rooms_in_order socks sid ∧ r' ≠ r.
Proof.
  unfold rooms_in_order, left_sockets. rewrite lookup_alter_eq.
  destruct (socks !! sid) as [s|]; simpl.
  - apply elem_of_set_delete.
  - split; [by intros ?%not_elem_of_nil | by intros [?%not_elem_of_nil _]].
Qed.

(** X7.  A connection that has ended its session in its only room and then
    disconnects leaves silently: the [disconnecting] listener has no effect
    at all (no second [user-left], no registry call), registry and store
    stay as [end-session] left them, and the connection is dropped. *)
Theorem disconnect_after_end_session_is_silent sid payload p e w :
  let r := default "" (leave_room w sid p) in
  Js.default_param no_leave payload = Some p →
  Js.truthy (leave_room w sid p) && Js.truthy (leave_name w sid p) = true →
  rooms_of (sockets w) sid ⊆ {[sid; r]} →
  let w1 := (on_end_session sid payload w).2 in
  let w2 := step w1 (sid, Disconnect, e) in
  effects_of (handle sid Disconnect e) w1 = []
  ∧ rooms w2 = rooms w1
  ∧ db w2 = db w1
  ∧ sockets w2 = delete sid (sockets w).
Proof.
  intros r Hp Hres Honly w1 w2.
  destruct (on_end_session_state sid payload p w Hp Hres)
    as (_ & Hsocks & _).
  fold r w1 in Hsocks.
  pose proof (handle_disconnect_eval sid e w1) as Heval.
  rewrite forEach_leave_all_skip in Heval.
  2: { intros r' Hr'.
       rewrite Hsocks in Hr'. apply rooms_in_order_left in Hr' as [Hin Hne].
       assert (r' ∈ rooms_of (sockets w) sid) as Hin'.
       { unfold rooms_of. by apply elem_of_list_to_set. }
       apply Honly in Hin'.
       rewrite elem_of_union, !elem_of_singleton in Hin'. tauto. }
  split_and!.
  - apply effects_of_app. rewrite Heval. simpl. by rewrite app_nil_r.
  - subst w2. unfold step. by rewrite Heval.
  - subst w2. unfold step. by rewrite Heval.
  - subst w2. unfold step. rewrite Heval. simpl. rewrite Hsocks.
    unfold left_sockets. apply map_eq. intros sid'.
    destruct (decide (sid = sid')) as [<-|Hne].
    + by rewrite !lookup_delete_eq.
    + by rewrite !lookup_delete_ne, lookup_alter_ne by done.
Qed.

(** A ends its session in room-X, where it was with B, and disconnects. *)
Lemma disconnect_after_end_session_is_silent_witness :
  let w := Scenario.after_leave in
  let w' := step w ("A", Disconnect, Scenario.quiet_env) in
  effects_of (handle "A" Disconnect Scenario.quiet_env) w = []
  ∧ Registry.listParticipants (rooms w') "room-X" = [Some "bob"]
  ∧ sockets w' !! "A" = None.
Proof.
  intros w w'.
  assert (rooms_of (sockets Scenario.two_in_room) "A" ⊆ {["A"; "room-X"]})
    as Honly.
  { intros x Hx. exact Hx. }
  destruct (disconnect_after_end_session_is_silent "A"
              (Js.Obj (Scenario.leave_as "room-X" "ann"))
              (Scenario.leave_as "room-X" "ann") Scenario.quiet_env
              Scenario.two_in_room eq_refl eq_refl Honly)
    as (Hsilent & Hrooms & _ & Hsocks).
  split_and!.
  - exact Hsilent.
  - etrans; [exact (f_equal (λ reg, Registry.listParticipants reg "room-X")
                            Hrooms) | reflexivity].
  - etrans; [exact (f_equal (λ socks, socks !! "A") Hsocks)
            | apply lookup_delete_eq].
Defined.

End disconnect_more.

Section second_join.
Import Relay.

Lemma members_joined_other_room sid roomId name (socks : gmap string socket) r1 :
  r1 ≠ roomId →
  members (joined_sockets sid roomId name socks) r1 = members socks r1.
Proof.
  intros Hr. apply set_eq. intros sid'. rewrite !elem_of_members.
  unfold joined_sockets. destruct (decide (sid = sid')) as [<-|Hne].
  - rewrite !lookup_alter_eq. destruct (socks !! sid) as [s|]; simpl.
    + split.
      * intros (s' & [= <-] & Hin). simpl in Hin. exists s. split; [done|].
        apply elem_of_set_add in Hin. tauto.
      * intros (s' & [= <-] & Hin). eexists. split; [done|]. simpl.
        apply elem_of_set_add. by right.
    + split; by intros (s' & [=] & _).
  - by rewrite !lookup_alter_ne by done.
Qed.

(** The state the [join-room] listener leaves behind, whether
    [addParticipant] returned or threw. *)
Lemma on_join_room_state sid p e w :
  let roomId := Js.or_lit (join_roomId p) (mint_room_id e) in
  let name := sanitize_username (join_username p) in
  let w' := (on_join_room sid (Some p) e w).2 in
  sockets w' = joined_sockets sid roomId name (sockets w)
  ∧ rooms w' = (if Registry.inherited (rooms w) roomId then rooms w
                else Registry.added (rooms w) roomId name)
  ∧ db w' = db w.
Proof.
  intros roomId name w'.
  destruct (Registry.inherited (rooms w) roomId) eqn:Hinh.
  - subst w'. by rewrite (on_join_room_inherited sid p e w Hinh).
  - destruct (on_join_room_effects sid p e w Hinh)
      as (_ & Hrooms & Hsocks & Hdb & _). done.
Qed.

(** X8.  A join into one room leaves every other room as it was, also a
    room the connection joined before: that room's participant list and
    its members are unchanged, so the connection stays listed in it and
    keeps receiving its broadcasts, while the session's room id and user
    name are overwritten by the new ones. *)
Theorem join_does_not_leave_previous_room sid p e w r1 :
  let roomId := Js.or_lit (join_roomId p) (mint_room_id e) in
  let name := sanitize_username (join_username p) in
  let w' := (on_join_room sid (Some p) e w).2 in
  r1 ≠ roomId →
  Registry.listParticipants (rooms w') r1
  = Registry.listParticipants (rooms w) r1
  ∧ members (sockets w') r1 = members (sockets w) r1
  ∧ (is_Some (sockets w !! sid) →
     roomId_of (sockets w') sid = Some roomId
     ∧ username_of (sockets w') sid = Some name
     ∧ rooms_of (sockets w') sid = rooms_of (sockets w) sid ∪ {[roomId]}).
Proof.
  intros roomId name w' Hr.
  destruct (on_join_room_state sid p e w) as (Hsocks & Hrooms & _).
  fold roomId name w' in Hsocks, Hrooms. rewrite Hsocks, Hrooms.
  split_and!.
  - destruct (Registry.inherited (rooms w) roomId); [done|].
    unfold Registry.listParticipants, Registry.lookup, Registry.added.
    by rewrite lookup_insert_ne.
  - by apply members_joined_other_room.
  - intros [s Hs].
    unfold roomId_of, username_of, rooms_of, rooms_in_order, joined_sockets.
    rewrite !lookup_alter_eq, Hs. simpl. split_and!; [done | done |].
    apply set_eq. intros x.
    rewrite elem_of_union, elem_of_singleton, !elem_of_list_to_set.
    rewrite elem_of_set_add. tauto.
Qed.

(** A, joined to room-X as ann, joins room-Y. *)
Lemma join_does_not_leave_previous_room_witness :
  let w := Scenario.two_in_room in
  let p := {| join_roomId := Some "room-Y"; join_username := Some "ann" |} in
  let w' := (on_join_room "A" (Some p) Scenario.quiet_env w).2 in
  Registry.listParticipants (rooms w') "room-X" = [Some "ann"; Some "bob"]
  ∧ members (sockets w') "room-X" = members (sockets w) "room-X"
  ∧ roomId_of (sockets w') "A" = Some "room-Y".
Proof.
  intros w p w'.
  destruct (join_does_not_leave_previous_room "A" p Scenario.quiet_env w
              "room-X" ltac:(discriminate)) as (Hreg & Hmem & Hdata).
  destruct (Hdata ltac:(by eexists)) as (Hroom & _).
  split_and!; [| exact Hmem | exact Hroom].
  subst w'. rewrite Hreg. reflexivity.
Defined.

End second_join.


Section isolation.
Import Relay.



End isolation.

(** One step of the structural proof that a listener returns normally. *)
Section never_throws_facts.
Import Relay.

Lemma never_throws_ret {A} (a : A) : never_throws (mret a).
Proof. intros w. by exists a. Qed.

Lemma never_throws_gets {A} (f : world → A) : never_throws (gets f).
Proof. intros w. by eexists. Qed.

Lemma never_throws_modify f : never_throws (modify f).
Proof. intros w. by exists tt. Qed.

Lemma never_throws_bind {A B} (m : M A) (k : A → M B) :
  never_throws m → (∀ a, never_throws (k a)) → never_throws (m ≫= k).
Proof.
  intros Hm Hk w. destruct (Hm w) as [a Ha]. unfold mbind, M_bind.
  destruct (m w) as [o w1]. simpl in Ha. subst o. apply Hk.
Qed.

(** A [try] with a handler that returns normally returns normally, whatever
    its body does. *)
Lemma never_throws_try_catch {A} (m : M A) (h : string → M A) :
  (∀ err, never_throws (h err)) → never_throws (try_catch m h).
Proof.
  intros Hh w. unfold try_catch.
  destruct (m w) as [[a|err] w1]; [by exists a | apply Hh].
Qed.

Lemma never_throws_forEach {A} (xs : list A) (f : A → M unit) :
  (∀ x, never_throws (f x)) → never_throws (forEach xs f).
Proof.
  intros Hf. induction xs as [|x xs IH]; simpl.
  - apply never_throws_ret.
  - apply never_throws_bind; [apply Hf | intros _; apply IH].
Qed.

End never_throws_facts.

Ltac never_throws_step :=
  lazymatch goal with
  | |- Relay.never_throws (if ?b then _ else _) => destruct b
  | |- Relay.never_throws (match ?x with _ => _ end) => destruct x
  | |- Relay.never_throws (Relay.try_catch _ _) =>
      apply never_throws_try_catch; intros ?
  | |- Relay.never_throws (mbind _ _) => apply never_throws_bind; [|intros ?]
  | |- Relay.never_throws (Relay.forEach _ _) =>
      apply never_throws_forEach; intros ?
  | |- Relay.never_throws (mret _) => apply never_throws_ret
  | |- Relay.never_throws (Relay.gets _) => apply never_throws_gets
  | |- Relay.never_throws (Relay.modify _) => apply never_throws_modify
  end.

Section listeners_return.
Import Relay.

Lemma never_throws_normal (m : M unit) w :
  never_throws m → (m w).1 = Normal tt.
Proof. intros H. by destruct (H w) as [[] ->]. Qed.

Lemma caught_listeners_return sid ev e :
  match ev with
  | Connection | JoinRoom (Some _) | ChatMessageIn _ _ | MessageIn _ _
  | FileIn _ | TypingIn (Js.Obj _) | TypingIn Js.Undefined
  | StopTypingIn (Js.Obj _) | StopTypingIn Js.Undefined
  | EndSession (Js.Obj _) | EndSession Js.Undefined =>
      never_throws (handle sid ev e)
  | _ => True
  end.
Proof.
  destruct ev as [|[p|]|p ack|p ack|[| |p]|[| |p]|[| |p]|p|]; try done;
    simpl;
    unfold on_connection, on_join_room, on_chat_message,
      handleIncomingMessage, on_typing, on_stop_typing, on_end_session,
      on_file; simpl;
    unfold_steps; unfold perform;
    repeat never_throws_step.
Qed.

(** X10.  Which listeners let an exception escape.  [join-room] without a
    payload, and [typing], [stop-typing] and [end-session] with [null] for
    a payload, throw in their parameter pattern and leave the state as it
    was.  [disconnecting] returns when no room the connection is in (its
    own-id room apart) has an id that names a member of
    [Object.prototype], and throws what [removeParticipant] throws when one
    of them reads an inherited member of the registry object.  Every other
    event is handled without an exception, whatever the payload, the state
    and the storage layer do: what fails inside a [try] is caught. *)
Theorem listeners_that_throw sid ev e w :
  match ev with
  | JoinRoom None => ∃ err, handle sid ev e w = (Thrown err, w)
  | TypingIn Js.Null | StopTypingIn Js.Null | EndSession Js.Null =>
      handle sid ev e w = (Thrown cannot_destructure_null, w)
  | Disconnect =>
      ((∀ r, r ∈ rooms_in_order (sockets w) sid → r ≠ sid →
             Js.object_prototype r = None) →
       (handle sid ev e w).1 = Normal tt)
      ∧ ((∃ r, r ∈ rooms_in_order (sockets w) sid ∧ r ≠ sid
               ∧ Registry.inherited (rooms w) r = true) →
         (handle sid ev e w).1
         = Thrown "rooms[roomId].delete is not a function")
  | _ => (handle sid ev e w).1 = Normal tt
  end.
Proof.
  pose proof (caught_listeners_return sid ev e) as Hcaught.
  destruct ev as [|[p|]|p ack|p ack|[| |p]|[| |p]|[| |p]|p|];
    try (by apply never_throws_normal); try done.
  - by eexists.
  - split.
    + intros Hord. rewrite handle_disconnect_eval.
      destruct (forEach_leave_spec sid (username_of (sockets w) sid)
                  _ w Hord) as [Hret _].
      by destruct (forEach _ _ w) as [[[]|err] w1].
    + intros Hinh. rewrite handle_disconnect_eval.
      pose proof (forEach_leave_throws sid (username_of (sockets w) sid)
                    _ w Hinh) as Hthrow.
      destruct (forEach _ _ w) as [[[]|err] w1]; [done|]. exact Hthrow.
Qed.

End listeners_return.

Section replay.
Import Relay.

Lemma or_null_idemp a : Js.or_null (Js.or_null a) = Js.or_null a.
Proof. unfold Js.or_null. by destruct (Js.truthy a) eqn:H; rewrite ?H. Qed.

Lemma bound_row_messageData roomId username text msg e t :
  now e ≠ 0%Z →
  Store.bound_row (messageData roomId username text msg e) t
  = messageData roomId username text msg e.
Proof.
  intros Hnow. unfold Store.bound_row, messageData. simpl.
  rewrite !or_null_idemp.
  apply Z.eqb_neq in Hnow. rewrite Hnow.
  destruct (String.eqb _ "") eqn:Hty; [|done].
  apply String.eqb_eq in Hty. by apply or_lit_not_empty in Hty.
Qed.

Lemma bound_row_fileData roomId username url p e t :
  now e ≠ 0%Z →
  Store.bound_row (fileData roomId username url p e) t
  = fileData roomId username url p e.
Proof.
  intros Hnow. unfold Store.bound_row, fileData. simpl.
  rewrite !or_null_idemp. apply Z.eqb_neq in Hnow. by rewrite Hnow.
Qed.

Lemma inbox_joiner sid p e w :
  let roomId := Js.or_lit (join_roomId p) (mint_room_id e) in
  let w' := (on_join_room sid (Some p) e w).2 in
  Js.object_prototype roomId = None →
  store_fault e = None →
  inbox sid (effects_of (on_join_room sid (Some p) e) w)
  = Joined roomId (Registry.listParticipants (rooms w') roomId)
    :: (chat_message_of
          <$> Store.getRecentMessages (db w) roomId (Some 50%nat)).
Proof.
  intros roomId w' Hord Hfault.
  destruct (on_join_room_effects sid p e w
              (inherited_ordinary _ _ Hord))
    as (_ & _ & _ & _ & _ & _ & Hnew).
  rewrite Hfault in Hnew.
  rewrite Hnew, inbox_app, inbox_emit_self.
  rewrite decide_True by done. simpl.
  rewrite bool_decide_eq_true_2 by (by apply elem_of_singleton).
  rewrite bool_decide_eq_false_2; [done|].
  rewrite elem_of_difference, elem_of_singleton. tauto.
Qed.

Lemma last_replay (x : event) (rows : list Store.row) (m : Store.row) :
  last (x :: (chat_message_of <$> (rows ++ [m]))) = Some (chat_message_of m).
Proof.
  rewrite fmap_app. simpl.
  change (x :: (chat_message_of <$> rows) ++ [chat_message_of m])
    with ((x :: (chat_message_of <$> rows)) ++ [chat_message_of m]).
  apply last_snoc.
Qed.

(** X11.  A valid send that is stored, with a clock later than every
    message of the room, reaches each member of the room live as one
    [chat-message], and a connection that joins the room afterwards, while
    the history query answers, receives the same envelope, field by field,
    as the last message of its history replay (the room id names no member
    of [Object.prototype]). *)
Theorem replay_ends_with_live_envelope
    sid msg ack e w d' sid' p' e' :
  Js.truthy (send_room w sid msg) = true →
  send_trimmed msg ≠ "" →
  let m := send_message w sid msg e in
  Store.storeMessage (db w) m (store_now e) (store_fault e) = inr d' →
  now e ≠ 0%Z →
  (∀ x, x ∈ db w → Store.room_id x = Store.room_id m →
        (Store.created_at x < now e)%Z) →
  Js.or_lit (join_roomId p') (mint_room_id e') = Store.room_id m →
  Js.object_prototype (Store.room_id m) = None →
  store_fault e' = None →
  let w1 := (handleIncomingMessage sid msg ack e w).2 in
  (∀ sid'', sid'' ∈ members (sockets w) (Store.room_id m) →
     inbox sid'' (effects_of (handleIncomingMessage sid msg ack e) w)
     = [chat_message_of m])
  ∧ last (inbox sid' (effects_of (on_join_room sid' (Some p') e') w1))
    = Some (chat_message_of m).
Proof.
  intros Hroom Htext m Hst Hnow Hnewest Hjoin Hord Hfault w1.
  assert (negb (Js.truthy (send_room w sid msg))
          || String.eqb (send_trimmed msg) "" = false) as Hvalid.
  { rewrite Hroom. simpl. by apply String.eqb_neq. }
  pose proof (handleIncomingMessage_stored sid msg ack e w d' Hvalid Hst)
    as Heval.
  pose proof (storeMessage_inr _ _ _ _ _ Hst) as Hd'.
  assert (Store.bound_row m (store_now e) = m) as Hrow
    by (by apply bound_row_messageData).
  rewrite Hrow in Hd'.
  split.
  - intros sid'' Hmem.
    rewrite (effects_of_app _ _ _ (f_equal (λ x, log x.2) Heval)).
    destruct ack; simpl; by rewrite bool_decide_eq_true_2.
  - rewrite inbox_joiner, Hjoin by (by rewrite ?Hjoin).
    assert (db w1 = db w ++ [m]) as ->.
    { subst w1. by rewrite Heval, Hd'. }
    rewrite (recent_snoc_newest (db w) m (Some 50%nat) 49 eq_refl Hnewest).
    apply last_replay.
Qed.

(** bob says hi after ann's hello; then C joins room-X. *)
Lemma replay_ends_with_live_envelope_witness :
  let w := Scenario.third_connected in
  let msg := Scenario.say "room-X" "hi" in
  let e := Scenario.env_with "u2" 1700000000002%Z None in
  let w1 := (handleIncomingMessage "B" msg true e w).2 in
  inbox "A" (effects_of (handleIncomingMessage "B" msg true e) w)
  = [ChatMessage "msg-u2" "bob" "hi" 1700000000002%Z "text" None None]
  ∧ last (inbox "C" (effects_of
                       (on_join_room "C" (Some Scenario.cat_joins)
                                     Scenario.quiet_env) w1))
    = Some (ChatMessage "msg-u2" "bob" "hi" 1700000000002%Z "text" None None).
Proof.
  intros w msg e w1.
  assert (∀ x, x ∈ db w →
               Store.room_id x = Store.room_id (send_message w "B" msg e) →
               (Store.created_at x < now e)%Z) as Hnew.
  { intros x Hx _.
    change (db w)
      with [Store.bound_row
              (send_message Scenario.two_in_room "A"
                 (Scenario.say "room-X" "hello")
                 (Scenario.env_with "u1" 1700000000001%Z None))
              1700000000001%Z] in Hx.
    apply list_elem_of_singleton in Hx as ->. reflexivity. }
  destruct (replay_ends_with_live_envelope "B" msg true e w
              (db w ++ [Store.bound_row (send_message w "B" msg e)
                                        1700000000002%Z])
              "C" Scenario.cat_joins Scenario.quiet_env
              eq_refl ltac:(discriminate) eq_refl ltac:(discriminate)
              Hnew eq_refl eq_refl eq_refl) as [Hlive Hreplay].
  split; [|exact Hreplay].
  rewrite Hlive; [reflexivity|].
  apply elem_of_members. eexists. split; [reflexivity|].
  apply list_elem_of_further, list_elem_of_here.
Defined.

(** X12.  A shared file reaches the members of the room live as a [file]
    event (id, user name, url, file name, timestamp), but a connection that
    joins afterwards, while the history query answers, is replayed it as a
    [chat-message] of type 'file' whose text is the url, with the same id
    and timestamp and with file name and mime type: history never replays
    a [file] event (the room id names no member of [Object.prototype]). *)
Theorem file_replayed_as_chat_message sid payload e w d' sid' p' e' :
  let p := default no_file (Js.default_param no_file payload) in
  Js.truthy (file_room w sid p) = true →
  Js.truthy (file_url p) = true →
  let m := file_message w sid p e in
  let url := default "" (file_url p) in
  Store.storeMessage (db w) m (store_now e) (store_fault e) = inr d' →
  now e ≠ 0%Z →
  (∀ x, x ∈ db w → Store.room_id x = Store.room_id m →
        (Store.created_at x < now e)%Z) →
  Js.or_lit (join_roomId p') (mint_room_id e') = Store.room_id m →
  Js.object_prototype (Store.room_id m) = None →
  store_fault e' = None →
  let w1 := (on_file sid payload e w).2 in
  (∀ sid'', sid'' ∈ members (sockets w) (Store.room_id m) →
     inbox sid'' (effects_of (on_file sid payload e) w)
     = [FileShared ("file-" +:+ uuid e) (file_name w sid p) url
                   (file_filename p) (now e)])
  ∧ last (inbox sid' (effects_of (on_join_room sid' (Some p') e') w1))
    = Some (ChatMessage ("file-" +:+ uuid e) (file_name w sid p) url (now e)
                        "file" (Js.or_null (file_filename p))
                        (Js.or_null (file_mime p))).
Proof.
  intros p Hroom Hurl m url Hst Hnow Hnewest Hjoin Hord Hfault w1.
  assert (Js.default_param no_file payload = Some p) as Hp.
  { subst p. by destruct payload. }
  assert (negb (Js.truthy (file_room w sid p))
          || negb (Js.truthy (file_url p)) = false) as Hvalid.
  { by rewrite Hroom, Hurl. }
  pose proof (on_file_stored sid payload p e w d' Hp Hvalid Hst) as Heval.
  pose proof (storeMessage_inr _ _ _ _ _ Hst) as Hd'.
  assert (Store.bound_row m (store_now e) = m) as Hrow
    by (by apply bound_row_fileData).
  rewrite Hrow in Hd'.
  split.
  - intros sid'' Hmem.
    rewrite (effects_of_app _ _ _ (f_equal (λ x, log x.2) Heval)).
    simpl. by rewrite bool_decide_eq_true_2.
  - rewrite inbox_joiner, Hjoin by (by rewrite ?Hjoin).
    assert (db w1 = db w ++ [m]) as ->.
    { subst w1. by rewrite Heval, Hd'. }
    rewrite (recent_snoc_newest (db w) m (Some 50%nat) 49 eq_refl Hnewest).
    apply last_replay.
Qed.

(** ann shares a picture after her hello; then C joins room-X. *)
Lemma file_replayed_as_chat_message_witness :
  let w := Scenario.third_connected in
  let p := Scenario.share "room-X" "/uploads/cat.png" "cat.png" in
  let e := Scenario.env_with "u7" 1700000000002%Z None in
  let w1 := (on_file "A" (Js.Obj p) e w).2 in
  inbox "B" (effects_of (on_file "A" (Js.Obj p) e) w)
  = [FileShared "file-u7" "ann" "/uploads/cat.png" (Some "cat.png")
                1700000000002%Z]
  ∧ last (inbox "C" (effects_of
                       (on_join_room "C" (Some Scenario.cat_joins)
                                     Scenario.quiet_env) w1))
    = Some (ChatMessage "file-u7" "ann" "/uploads/cat.png" 1700000000002%Z
                        "file" (Some "cat.png") (Some "image/png")).
Proof.
  intros w p e w1.
  assert (∀ x, x ∈ db w →
               Store.room_id x = Store.room_id (file_message w "A" p e) →
               (Store.created_at x < now e)%Z) as Hnew.
  { intros x Hx _.
    change (db w)
      with [Store.bound_row
              (send_message Scenario.two_in_room "A"
                 (Scenario.say "room-X" "hello")
                 (Scenario.env_with "u1" 1700000000001%Z None))
              1700000000001%Z] in Hx.
    apply list_elem_of_singleton in Hx as ->. reflexivity. }
  destruct (file_replayed_as_chat_message "A" (Js.Obj p) e w
              (db w ++ [Store.bound_row (file_message w "A" p e)
                                        1700000000002%Z])
              "C" Scenario.cat_joins Scenario.quiet_env
              eq_refl eq_refl eq_refl ltac:(discriminate)
              Hnew eq_refl eq_refl eq_refl) as [Hlive Hreplay].
  split; [|exact Hreplay].
  rewrite Hlive; [reflexivity|].
  apply elem_of_members. eexists. split; [reflexivity|].
  apply list_elem_of_further, list_elem_of_here.
Defined.

End replay.

Section file_cases.
Import Relay.

(** X13.  For a [file] event with a resolved room and a url, the listener
    first stores a row of type 'file' whose content is the url and only
    then emits the [file] event to the whole room; when the store fails
    nothing is stored or broadcast and the sender alone receives
    'File send failed: ...'.  Registry and connections are unchanged. *)
Theorem file_persisted_before_broadcast sid payload e w :
  let p := default no_file (Js.default_param no_file payload) in
  Js.truthy (file_room w sid p) = true →
  Js.truthy (file_url p) = true →
  let m := file_message w sid p e in
  let row := Store.bound_row m (store_now e) in
  let roomId := default "" (file_room w sid p) in
  let w' := (on_file sid payload e w).2 in
  let new := effects_of (on_file sid payload e) w in
  rooms w' = rooms w ∧ sockets w' = sockets w
  ∧ match Store.storeMessage (db w) m (store_now e) (store_fault e) with
    | inr _ =>
        db w' = db w ++ [row]
        ∧ Store.type row = "file"
        ∧ Store.content row = default "" (file_url p)
        ∧ new = [StoreWrite row;
                 Emit (members (sockets w) roomId)
                      (FileShared (Store.id m) (file_name w sid p)
                                  (default "" (file_url p))
                                  (file_filename p) (now e))]
    | inl err =>
        db w' = db w
        ∧ new = [Emit {[sid]}
                   (ErrorMessage ("File send failed: " +:+ err))]
        ∧ ∀ sid', sid' ≠ sid → inbox sid' new = []
    end.
Proof.
  intros p Hroom Hurl m row roomId w' new.
  assert (Js.default_param no_file payload = Some p) as Hp.
  { subst p. by destruct payload. }
  assert (negb (Js.truthy (file_room w sid p))
          || negb (Js.truthy (file_url p)) = false) as Hvalid.
  { by rewrite Hroom, Hurl. }
  destruct (Store.storeMessage (db w) m (store_now e) (store_fault e))
    as [err|d'] eqn:Hst.
  - pose proof (on_file_store_failed sid payload p e w err Hp Hvalid Hst)
      as Heval.
    assert (new = [Emit {[sid]}
                     (ErrorMessage ("File send failed: " +:+ err))]) as Hnew.
    { subst new. apply effects_of_app. by rewrite Heval. }
    subst w'. rewrite Heval, Hnew. split_and!; try done.
    intros sid' Hne. simpl.
    by rewrite bool_decide_eq_false_2 by (by rewrite elem_of_singleton).
  - pose proof (on_file_stored sid payload p e w d' Hp Hvalid Hst) as Heval.
    pose proof (storeMessage_inr _ _ _ _ _ Hst) as ->.
    subst w' new. rewrite Heval. split_and!; try done.
    apply effects_of_app. by rewrite Heval.
Qed.

(** ann shares a picture in a room of two: first with a working store, then
    with a store that fails. *)
Lemma file_persisted_before_broadcast_witness :
  let w := Scenario.two_in_room in
  let p := Scenario.share "room-X" "/uploads/cat.png" "cat.png" in
  let ok := Scenario.env_with "u7" 1700000000002%Z None in
  let ko := Scenario.env_with "u7" 1700000000002%Z (Some "disk I/O error") in
  (writes (effects_of (on_file "A" (Js.Obj p) ok) w)
   = [Store.bound_row (file_message w "A" p ok) 1700000000002%Z]
   ∧ inbox "B" (effects_of (on_file "A" (Js.Obj p) ok) w)
     = [FileShared "file-u7" "ann" "/uploads/cat.png" (Some "cat.png")
                   1700000000002%Z])
  ∧ effects_of (on_file "A" (Js.Obj p) ko) w
    = [Emit {["A"]} (ErrorMessage "File send failed: disk I/O error")].
Proof.
  intros w p ok ko. split.
  - pose proof (file_persisted_before_broadcast "A" (Js.Obj p) ok w
                  eq_refl eq_refl) as H.
    cbv zeta in H.
    change (Store.storeMessage (db w)
              (file_message w "A" (default no_file (Js.default_param no_file (Js.Obj p))) ok)
              (store_now ok) (store_fault ok))
      with (@inr string _
              (db w ++ [Store.bound_row (file_message w "A" p ok)
                                        1700000000002%Z])) in H.
    destruct H as (_ & _ & _ & _ & _ & Hnew). rewrite Hnew.
    split; reflexivity.
  - pose proof (file_persisted_before_broadcast "A" (Js.Obj p) ko w
                  eq_refl eq_refl) as H.
    cbv zeta in H.
    change (Store.storeMessage (db w)
              (file_message w "A" (default no_file (Js.default_param no_file (Js.Obj p))) ko)
              (store_now ko) (store_fault ko))
      with (@inl string (list Store.row) "disk I/O error") in H.
    destruct H as (_ & _ & _ & Hnew & _). exact Hnew.
Defined.

(** X14.  A [file] event that carries an object, or nothing, and resolves
    no room or has no url is rejected: nothing is stored or broadcast,
    store, registry and connections are unchanged, and the sender alone
    receives the error 'Invalid file payload'.  A [file] event that carries
    [null] is rejected as well, but with the error of the failed property
    read: 'File send failed: Cannot read properties of null (reading
    'roomId')'. *)
Theorem invalid_file_rejected sid payload e w :
  let w' := (on_file sid payload e w).2 in
  let new := effects_of (on_file sid payload e) w in
  let message :=
    match payload with
    | Js.Null =>
        "File send failed: Cannot read properties of null (reading 'roomId')"
    | _ => "Invalid file payload"
    end in
  (∀ p, Js.default_param no_file payload = Some p →
        Js.truthy (file_room w sid p) = false
        ∨ Js.truthy (file_url p) = false) →
  (on_file sid payload e w).1 = Normal tt
  ∧ db w' = db w ∧ rooms w' = rooms w ∧ sockets w' = sockets w
  ∧ new = [Emit {[sid]} (ErrorMessage message)]
  ∧ writes new = []
  ∧ ∀ sid', sid' ≠ sid → inbox sid' new = [].
Proof.
  intros w' new message Hbad.
  assert (on_file sid payload e w
          = (Normal tt,
             with_log (λ l, l ++ [Emit {[sid]} (ErrorMessage message)]) w))
    as Heval.
  { destruct (Js.default_param no_file payload) as [p|] eqn:Hp.
    - assert (message = "Invalid file payload") as ->.
      { subst message. by destruct payload. }
      apply (on_file_invalid sid payload p e w Hp).
      destruct (Hbad p eq_refl) as [-> | ->]; [done | by rewrite orb_true_r].
    - destruct payload; [done | apply on_file_null | done]. }
  assert (new = [Emit {[sid]} (ErrorMessage message)]) as Hnew.
  { subst new. apply effects_of_app. by rewrite Heval. }
  subst w'. rewrite Heval, Hnew. split_and!; try done.
  intros sid' Hne. simpl.
  by rewrite bool_decide_eq_false_2 by (by rewrite elem_of_singleton).
Qed.

(** ann shares a file with an empty url, then sends [null]. *)
Lemma invalid_file_rejected_witness :
  let w := Scenario.two_in_room in
  let p := {| file_roomId := Some "room-X"; file_username := None;
              file_url := Some ""; file_filename := Some "cat.png";
              file_mime := None |} in
  (db (on_file "A" (Js.Obj p) Scenario.quiet_env w).2 = db w
   ∧ effects_of (on_file "A" (Js.Obj p) Scenario.quiet_env) w
     = [Emit {["A"]} (ErrorMessage "Invalid file payload")])
  ∧ effects_of (on_file "A" Js.Null Scenario.quiet_env) w
    = [Emit {["A"]}
         (ErrorMessage
            "File send failed: Cannot read properties of null (reading 'roomId')")].
Proof.
  intros w p. split.
  - destruct (invalid_file_rejected "A" (Js.Obj p) Scenario.quiet_env w)
      as (_ & Hdb & _ & _ & Hnew & _).
    { intros p' [= <-]. by right. }
    split; [exact Hdb | exact Hnew].
  - destruct (invalid_file_rejected "A" Js.Null Scenario.quiet_env w)
      as (_ & _ & _ & _ & Hnew & _).
    { intros p' [=]. }
    exact Hnew.
Defined.

End file_cases.

(** ** The upload endpoint *)

Section upload_facts.
Import Upload.

Lemma replace_unsafe_safe s : Js.all_chars is_name_char (replace_unsafe s) = true.
Proof.
  induction s as [|c s IH]; simpl; [done|].
  rewrite IH, andb_true_r. by destruct (is_name_char c) eqn:Hc.
Qed.

Lemma replace_unsafe_length s : String.length (replace_unsafe s) = String.length s.
Proof. induction s as [|c s IH]; simpl; by rewrite ?IH. Qed.

Lemma replace_unsafe_id s :
  Js.all_chars is_name_char s = true → replace_unsafe s = s.
Proof.
  induction s as [|c s IH]; simpl; [done|].
  rewrite andb_true_iff. intros [-> Hs]. by rewrite IH.
Qed.

Lemma take_all n s : (String.length s ≤ n)%nat → Js.take n s = s.
Proof.
  revert s. induction n as [|n IH]; intros [|c s]; simpl; try done; [lia|].
  intros H. rewrite IH; [done | lia].
Qed.

Lemma pretty_N_char_digit x : is_digit (pretty_N_char x) = true.
Proof. unfold pretty_N_char. by repeat case_match. Qed.

Lemma pretty_N_go_digits x s :
  Js.all_chars is_digit s = true → Js.all_chars is_digit (pretty_N_go x s) = true.
Proof.
  revert s. induction (N.lt_wf_0 x) as [x _ IH]; intros s Hs.
  assert (x = 0 ∨ 0 < x)%N as [->|?] by lia.
  - by rewrite pretty_N_go_0.
  - rewrite pretty_N_go_step by done. apply IH.
    { by apply N.div_lt. }
    simpl. by rewrite pretty_N_char_digit, Hs.
Qed.

Lemma pretty_Z_digits (z : Z) :
  (0 ≤ z)%Z → Js.all_chars is_digit (pretty z) = true.
Proof.
  destruct z as [|p|p]; intros Hz; [done| |lia].
  unfold pretty, pretty_Z, pretty, pretty_positive, pretty, pretty_N.
  rewrite decide_False by done. by apply pretty_N_go_digits.
Qed.

(** A run of digits followed by a dash can be read back in one way only. *)
Lemma digits_dash_inj d1 d2 r1 r2 :
  Js.all_chars is_digit d1 = true → Js.all_chars is_digit d2 = true →
  d1 +:+ String "-" r1 = d2 +:+ String "-" r2 → d1 = d2 ∧ r1 = r2.
Proof.
  revert d2. induction d1 as [|c1 d1 IH]; intros [|c2 d2]; simpl.
  - by intros _ _ [= ->].
  - rewrite andb_true_iff. intros _ [Hc _] [= <- _]. done.
  - rewrite andb_true_iff. intros [Hc _] _ [= -> _]. done.
  - rewrite !andb_true_iff. intros [_ H1] [_ H2] [= -> Heq].
    destruct (IH d2 H1 H2 Heq) as [-> ->]. done.
Qed.

Lemma append_inj_length a b x y :
  String.length a = String.length b → a +:+ x = b +:+ y → a = b ∧ x = y.
Proof.
  revert b. induction a as [|c a IH]; intros [|c' b]; simpl; try done.
  intros [= Hlen] [= -> Heq]. destruct (IH b Hlen Heq) as [-> ->]. done.
Qed.

(** X15.  An upload is answered with the url [/uploads/] followed by the
    stored name: the clock, a dash, the first eight characters of the
    uuid, a dash, the base and the extension.  The base consists of ASCII
    letters, digits, [-] and [_] only and is the stem of the original name
    cut to 80 characters; a stem of such characters and of at most 80 of
    them is kept as it is. *)
Theorem stored_name_is_safe path originalname now uuid :
  let stem := basename path (Js.or_lit originalname "file")
                       (ext path originalname) in
  let b := base path originalname in
  post_upload (single path (Some originalname) now uuid)
  = Uploaded ("/uploads/" +:+ pretty now +:+ "-" +:+ Js.slice 0 8 uuid
              +:+ "-" +:+ b +:+ ext path originalname)
             originalname
  ∧ Js.all_chars is_name_char b = true
  ∧ String.length b = Nat.min 80 (String.length stem)
  ∧ (Js.all_chars is_name_char stem = true →
     (String.length stem ≤ 80)%nat → b = stem).
Proof.
  intros stem b. split_and!.
  - done.
  - subst b. unfold base, Js.slice. apply all_chars_take. cbn [Js.drop].
    apply replace_unsafe_safe.
  - subst b. unfold base. fold stem.
    rewrite slice_length, replace_unsafe_length. lia.
  - intros Hsafe Hlen. subst b. unfold base. fold stem.
    rewrite replace_unsafe_id by done.
    unfold Js.slice. cbn [Js.drop]. rewrite Nat.sub_0_r. by apply take_all.
Qed.

(** X16.  Two uploads whose clocks differ, or whose uuids differ within
    their first eight characters, are stored under different names and
    answered with different urls, whatever the original names are (clocks
    not negative, uuids of at least eight characters). *)
Theorem upload_names_distinct path n1 n2 now1 now2 uuid1 uuid2 :
  (0 ≤ now1)%Z → (0 ≤ now2)%Z →
  (8 ≤ String.length uuid1)%nat → (8 ≤ String.length uuid2)%nat →
  now1 ≠ now2 ∨ Js.slice 0 8 uuid1 ≠ Js.slice 0 8 uuid2 →
  filename path n1 now1 uuid1 ≠ filename path n2 now2 uuid2
  ∧ post_upload (single path (Some n1) now1 uuid1)
    ≠ post_upload (single path (Some n2) now2 uuid2).
Proof.
  intros Hn1 Hn2 Hu1 Hu2 Hdiff.
  assert (filename path n1 now1 uuid1 ≠ filename path n2 now2 uuid2)
    as Hnames.
  { intros Heq. unfold filename in Heq.
    apply digits_dash_inj in Heq as [Hnow Hrest];
      [|by apply pretty_Z_digits..].
    apply (inj pretty) in Hnow.
    apply append_inj_length in Hrest as [Hu _];
      [|rewrite !slice_length; lia].
    destruct Hdiff; done. }
  split; [exact Hnames|]. simpl. intros [= Heq _]. done.
Qed.

(** cat.png uploaded twice, one millisecond apart, with the same uuid. *)
Lemma upload_names_distinct_witness :
  let path := Scenario.path_of_cat in
  filename path (Some "cat.png") 1700000000000
           "1b9d6bcd-bbfd-4b2d-9b5d-ab8dfbbd4bed"
  = "1700000000000-1b9d6bcd-cat.png"
  ∧ filename path (Some "cat.png") 1700000000000
             "1b9d6bcd-bbfd-4b2d-9b5d-ab8dfbbd4bed"
    ≠ filename path (Some "cat.png") 1700000000001
               "1b9d6bcd-bbfd-4b2d-9b5d-ab8dfbbd4bed".
Proof.
  intros path. split; [reflexivity|].
  apply (upload_names_distinct path (Some "cat.png") (Some "cat.png")
           1700000000000 1700000000001
           "1b9d6bcd-bbfd-4b2d-9b5d-ab8dfbbd4bed"
           "1b9d6bcd-bbfd-4b2d-9b5d-ab8dfbbd4bed");
    [lia | lia | simpl; lia | simpl; lia | left; lia].
Defined.

End upload_facts.

(** ** The schema migrations *)

Section migration_facts.
Import Migration.
Implicit Types (d : database) (t : list column) (col : string).

Lemma names_table_info d : name <$> table_info d = names d.
Proof.
  destruct d as [t|]; [|done]. unfold names, table_info.
  rewrite fmap_imap. apply imap_const.
Qed.

(** [cols.some(c => c.name === col)] asks whether [col] is a declared
    name. *)
Lemma has_column_spec col d :
  existsb (λ c, String.eqb (name c) col) (table_info d) = true
  ↔ col ∈ names d.
Proof.
  rewrite <- names_table_info, existsb_exists, list_elem_of_fmap.
  split.
  - intros (c & Hin & <-%String.eqb_eq). exists c.
    by rewrite list_elem_of_In.
  - intros (c & -> & Hin). exists c. rewrite <- list_elem_of_In.
    by rewrite String.eqb_refl.
Qed.

Lemma same_identifier_refl a : same_identifier a a = true.
Proof. apply String.eqb_refl. Qed.

Lemma same_identifier_sym a b : same_identifier a b = same_identifier b a.
Proof. apply String.eqb_sym. Qed.

Lemma clash_spec col t :
  existsb (λ c, same_identifier (col_name c) col) t = true
  ↔ ∃ c, c ∈ t ∧ same_identifier (col_name c) col = true.
Proof.
  rewrite existsb_exists. by setoid_rewrite list_elem_of_In.
Qed.

Lemma has_column_clash col t :
  col ∈ names (Some t) →
  existsb (λ c, same_identifier (col_name c) col) t = true.
Proof.
  unfold names. simpl. intros (c & -> & Hin)%list_elem_of_fmap.
  apply clash_spec. exists c. by rewrite same_identifier_refl.
Qed.

(** The database a script leaves, and its exit status. *)
Lemma migrate_after col d :
  after (migrate col d)
  = match d with
    | Some t =>
        if existsb (λ c, same_identifier (col_name c) col) t then d
        else Some (t ++ [{| col_name := col; col_type := "TEXT" |}])
    | None => None
    end.
Proof.
  unfold migrate.
  destruct (existsb _ (table_info d)) eqn:Hhas.
  - apply has_column_spec in Hhas. destruct d as [t|]; [|done].
    by rewrite has_column_clash.
  - unfold add_column. destruct d as [t|]; [|done].
    by destruct (existsb _ t).
Qed.

Lemma migrate_exit_code col d :
  exit_code (migrate col d)
  = if bool_decide (col ∈ names d) then 0%nat
    else match d with
         | Some t =>
             if existsb (λ c, same_identifier (col_name c) col) t
             then 2%nat else 0%nat
         | None => 2%nat
         end.
Proof.
  unfold migrate.
  destruct (existsb _ (table_info d)) eqn:Hhas.
  - apply has_column_spec in Hhas. by rewrite bool_decide_eq_true_2.
  - rewrite bool_decide_eq_false_2.
    2: { rewrite <- has_column_spec, Hhas. done. }
    unfold add_column. destruct d as [t|]; [|done].
    by destruct (existsb _ t).
Qed.

Lemma migrate_present col d :
  col ∈ names d →
  migrate col d
  = {| exit_code := 0;
       console := [CurrentColumns (listing (table_info d));
                   AlreadyExists col];
       after := d |}.
Proof.
  intros Hin%has_column_spec. unfold migrate. by rewrite Hin.
Qed.

(** X17.  A migration script exits with 0 or with 2.  With 0 the table
    exists and has the column afterwards, and the database is either
    untouched (the column was there) or has the one column, of type TEXT,
    appended behind the columns it had.  With 2 the database is untouched,
    the column is missing, and either the table does not exist or a
    column's name differs from the new one in letter case only. *)
Theorem migrate_adds_one_column_or_nothing col d :
  let r := migrate col d in
  (exit_code r = 0%nat ∨ exit_code r = 2%nat)
  ∧ (exit_code r = 0%nat →
     col ∈ names (after r)
     ∧ ∃ t, d = Some t
            ∧ (after r = d
               ∨ ((col ∉ names d)
                  ∧ after r
                    = Some (t ++ [{| col_name := col;
                                     col_type := "TEXT" |}]))))
  ∧ (exit_code r = 2%nat →
     after r = d
     ∧ (col ∉ names d)
     ∧ (d = None
        ∨ ∃ c, c ∈ default [] d
               ∧ same_identifier (col_name c) col = true)).
Proof.
  intros r. subst r. rewrite migrate_exit_code, migrate_after.
  case_bool_decide as Hhas.
  - split; [by left|]. split; [|done]. intros _.
    destruct d as [t|]; [|by apply not_elem_of_nil in Hhas].
    rewrite has_column_clash by done. split; [done|]. exists t. auto.
  - destruct d as [t|].
    + destruct (existsb _ t) eqn:Hclash.
      * split; [by right|]. split; [done|]. intros _.
        split_and!; [done | done |]. right. by apply clash_spec.
      * split; [by left|]. split; [|done]. intros _. split.
        -- unfold names. simpl. rewrite fmap_app. apply elem_of_app.
           right. simpl. apply list_elem_of_here.
        -- exists t. split; [done|]. right. done.
    + split; [by right|]. split; [done|]. intros _. auto.
Qed.

(** A script either finds or adds its column and exits with 0, or fails
    with 2 and leaves the database as it was. *)
Lemma migrate_cases col d :
  (exit_code (migrate col d) = 0%nat ∧ col ∈ names (after (migrate col d)))
  ∨ (exit_code (migrate col d) = 2%nat ∧ after (migrate col d) = d).
Proof.
  rewrite migrate_exit_code, migrate_after.
  case_bool_decide as Hhas.
  - left. split; [done|].
    destruct d as [t|]; [|by apply not_elem_of_nil in Hhas].
    by rewrite has_column_clash.
  - destruct d as [t|]; [|by right].
    destruct (existsb (λ c, same_identifier (col_name c) col) t);
      [by right|].
    left. split; [done|]. unfold names. simpl. rewrite fmap_app.
    apply elem_of_app. right. apply list_elem_of_here.
Qed.

(** X18.  Running a migration script a second time changes nothing: the
    database stays as the first run left it and the exit status is the
    same; after a successful first run the second prints the columns and
    that the column already exists, and nothing else. *)
Theorem migrate_rerun_changes_nothing col d :
  let r := migrate col d in
  after (migrate col (after r)) = after r
  ∧ exit_code (migrate col (after r)) = exit_code r
  ∧ (exit_code r = 0%nat →
     console (migrate col (after r))
     = [CurrentColumns (listing (table_info (after r)));
        AlreadyExists col]).
Proof.
  intros r. destruct (migrate_cases col d) as [[H0 Hin]|[H2 Hafter]];
    fold r in H0 || fold r in H2.
  - fold r in Hin. rewrite (migrate_present col (after r) Hin). simpl.
    by rewrite H0.
  - fold r in Hafter. rewrite Hafter.
    split_and!; [exact Hafter | done | intros H0; congruence].
Qed.

(** A script for [x] does not change what a script for a different
    identifier [y] finds. *)
Lemma migrate_other x y t :
  same_identifier x y = false →
  ∃ t', after (migrate x (Some t)) = Some t'
        ∧ (y ∈ names (Some t') ↔ y ∈ names (Some t))
        ∧ existsb (λ c, same_identifier (col_name c) y) t'
          = existsb (λ c, same_identifier (col_name c) y) t.
Proof.
  intros Hxy. rewrite migrate_after.
  destruct (existsb (λ c, same_identifier (col_name c) x) t).
  - by exists t.
  - eexists. split; [done|]. unfold names. simpl.
    rewrite fmap_app, elem_of_app, existsb_app. simpl.
    rewrite Hxy, !orb_false_r. split; [|done].
    rewrite list_elem_of_singleton. split; [|tauto].
    intros [?|Heq]; [done|]. subst y.
    by rewrite same_identifier_refl in Hxy.
Qed.

(** X19.  Migration scripts for two columns that differ by more than
    letter case can be run in either order: each script exits with the
    status it would have had alone, and the two orders leave the same
    columns, up to the order of the added ones. *)
Theorem migrations_commute a b d :
  same_identifier a b = false →
  let ab := migrate b (after (migrate a d)) in
  let ba := migrate a (after (migrate b d)) in
  exit_code ab = exit_code (migrate b d)
  ∧ exit_code ba = exit_code (migrate a d)
  ∧ default [] (after ab) ≡ₚ default [] (after ba)
  ∧ (is_Some (after ab) ↔ is_Some (after ba)).
Proof.
  intros Hab ab ba.
  assert (same_identifier b a = false) as Hba
    by (by rewrite same_identifier_sym).
  destruct d as [t|]; [|subst ab ba; by split_and!].
  destruct (migrate_other a b t Hab) as (ta & Hta & Hin_ab & Hcl_ab).
  destruct (migrate_other b a t Hba) as (tb & Htb & Hin_ba & Hcl_ba).
  subst ab ba. rewrite Hta, Htb.
  split_and!.
  - rewrite !migrate_exit_code, Hcl_ab.
    by rewrite (bool_decide_ext _ _ Hin_ab).
  - rewrite !migrate_exit_code, Hcl_ba.
    by rewrite (bool_decide_ext _ _ Hin_ba).
  - rewrite !migrate_after, Hcl_ab, Hcl_ba.
    rewrite migrate_after in Hta, Htb.
    destruct (existsb (λ c, same_identifier (col_name c) a) t);
      destruct (existsb (λ c, same_identifier (col_name c) b) t);
      simplify_eq; simpl; try done.
    rewrite <- !app_assoc. apply Permutation_app_head. simpl.
    apply perm_swap.
  - rewrite !migrate_after.
    by destruct (existsb _ ta), (existsb _ tb).
Qed.

(** [room_id] and [type] added to a table that has neither. *)
Lemma migrations_commute_witness :
  let d := Scenario.legacy_table in
  names (after (migrate "type" (after (migrate "room_id" d))))
  = ["id"; "content"; "created_at"; "room_id"; "type"]
  ∧ names (after (migrate "room_id" (after (migrate "type" d))))
    = ["id"; "content"; "created_at"; "type"; "room_id"]
  ∧ default [] (after (migrate "type" (after (migrate "room_id" d))))
    ≡ₚ default [] (after (migrate "room_id" (after (migrate "type" d)))).
Proof.
  intros d. split; [reflexivity|]. split; [reflexivity|].
  apply (migrations_commute "room_id" "type" d eq_refl).
Defined.

End migration_facts.

(** ** The browser client *)

Section client_pane.
Import Client.

Lemma prune_length l : (length (prune l) ≤ MAX_MESSAGES)%nat.
Proof. unfold prune. rewrite length_drop. lia. Qed.

Lemma messages_appendSystem e msg p :
  messages (appendSystem e msg p)
  = (λ l, prune (l ++ [Sys ("[" +:+ nowIso e +:+ "] ") msg])) <$> messages p.
Proof.
  unfold appendSystem, pruneOldMessages.
  destruct (messages p) eqn:Hm; [done | by rewrite Hm].
Qed.

Lemma bounded_same p p' :
  messages p' = messages p → pane_bounded p → pane_bounded p'.
Proof. intros Heq H l. rewrite Heq. apply H. Qed.

Lemma appendSystem_bounded e msg p :
  pane_bounded p → pane_bounded (appendSystem e msg p).
Proof.
  intros _ l. rewrite messages_appendSystem.
  destruct (messages p); [|done]. intros [= <-]. apply prune_length.
Qed.

Lemma appendMessage_bounded e id username text timestamp me p :
  pane_bounded p →
  pane_bounded (appendMessage e id username text timestamp me p).
Proof.
  intros H. unfold appendMessage, pruneOldMessages.
  destruct (messages p) eqn:Hm; [|done].
  repeat case_match; try done; simplify_eq.
  all: intros l' [= <-]; apply prune_length.
Qed.

End client_pane.

Ltac bounded_step :=
  lazymatch goal with
  | |- Client.pane_bounded (Client.appendSystem _ _ _) =>
      apply appendSystem_bounded
  | |- Client.pane_bounded (Client.appendMessage _ _ _ _ _ _ _) =>
      apply appendMessage_bounded
  | |- Client.pane_bounded (if ?b then _ else _) => destruct b
  | |- Client.pane_bounded (match ?x with _ => _ end) => destruct x
  | |- Client.pane_bounded (Client.showParticipants _ _) =>
      unfold Client.showParticipants
  | |- Client.pane_bounded (Client.emitStopTyping _) =>
      unfold Client.emitStopTyping
  | |- Client.pane_bounded (_ _ ?p) =>
      apply (bounded_same p); [reflexivity|]
  end.

Section client_facts.
Import Client.

Lemma step_bounded p x : pane_bounded p → pane_bounded (step p x).
Proof.
  intros H. destruct x as [i e].
  destruct i as [ev|ack| | | | | | | | |]; simpl;
    unfold on_server, on_ack, on_connect, on_disconnect, on_connect_error,
      on_join_click, on_send_click, on_disconnect_click;
    cbv zeta; repeat bounded_step; exact H.
Qed.

(** X20.  The message pane never holds more than [MAX_MESSAGES] (300)
    lines: a page within the limit stays within it under every sequence
    of server events, acknowledgments, transport events, clicks and
    edits. *)
Theorem pane_never_exceeds_limit xs p :
  pane_bounded p → pane_bounded (run xs p).
Proof.
  revert p. induction xs as [|x xs IH]; intros p H; simpl; [done|].
  apply IH. by apply step_bounded.
Qed.

(** 301 error messages from the server: 300 lines are kept. *)
Lemma pane_never_exceeds_limit_witness :
  let xs := replicate 301
              (FromServer (Relay.ErrorMessage "join-room failed"),
               Scenario.browser 1700000000000) in
  pane_bounded (run xs loaded)
  ∧ length <$> messages (run xs loaded) = Some 300%nat.
Proof.
  intros xs. split.
  - apply pane_never_exceeds_limit. intros l [= <-]. simpl.
    unfold MAX_MESSAGES. lia.
  - vm_compute. reflexivity.
Defined.

End client_facts.

Section client_seen.
Import Client.

Lemma seen_same id p p' :
  messages p' = messages p → shownMessages p' = shownMessages p →
  seen id p → seen id p'.
Proof. unfold seen. by intros -> ->. Qed.

Lemma seen_appendSystem id e msg p :
  seen id p → seen id (appendSystem e msg p).
Proof.
  unfold seen. rewrite messages_appendSystem. intros [->|H]; [by left|].
  right. unfold appendSystem. destruct (messages p); exact H.
Qed.

Lemma seen_appendMessage id' e id username text timestamp me p :
  seen id' p → seen id' (appendMessage e id username text timestamp me p).
Proof.
  unfold seen, appendMessage, pruneOldMessages.
  intros [Hm|H]; [left; rewrite Hm; exact Hm|].
  destruct (messages p) eqn:Hm; [|left; exact Hm].
  repeat case_match; simplify_eq; simpl; right; try done.
  all: apply elem_of_union; by right.
Qed.

(** [appendMessage] with an id records it. *)
Lemma appendMessage_records e id username text timestamp me p x :
  Js.or_null id = Some x →
  seen x (appendMessage e (Js.or_null id) username text timestamp me p).
Proof.
  intros Hid. rewrite Hid.
  assert (Js.truthy (Some x) = true) as Ht.
  { unfold Js.or_null in Hid. destruct (Js.truthy id) eqn:H; [|done].
    by subst id. }
  unfold seen, appendMessage, pruneOldMessages. rewrite Ht.
  destruct (messages p) eqn:Hm; [|left; exact Hm]. simpl.
  case_bool_decide as Hin; [by right|]. simpl. right.
  apply elem_of_union. left. by apply elem_of_singleton.
Qed.

(** [appendMessage] with an id that is seen does nothing. *)
Lemma appendMessage_seen e id username text timestamp me p x :
  Js.or_null id = Some x → seen x p →
  appendMessage e (Js.or_null id) username text timestamp me p = p.
Proof.
  intros Hid Hseen. rewrite Hid.
  assert (Js.truthy (Some x) = true) as Ht.
  { unfold Js.or_null in Hid. destruct (Js.truthy id) eqn:H; [|done].
    by subst id. }
  unfold appendMessage. rewrite Ht.
  destruct Hseen as [->|Hin]; [done|].
  destruct (messages p); [|done]. simpl.
  by rewrite bool_decide_eq_true_2.
Qed.

End client_seen.

Ltac seen_step :=
  lazymatch goal with
  | |- Client.seen _ (Client.appendSystem _ _ _) => apply seen_appendSystem
  | |- Client.seen _ (Client.appendMessage _ _ _ _ _ _ _) =>
      apply seen_appendMessage
  | |- Client.seen _ (if ?b then _ else _) => destruct b
  | |- Client.seen _ (match ?x with _ => _ end) => destruct x
  | |- Client.seen _ (Client.showParticipants _ _) =>
      unfold Client.showParticipants
  | |- Client.seen _ (Client.emitStopTyping _) =>
      unfold Client.emitStopTyping
  | |- Client.seen _ (_ _ ?p) =>
      apply (seen_same _ p); [reflexivity|reflexivity|]
  end.

Section client_dedupe.
Import Client.

Lemma step_seen id p x : seen id p → seen id (step p x).
Proof.
  intros H. destruct x as [i e].
  destruct i as [ev|ack| | | | | | | | |]; simpl;
    unfold on_server, on_ack, on_connect, on_disconnect, on_connect_error,
      on_join_click, on_send_click, on_disconnect_click;
    cbv zeta; repeat seen_step; exact H.
Qed.

Lemma run_seen id xs p : seen id p → seen id (run xs p).
Proof.
  revert p. induction xs as [|x xs IH]; intros p H; simpl; [done|].
  apply IH. by apply step_seen.
Qed.

Lemma step_records i e p id :
  message_id i = Some id → seen id (step p (i, e)).
Proof.
  destruct i as [ev|ack| | | | | | | | |]; try done.
  destruct ev; try done; simpl; apply appendMessage_records.
Qed.

Lemma step_seen_noop i e p id :
  message_id i = Some id → seen id p → step p (i, e) = p.
Proof.
  destruct i as [ev|ack| | | | | | | | |]; try done.
  destruct ev; try done; simpl; apply appendMessage_seen.
Qed.

Lemma run_records xs x id p :
  x ∈ xs → message_id x.1 = Some id → seen id (run xs p).
Proof.
  revert p. induction xs as [|y xs IH]; intros p Hin Hid; simpl.
  - by apply not_elem_of_nil in Hin.
  - apply elem_of_cons in Hin as [<-|Hin].
    + apply run_seen. destruct x as [i e]. by apply step_records.
    + by apply IH.
Qed.

(** X21.  A message is displayed once: after any inputs [xs], [chat-message]
    and [file] events [ys] that carry the ids of messages received within
    [xs] leave the page exactly as it was, whatever else they carry.  That
    covers a history replay after a reconnect, and the replay as
    [chat-message] of a file first received as a [file] event. *)
Theorem seen_messages_not_shown_again xs ys p :
  Forall (λ y, ∃ x id, x ∈ xs ∧ message_id x.1 = Some id
                       ∧ message_id y.1 = Some id) ys →
  run ys (run xs p) = run xs p.
Proof.
  intros Hys. induction Hys as [|y ys (x & id & Hin & Hx & Hy) _ IH];
    simpl; [done|].
  destruct y as [i e]. rewrite (step_seen_noop i e _ id Hy); [done|].
  by apply (run_records xs x).
Qed.

(** A file received live, then replayed as a [chat-message]. *)
Lemma seen_messages_not_shown_again_witness :
  let e := Scenario.browser 1700000000000 in
  let live := (FromServer (Relay.FileShared "file-u7" "ann"
                             "/uploads/cat.png" (Some "cat.png")
                             1700000000002), e) in
  let replay := (FromServer (Relay.ChatMessage "file-u7" "ann"
                               "/uploads/cat.png" 1700000000002 "file"
                               (Some "cat.png") (Some "image/png")), e) in
  run [replay] (run [live] loaded) = run [live] loaded
  ∧ length <$> messages (run [live; replay] loaded) = Some 1%nat.
Proof.
  intros e live replay. split; [|reflexivity].
  apply seen_messages_not_shown_again.
  constructor; [|constructor].
  exists live, "file-u7". split; [apply list_elem_of_here|]. split; reflexivity.
Defined.

End client_dedupe.

Section trim_facts.

Lemma trimStart_head s :
  match Js.trimStart s with
  | "" => True
  | String c _ => Js.is_ws c = false
  end.
Proof.
  induction s as [|c s IH]; simpl; [done|].
  destruct (Js.is_ws c) eqn:Hc; [done|]. exact Hc.
Qed.

Lemma trimEnd_head c s :
  Js.is_ws c = false → ∃ t, Js.trimEnd (String c s) = String c t.
Proof.
  intros Hc. simpl. destruct (Js.trimEnd s); rewrite ?Hc; eauto.
Qed.

Lemma trimEnd_idemp s : Js.trimEnd (Js.trimEnd s) = Js.trimEnd s.
Proof.
  induction s as [|c s IH]; simpl; [done|].
  destruct (Js.trimEnd s) as [|c' t] eqn:Ht.
  - destruct (Js.is_ws c) eqn:Hc; simpl; [done|]. by rewrite Hc.
  - cbn [Js.trimEnd]. fold Js.trimEnd.
    change (Js.trimEnd (String c (String c' t))
            = String c (String c' t)).
    simpl in IH |- *. 
    destruct (Js.trimEnd t) eqn:Ht'.
    + destruct (Js.is_ws c') eqn:Hc'; [done|]. by injection IH as ->.
    + by injection IH as ->.
Qed.

Lemma trim_idemp s : Js.trim (Js.trim s) = Js.trim s.
Proof.
  unfold Js.trim. pose proof (trimStart_head s) as Hhead.
  destruct (Js.trimStart s) as [|c t]; [done|].
  destruct (trimEnd_head c t Hhead) as [t' Ht']. rewrite Ht'.
  cbn [Js.trimStart]. rewrite Hhead, <- Ht'. apply trimEnd_idemp.
Qed.

End trim_facts.

Section client_send.
Import Client.

Lemma truthy_default (x : option string) :
  Js.truthy x = true → x = Some (default "" x) ∧ default "" x ≠ "".
Proof.
  destruct x as [s|]; simpl; [|done]. intros H. split; [done|].
  intros ->. done.
Qed.

(** The send click when the text is not empty, a room is joined and the
    cool-down has passed. *)
Lemma send_click_ready e p :
  let text := trimmed_value (messageInput p) "" in
  let room := default "" (currentRoom p) in
  let p' := step p (SendClick, e) in
  text ≠ "" → Js.truthy (currentRoom p) = true →
  (SEND_COOLDOWN_MS ≤ date_now e - lastSentAt p)%Z →
  sent p' = sent p ++ [ChatOut room text (myName p);
                       StopTypingOut room (myName p)]
  ∧ lastSentAt p' = date_now e
  ∧ messageInput p' = Some ""
  ∧ messages p' = messages p
  ∧ shownMessages p' = shownMessages p.
Proof.
  intros text room p' Htext Hroom Hcool. subst p'.
  cbn [step]. unfold on_send_click. fold text. cbv zeta.
  apply String.eqb_neq in Htext. rewrite Htext, Hroom.
  apply Z.ltb_ge in Hcool. rewrite Hcool. cbn [negb].
  unfold emitStopTyping, trimmed_value in *.
  cbn [messageInput emit set_lastSentAt].
  destruct (messageInput p) as [v|] eqn:Hv; [|done].
  simpl. rewrite Hroom. simpl. rewrite <- app_assoc. done.
Qed.

(** X22.  A click on send emits a message exactly when the trimmed text is
    not empty, a room is joined and at least [SEND_COOLDOWN_MS] (300 ms)
    have passed since the last send.  It then emits [chat-message] with
    the current room, the trimmed text and the own name, followed by
    [stop-typing], clears the input and appends nothing to the pane.
    Otherwise nothing is emitted and the input keeps its text; with an
    empty text, or within the cool-down, the page is left as it was. *)
Theorem send_click_gate e p :
  let text := trimmed_value (messageInput p) "" in
  let room := default "" (currentRoom p) in
  let p' := step p (SendClick, e) in
  let ready := text ≠ "" ∧ Js.truthy (currentRoom p) = true
               ∧ (SEND_COOLDOWN_MS ≤ date_now e - lastSentAt p)%Z in
  (ready →
   sent p' = sent p ++ [ChatOut room text (myName p);
                        StopTypingOut room (myName p)]
   ∧ lastSentAt p' = date_now e
   ∧ messageInput p' = Some ""
   ∧ messages p' = messages p)
  ∧ (¬ ready →
     sent p' = sent p ∧ lastSentAt p' = lastSentAt p
     ∧ messageInput p' = messageInput p)
  ∧ (text = ""
     ∨ (Js.truthy (currentRoom p) = true
        ∧ (date_now e - lastSentAt p < SEND_COOLDOWN_MS)%Z) →
     p' = p).
Proof.
  intros text room p' ready. split_and!.
  - intros (Htext & Hroom & Hcool).
    destruct (send_click_ready e p Htext Hroom Hcool)
      as (Hsent & Hlast & Hinput & Hpane & _).
    done.
  - intros Hnot. subst p'. cbn [step]. unfold on_send_click.
    fold text. cbv zeta.
    destruct (String.eqb text "") eqn:Htext; [done|].
    apply String.eqb_neq in Htext.
    destruct (Js.truthy (currentRoom p)) eqn:Hroom; cbn [negb].
    + destruct (date_now e - lastSentAt p <? SEND_COOLDOWN_MS)%Z eqn:Hcool;
        [done|].
      apply Z.ltb_ge in Hcool. by destruct Hnot.
    + unfold appendSystem. by destruct (messages p).
  - intros Hskip. subst p'. cbn [step]. unfold on_send_click.
    fold text. cbv zeta.
    destruct Hskip as [->|[Hroom Hcool]]; [done|].
    apply Z.ltb_lt in Hcool. rewrite Hroom, Hcool.
    by destruct (String.eqb text "").
Qed.

(** X23.  From the input field to the panes: a send the page emits
    carries a room id and a text that the server's listener takes as they
    are (the room is the page's room, the text trimmed again is the same
    non-empty text), so it is not an invalid payload.  When the store
    accepts it, every member of the room receives one [chat-message]
    whose text is the trimmed input and whose name is the one the server
    resolves; a page that has not shown that id appends exactly one line
    with that name and text, marked as own when the name is its own. *)
Theorem typed_text_reaches_the_room e p sid se w d' q e' l :
  let text := trimmed_value (messageInput p) "" in
  let room := default "" (currentRoom p) in
  let msg := chat_payload room text (myName p) in
  let name := Relay.send_name w sid msg in
  let shown := Relay.ChatMessage ("msg-" +:+ Relay.uuid se) name text
                                 (Relay.now se) "text" None None in
  text ≠ "" → Js.truthy (currentRoom p) = true →
  (SEND_COOLDOWN_MS ≤ date_now e - lastSentAt p)%Z →
  Store.storeMessage (Relay.db w) (Relay.send_message w sid msg se)
                     (Relay.store_now se) (Relay.store_fault se) = inr d' →
  Relay.now se ≠ 0%Z →
  messages q = Some l → ("msg-" +:+ Relay.uuid se) ∉ shownMessages q →
  ChatOut room text (myName p) ∈ sent (step p (SendClick, e))
  ∧ Relay.send_room w sid msg = Some room
  ∧ Relay.send_trimmed msg = text
  ∧ (∀ sid', sid' ∈ Relay.members (Relay.sockets w) room →
       Relay.inbox sid'
         (Relay.effects_of
            (Relay.handle sid (Relay.ChatMessageIn (Some msg) true) se) w)
       = [shown])
  ∧ messages (step q (FromServer shown, e'))
    = Some (prune (l ++ [Msg (bool_decide (myName q = Some name))
                             ("[" +:+ toLocaleString e' (Relay.now se)
                              +:+ "] ")
                             (name +:+ ": ") text])).
Proof.
  intros text room msg name shown Htext Hroom Hcool Hst Hnow Hl Hnew.
  destruct (truthy_default _ Hroom) as [Hcur Hne].
  assert (Relay.send_trimmed msg = text) as Htrim.
  { unfold Relay.send_trimmed, msg. simpl.
    destruct (String.eqb text "") eqn:Heq;
      [by apply String.eqb_eq in Heq|].
    unfold text, trimmed_value in *.
    destruct (Js.truthy (messageInput p)); [apply trim_idemp | done]. }
  assert (Relay.send_room w sid msg = Some room) as Hsroom.
  { unfold Relay.send_room, msg, Js.or. simpl.
    apply String.eqb_neq in Hne. fold room in Hne. by rewrite Hne. }
  split_and!.
  - destruct (send_click_ready e p Htext Hroom Hcool) as (-> & _).
    apply elem_of_app. right. apply list_elem_of_here.
  - exact Hsroom.
  - exact Htrim.
  - intros sid' Hin.
    assert (negb (Js.truthy (Relay.send_room w sid msg))
            || String.eqb (Relay.send_trimmed msg) "" = false) as Hvalid.
    { rewrite Hsroom, Htrim. apply String.eqb_neq in Htext. rewrite Htext.
      apply String.eqb_neq in Hne. fold room in Hne. simpl. by rewrite Hne. }
    pose proof (handleIncomingMessage_stored sid msg true se w d' Hvalid Hst)
      as Heval.
    change (Relay.handle sid (Relay.ChatMessageIn (Some msg) true) se)
      with (Relay.handleIncomingMessage sid msg true se).
    rewrite (effects_of_app _ _ _ (f_equal (λ x, Relay.log x.2) Heval)).
    rewrite Hsroom. simpl. rewrite bool_decide_eq_true_2 by done.
    unfold shown, Relay.chat_message_of, Relay.send_message. simpl.
    by rewrite Htrim.
  - assert (String.eqb name "" = false) as Hname.
    { apply String.eqb_neq. unfold name, Relay.send_name.
      by apply or_lit_not_empty. }
    subst shown. cbn [step on_server]. unfold appendMessage, pruneOldMessages. rewrite Hl.
    apply Z.eqb_neq in Hnow. rewrite Hnow.
    assert (Js.or_null (Some ("msg-" +:+ Relay.uuid se))
            = Some ("msg-" +:+ Relay.uuid se)) as -> by done.
    assert (Js.truthy (Some ("msg-" +:+ Relay.uuid se)) = true) as -> by done.
    cbn [default from_option id]. rewrite bool_decide_eq_false_2 by done.
    unfold Js.or_lit. rewrite Hname. done.
Qed.

(** ann sends the text she typed, blanks around it; bob's page shows it. *)
Lemma typed_text_reaches_the_room_witness :
  let p := Scenario.ann_page in
  let se := Scenario.env_with "u1" 1700000000001 None in
  let shown := Relay.ChatMessage "msg-u1" "ann" "hello" 1700000000001
                                 "text" None None in
  ChatOut "room-X" "hello" (Some "ann")
    ∈ sent (step p (SendClick, Scenario.browser 1700000000500))
  ∧ Relay.inbox "B"
    (Relay.effects_of
       (Relay.handle "A"
          (Relay.ChatMessageIn
             (Some (chat_payload "room-X" "hello" (Some "ann"))) true) se)
       Scenario.two_in_room)
  = [shown]
  ∧ messages (step loaded (FromServer shown, Scenario.browser 1700000000002))
    = Some [Msg false "[11/14/2023, 10:13:20 PM] " "ann: " "hello"].
Proof.
  intros p se shown.
  destruct (typed_text_reaches_the_room
              (Scenario.browser 1700000000500) p "A" se Scenario.two_in_room
              (Relay.db Scenario.two_in_room
               ++ [Store.bound_row
                     (Relay.send_message Scenario.two_in_room "A"
                        (chat_payload "room-X" "hello" (Some "ann")) se)
                     1700000000001])
              loaded (Scenario.browser 1700000000002) []
              ltac:(discriminate) eq_refl ltac:(vm_compute; discriminate)
              eq_refl ltac:(discriminate) eq_refl
              ltac:(apply not_elem_of_empty))
    as (Hsent & _ & _ & Hroom & Hpane).
  split; [exact Hsent|]. split.
  - apply (Hroom "B").
    apply elem_of_members. eexists. split; [reflexivity|].
    apply list_elem_of_further, list_elem_of_here.
  - exact Hpane.
Defined.

End client_send.

Section client_join.
Import Client.

Lemma sanitize_short_name u :
  u ≠ "" → (String.length u ≤ 48)%nat → Relay.sanitize_username (Some u) = u.
Proof.
  intros Hne Hlen. unfold Relay.sanitize_username.
  apply String.eqb_neq in Hne. simpl. rewrite Hne. simpl.
  unfold Js.slice. cbn [Js.drop]. rewrite Nat.sub_0_r.
  rewrite take_all by done. by rewrite Hne.
Qed.

Lemma sent_appendSystem e msg p : sent (appendSystem e msg p) = sent p.
Proof. unfold appendSystem. by destruct (messages p). Qed.

Lemma currentRoom_appendSystem e msg p :
  currentRoom (appendSystem e msg p) = currentRoom p.
Proof. unfold appendSystem. by destruct (messages p). Qed.

Lemma myName_appendSystem e msg p :
  myName (appendSystem e msg p) = myName p.
Proof. unfold appendSystem. by destruct (messages p). Qed.

(** X24.  From the join button to the room: with a room id in the room
    field, the click emits [join-room] with the trimmed room id and the
    trimmed user name, or 'Anonymous', and records that name.  When the
    room id names no member of [Object.prototype], the server's listener
    answers that payload first with [joined] for the same room id, the
    participant list containing the name it registered, which is the
    page's name when that is not empty and at most 48 characters long.
    On [joined] the page is in that room, and when the socket connects
    again it emits the same [join-room] (with a non-empty name). *)
Theorem join_click_reaches_the_room e p sid se w e2 e3 :
  let r := trimmed_value (roomInput p) "" in
  let u := trimmed_value (usernameInput p) "Anonymous" in
  let p1 := step p (JoinClick, e) in
  let payload := {| Relay.join_roomId := Some r;
                    Relay.join_username := Some u |} in
  let name := Relay.sanitize_username (Some u) in
  let w' := (Relay.on_join_room sid (Some payload) se w).2 in
  let joined :=
    Relay.Joined r (Registry.listParticipants (Relay.rooms w') r) in
  let p2 := step p1 (FromServer joined, e2) in
  r ≠ "" →
  Js.object_prototype r = None →
  (sent p1 = sent p ++ [JoinOut r u] ∧ myName p1 = Some u)
  ∧ (head (Relay.inbox sid
             (Relay.effects_of (Relay.on_join_room sid (Some payload) se) w))
     = Some joined
     ∧ Some name ∈ Registry.listParticipants (Relay.rooms w') r
     ∧ (u ≠ "" → (String.length u ≤ 48)%nat → name = u))
  ∧ (currentRoom p2 = Some r ∧ myName p2 = Some u
     ∧ (u ≠ "" →
        sent (step p2 (Connect, e3)) = sent p2 ++ [JoinOut r u])).
Proof.
  intros r u p1 payload name w' joined p2 Hr Hord.
  assert (String.eqb r "" = false) as Hr' by (by apply String.eqb_neq).
  assert (p1 = setControlsForJoined true
                 (emit (JoinOut r u)
                    (appendSystem e ("Joining room " +:+ r +:+ "...")
                       (set_myName (Some u) p)))) as Hp1.
  { subst p1. cbn [step]. unfold on_join_click. fold r u. cbv zeta.
    by rewrite Hr'. }
  assert (sent p1 = sent p ++ [JoinOut r u] ∧ myName p1 = Some u)
    as [Hsent Hname].
  { rewrite Hp1. cbn [sent myName setControlsForJoined emit].
    by rewrite sent_appendSystem, myName_appendSystem. }
  assert (Js.or_lit (Relay.join_roomId payload) (Relay.mint_room_id se) = r)
    as Hroom.
  { unfold payload. simpl. by rewrite Hr'. }
  assert (currentRoom p2 = Some r ∧ myName p2 = Some u) as [Hcur Hmy].
  { subst p2. cbn [step]. unfold joined, on_server, showParticipants.
    split.
    - destruct (participantsLabel _);
        cbn [currentRoom set_participantsLabel setControlsForJoined];
        by rewrite currentRoom_appendSystem.
    - destruct (participantsLabel _);
        cbn [myName set_participantsLabel setControlsForJoined];
        by rewrite myName_appendSystem. }
  pose proof (on_join_room_effects sid payload se w) as Heff.
  cbv zeta in Heff. rewrite Hroom in Heff.
  destruct (Heff (inherited_ordinary _ _ Hord))
    as (_ & _ & _ & _ & _ & Hin & Hnew).
  split_and!; try done.
  - rewrite Hnew. simpl.
    by rewrite bool_decide_eq_true_2 by (by apply elem_of_singleton).
  - apply sanitize_short_name.
  - intros Hu. cbn [step]. unfold on_connect. cbv zeta.
    rewrite currentRoom_appendSystem, myName_appendSystem, Hcur, Hmy.
    apply String.eqb_neq in Hu. simpl. rewrite Hr', Hu. simpl.
    by rewrite !sent_appendSystem.
Qed.

(** bob types his name, blanks around it, and room-X, where ann is. *)
Lemma join_click_reaches_the_room_witness :
  let e := Scenario.browser 1700000000000 in
  let p := run [(EditUsername " bob ", e); (EditRoom "room-X", e)] loaded in
  let p1 := step p (JoinClick, e) in
  let joined := Relay.Joined "room-X" [Some "ann"; Some "bob"] in
  let p2 := step p1 (FromServer joined, e) in
  sent p1 = [JoinOut "room-X" "bob"]
  ∧ head (Relay.inbox "B"
            (Relay.effects_of
               (Relay.on_join_room "B"
                  (Some {| Relay.join_roomId := Some "room-X";
                           Relay.join_username := Some "bob" |})
                  Scenario.quiet_env)
               Scenario.ann_waits))
    = Some joined
  ∧ currentRoom p2 = Some "room-X"
  ∧ sent (step p2 (Connect, e))
    = [JoinOut "room-X" "bob"; JoinOut "room-X" "bob"].
Proof.
  intros e p p1 joined p2.
  destruct (join_click_reaches_the_room e p "B" Scenario.quiet_env
              Scenario.ann_waits
              e e ltac:(discriminate) eq_refl)
    as ((Hsent & _) & (Hjoined & _) & (Hcur & _ & Hagain)).
  split_and!.
  - exact Hsent.
  - exact Hjoined.
  - exact Hcur.
  - exact (Hagain ltac:(discriminate)).
Defined.

End client_join.
